(** * Flappy-bird arcade game: simulation core and leaderboard store

    A shallow embedding of the responsive variant of the application
    (constants, [getGameDimensions], [getLeaderboard], [saveScore],
    [gameLoop], [jump], [resetGame], [handleResize]) and the properties
    of its specification.  The fixed-size variant ([src/App.jsx]) is the
    same program with [dimensions] frozen at 400 x 600.

    Numbers.  JavaScript numbers are doubles.  Every number the simulation
    handles is a small dyadic rational (multiples of 1/2), on which double
    arithmetic is exact, so the bird's position and velocity are rationals
    ([Q]) and the integer-valued quantities (frame counter, scores, pipe
    abscissas, gap heights, playfield dimensions) are integers ([Z]).

    Strings.  A JavaScript string is a sequence of UTF-16 code units; texts
    are modelled by [string], its characters standing for the code units
    0..255, and the strings inside parsed JSON values by lists of code
    units, since a [\uXXXX] escape can denote any of them. *)

From Stdlib Require Import ZArith QArith Qround Qabs Qcanon Lqa Lia.
From Stdlib Require Import Ascii String DecimalString DecimalFacts DecimalPos.
From stdpp Require Import gmap strings list sorting.

Local Open Scope Z_scope.

(** ** Outcomes of JavaScript calls *)

Module Js.

Inductive JsError : Type :=
| SyntaxError
| TypeError.

(** A call returns a value or throws.  [OutsideModel] marks the inputs on
    which the behaviour of the source is left to the JavaScript engine
    (a comparator yielding NaN inside [sort]) and, in [JSON_parse], an
    exhausted recursion budget, which never happens; no property below is
    proved through it. *)
Inductive outcome (A : Type) : Type :=
| Returns (a : A)
| Throws (e : JsError)
| OutsideModel.

Arguments Returns {A} a.
Arguments Throws {A} e.
Arguments OutsideModel {A}.

Definition bind {A B : Type} (m : outcome A) (k : A -> outcome B) : outcome B :=
  match m with
  | Returns a => k a
  | Throws e => Throws e
  | OutsideModel => OutsideModel
  end.

Definition returns {A : Type} (m : outcome A) : bool :=
  match m with Returns _ => true | _ => false end.

End Js.
Export Js.

#[export] Instance outcome_bind : MBind outcome :=
  fun A B k m => Js.bind m k.
#[export] Instance outcome_ret : MRet outcome := @Js.Returns.

(** ** JSON texts and values (ECMA-404, as accepted by [JSON.parse]) *)

Module Json.

#[warnings="-register-all"] Inductive value : Type :=
| JNull
| JBool (b : bool)
| JNum (q : Q)
| JStr (s : list N)
| JArr (items : list value)
| JObj (members : list (list N * value)).

(** Result of a parsing function: the value and the unread text, a syntax
    error, or an exhausted recursion budget. *)
Inductive presult (A : Type) : Type :=
| POk (a : A) (rest : string)
| PErr
| PFuel.

Arguments POk {A} a rest.
Arguments PErr {A}.
Arguments PFuel {A}.

Definition is_ws (c : ascii) : bool :=
  let n := N_of_ascii c in
  ((n =? 32) || (n =? 9) || (n =? 10) || (n =? 13))%N.

Fixpoint skip_ws (s : string) : string :=
  match s with
  | String c rest => if is_ws c then skip_ws rest else s
  | EmptyString => s
  end.

Definition digit_of (c : ascii) : option Z :=
  let n := Z.of_N (N_of_ascii c) in
  if (48 <=? n) && (n <=? 57) then Some (n - 48) else None.

Definition hex_of (c : ascii) : option N :=
  let n := N_of_ascii c in
  if ((48 <=? n) && (n <=? 57))%N then Some (n - 48)%N
  else if ((65 <=? n) && (n <=? 70))%N then Some (n - 55)%N
  else if ((97 <=? n) && (n <=? 102))%N then Some (n - 87)%N
  else None.

(** The characters after the opening quote of a string, up to and
    including the closing quote. *)
Fixpoint parse_chars (s : string) : presult (list N) :=
  match s with
  | EmptyString => PErr
  | String c rest =>
    let n := N_of_ascii c in
    if (n =? 34)%N then POk [] rest
    else if (n =? 92)%N then
      match rest with
      | EmptyString => PErr
      | String e rest1 =>
        let simple (u : N) :=
          match parse_chars rest1 with
          | POk cs r => POk (u :: cs) r
          | other => other
          end in
        let k := N_of_ascii e in
        if (k =? 34)%N then simple 34%N
        else if (k =? 92)%N then simple 92%N
        else if (k =? 47)%N then simple 47%N
        else if (k =? 98)%N then simple 8%N
        else if (k =? 102)%N then simple 12%N
        else if (k =? 110)%N then simple 10%N
        else if (k =? 114)%N then simple 13%N
        else if (k =? 116)%N then simple 9%N
        else if (k =? 117)%N then
          match rest1 with
          | String h1 (String h2 (String h3 (String h4 rest2))) =>
            match hex_of h1, hex_of h2, hex_of h3, hex_of h4 with
            | Some a, Some b, Some c', Some d =>
              match parse_chars rest2 with
              | POk cs r => POk ((((a * 16 + b) * 16 + c') * 16 + d)%N :: cs) r
              | other => other
              end
            | _, _, _, _ => PErr
            end
          | _ => PErr
          end
        else PErr
      end
    else if (n <? 32)%N then PErr
    else
      match parse_chars rest with
      | POk cs r => POk (n :: cs) r
      | other => other
      end
  end.

(** A maximal run of decimal digits: its value, its length, the rest. *)
Fixpoint parse_digits (s : string) (acc : Z) (len : Z) : Z * Z * string :=
  match s with
  | String c rest =>
    match digit_of c with
    | Some d => parse_digits rest (acc * 10 + d) (len + 1)
    | None => (acc, len, s)
    end
  | EmptyString => (acc, len, s)
  end.

Definition pow10 (mant : Z) (scale : Z) : Q :=
  if 0 <=? scale then inject_Z (mant * 10 ^ scale)
  else Qmake mant (Z.to_pos (10 ^ (- scale))).

(** [0], or a digit from 1 to 9 followed by digits. *)
Definition parse_int (s : string) : presult Z :=
  match s with
  | EmptyString => PErr
  | String c0 r0 =>
    match digit_of c0 with
    | None => PErr
    | Some dgt =>
      if dgt =? 0 then POk 0 r0
      else let '(v, _, r) := parse_digits r0 dgt 1 in POk v r
    end
  end.

(** An optional fraction, a dot and one or more digits: the mantissa
    extended with the digits of the fraction, and their number. *)
Definition parse_frac (mant : Z) (s : string) : presult (Z * Z) :=
  match s with
  | String "." r =>
    let '(v, len, r') := parse_digits r mant 0 in
    if len =? 0 then PErr else POk (v, len) r'
  | _ => POk (mant, 0) s
  end.

(** An optional exponent: [e] or [E], an optional sign, one or more
    digits. *)
Definition parse_exp (s : string) : presult Z :=
  let digits (eneg : bool) (r : string) :=
    let '(e, len, r') := parse_digits r 0 0 in
    if len =? 0 then PErr else POk (if eneg then - e else e) r' in
  let signed (r : string) :=
    match r with
    | String "-" r' => digits true r'
    | String "+" r' => digits false r'
    | _ => digits false r
    end in
  match s with
  | String "e" r => signed r
  | String "E" r => signed r
  | _ => POk 0 s
  end.

(** number = optional minus, integer part, optional fraction, optional
    exponent. *)
Definition parse_number (s : string) : presult Q :=
  let '(neg, s1) :=
    match s with
    | String "-" r => (true, r)
    | _ => (false, s)
    end in
  match parse_int s1 with
  | POk ipart s2 =>
    match parse_frac ipart s2 with
    | POk (mant, flen) s3 =>
      match parse_exp s3 with
      | POk e s4 => POk (pow10 (if neg : bool then - mant else mant) (e - flen)) s4
      | PErr => PErr
      | PFuel => PFuel
      end
    | PErr => PErr
    | PFuel => PFuel
    end
  | PErr => PErr
  | PFuel => PFuel
  end.

(** [expect lit v s]: the text [s] starts with the literal [lit]. *)
Fixpoint expect {A : Type} (lit : string) (v : A) (s : string) : presult A :=
  match lit with
  | EmptyString => POk v s
  | String c lit' =>
    match s with
    | String d rest => if Ascii.eqb c d then expect lit' v rest else PErr
    | EmptyString => PErr
    end
  end.

Fixpoint parse_value (fuel : nat) (s : string) : presult value :=
  match fuel with
  | O => PFuel
  | S fuel =>
    match skip_ws s with
    | EmptyString => PErr
    | String c rest =>
      let n := N_of_ascii c in
      if (n =? 91)%N then               (* [ *)
        match skip_ws rest with
        | String "]" r => POk (JArr []) r
        | _ => parse_elements fuel rest []
        end
      else if (n =? 123)%N then         (* { *)
        match skip_ws rest with
        | String "}" r => POk (JObj []) r
        | _ => parse_members fuel rest []
        end
      else if (n =? 34)%N then          (* quote *)
        match parse_chars rest with
        | POk cs r => POk (JStr cs) r
        | PErr => PErr
        | PFuel => PFuel
        end
      else if (n =? 116)%N then expect "true" (JBool true) (String c rest)
      else if (n =? 102)%N then expect "false" (JBool false) (String c rest)
      else if (n =? 110)%N then expect "null" JNull (String c rest)
      else
        match parse_number (String c rest) with
        | POk q r => POk (JNum q) r
        | PErr => PErr
        | PFuel => PFuel
        end
    end
  end

with parse_elements (fuel : nat) (s : string) (acc : list value) : presult value :=
  match fuel with
  | O => PFuel
  | S fuel =>
    match parse_value fuel s with
    | POk v r =>
      match skip_ws r with
      | String "," r' => parse_elements fuel r' (v :: acc)
      | String "]" r' => POk (JArr (rev (v :: acc))) r'
      | _ => PErr
      end
    | other => other
    end
  end

with parse_members (fuel : nat) (s : string) (acc : list (list N * value)) : presult value :=
  match fuel with
  | O => PFuel
  | S fuel =>
    match skip_ws s with
    | String q r0 =>
      if negb (N_of_ascii q =? 34)%N then PErr else
      match parse_chars r0 with
      | POk key r1 =>
        match skip_ws r1 with
        | String ":" r2 =>
          match parse_value fuel r2 with
          | POk v r3 =>
            match skip_ws r3 with
            | String "," r4 => parse_members fuel r4 ((key, v) :: acc)
            | String "}" r4 => POk (JObj (rev ((key, v) :: acc))) r4
            | _ => PErr
            end
          | other => other
          end
        | _ => PErr
        end
      | PErr => PErr
      | PFuel => PFuel
      end
    | EmptyString => PErr
    end
  end.

(** [JSON.parse(text)]: one value surrounded by white space.  The budget
    [2 * length text + 1] is never exhausted ([parse_never_out_of_fuel]
    below). *)
Definition JSON_parse (text : string) : outcome value :=
  match parse_value (2 * String.length text + 1) text with
  | POk v rest =>
    match skip_ws rest with
    | EmptyString => Returns v
    | _ => Throws SyntaxError
    end
  | PErr => Throws SyntaxError
  | PFuel => OutsideModel
  end.

End Json.

(** ** Leaderboard store *)

Module Leaderboard.
Import Json.

(** An entry as [saveScore] builds it: [{score, date, id}]. *)
Record Entry : Type := mkEntry {
  score : Z;
  date : string;
  id : Z
}.

(** [localStorage]: a map from keys to texts; [getItem] of a missing key
    is [null]. *)
Abbreviation Storage := (gmap string string).

Definition KEY : string := "flappyLeaderboard".

(** The clock read by [saveScore]: [new Date().toLocaleDateString('ru-RU')]
    and [Date.now()]. *)
Record Clock : Type := mkClock {
  today : string;
  now : Z
}.

(** *** [JSON.stringify] of an array of entries *)

Definition dquote : string := String (ascii_of_N 34) EmptyString.

Definition hex_digit (n : N) : ascii :=
  if (n <? 10)%N then ascii_of_N (48 + n) else ascii_of_N (87 + n).

Definition quote_char (c : ascii) : string :=
  let n := N_of_ascii c in
  if (n =? 34)%N then "\" +:+ dquote
  else if (n =? 92)%N then "\\"
  else if (n =? 8)%N then "\b"
  else if (n =? 12)%N then "\f"
  else if (n =? 10)%N then "\n"
  else if (n =? 13)%N then "\r"
  else if (n =? 9)%N then "\t"
  else if (n <? 32)%N then
    "\u00" +:+ String (hex_digit (n / 16)) (String (hex_digit (n mod 16)) EmptyString)
  else String c EmptyString.

Fixpoint quote_chars (s : string) : string :=
  match s with
  | EmptyString => EmptyString
  | String c rest => quote_char c +:+ quote_chars rest
  end.

Definition quote (s : string) : string := dquote +:+ quote_chars s +:+ dquote.

Definition number_text (z : Z) : string := NilZero.string_of_int (Z.to_int z).

Definition entry_text (e : Entry) : string :=
  "{" +:+ quote "score" +:+ ":" +:+ number_text (score e) +:+ ","
      +:+ quote "date" +:+ ":" +:+ quote (date e) +:+ ","
      +:+ quote "id" +:+ ":" +:+ number_text (id e) +:+ "}".

Fixpoint entries_text (l : list Entry) : string :=
  match l with
  | [] => EmptyString
  | [e] => entry_text e
  | e :: rest => entry_text e +:+ "," +:+ entries_text rest
  end.

Definition JSON_stringify (l : list Entry) : string :=
  "[" +:+ entries_text l +:+ "]".

(** *** Reading a parsed value as an array of entries *)

Fixpoint units_of_string (s : string) : list N :=
  match s with
  | EmptyString => []
  | String c rest => N_of_ascii c :: units_of_string rest
  end.

Fixpoint string_of_units (us : list N) : option string :=
  match us with
  | [] => Some EmptyString
  | u :: rest =>
    if (u <? 256)%N
    then match string_of_units rest with
         | Some s => Some (String (ascii_of_N u) s)
         | None => None
         end
    else None
  end.

Definition MAX_SAFE_INTEGER : Z := 9007199254740991.

(** The integers a double holds exactly. *)
Definition integer_of (q : Q) : option Z :=
  let r := Qred q in
  if ((Qden r =? 1)%positive && (Z.abs (Qnum r) <=? MAX_SAFE_INTEGER))%bool
  then Some (Qnum r) else None.

Definition units_eqb (us : list N) (s : string) : bool :=
  bool_decide (us = units_of_string s).

Definition entry_of_json (v : value) : option Entry :=
  match v with
  | JObj [(k1, JNum s); (k2, JStr d); (k3, JNum i)] =>
    if (units_eqb k1 "score" && units_eqb k2 "date" && units_eqb k3 "id")%bool
    then match integer_of s, string_of_units d, integer_of i with
         | Some s', Some d', Some i' => Some (mkEntry s' d' i')
         | _, _, _ => None
         end
    else None
  | _ => None
  end.

Fixpoint entries_of_json (items : list value) : option (list Entry) :=
  match items with
  | [] => Some []
  | v :: rest =>
    match entry_of_json v, entries_of_json rest with
    | Some e, Some l => Some (e :: l)
    | _, _ => None
    end
  end.

(** The elements [[...leaderboard]] iterates over.  [null], booleans,
    numbers and plain objects are not iterable; arrays of anything but
    entries (and non-empty strings, whose characters have no [score])
    make the comparator of [sort] yield NaN. *)
Definition spread (v : value) : outcome (list Entry) :=
  match v with
  | JArr items =>
    match entries_of_json items with
    | Some l => Returns l
    | None => OutsideModel
    end
  | JStr [] => Returns []
  | JStr (_ :: _) => OutsideModel
  | JNull | JBool _ | JNum _ | JObj _ => Throws TypeError
  end.

(** *** [Array.prototype.sort] and [slice] *)

Section Sort.
Context {A : Type} (comparefn : A -> A -> Z).

(** [e] goes before the first element it does not have to follow. *)
Fixpoint insert_sorted (e : A) (l : list A) : list A :=
  match l with
  | [] => [e]
  | h :: t => if comparefn e h <=? 0 then e :: h :: t else h :: insert_sorted e t
  end.

(** The stable sort ECMAScript prescribes, as an insertion sort. *)
Fixpoint Array_sort (l : list A) : list A :=
  match l with
  | [] => []
  | h :: t => insert_sorted h (Array_sort t)
  end.
End Sort.

(** [arr.slice(start, end)] for [0 <= start <= end]. *)
Definition slice {A : Type} (start stop : nat) (l : list A) : list A :=
  firstn (stop - start) (skipn start l).

(** [(a, b) => b.score - a.score] *)
Definition byScoreDesc (a b : Entry) : Z := score b - score a.

(** *** The two store functions *)

Definition getLeaderboard (st : Storage) : outcome value :=
  match st !! KEY with
  | Some (String c rest) => JSON_parse (String c rest)
  | Some EmptyString | None => Returns (JArr [])
  end.

Definition saveScore (sc : Z) (clk : Clock) (st : Storage)
  : outcome (list Entry * Storage) :=
  parsed ← getLeaderboard st;
  leaderboard ← spread parsed;
  let newEntry := {| score := sc; date := today clk; id := now clk |} in
  let updated := slice 0 10 (Array_sort byScoreDesc (leaderboard ++ [newEntry])) in
  mret (updated, <[KEY := JSON_stringify updated]> st).

(** *** Predicates of the specification *)

(** The store holds the leaderboard [lb]: what [getLeaderboard] returns
    is the array of the entries of [lb] (the empty one when nothing is
    stored). *)
Definition holds (st : Storage) (lb : list Entry) : Prop :=
  exists parsed, getLeaderboard st = Returns parsed /\ spread parsed = Returns lb.

(** [a] may stand before [b] in a list sorted by descending score. *)
Definition descending (a b : Entry) : Prop := score b <= score a.

(** *** Definitions used to state that stored leaderboards load back *)

(** Value of a digit sequence read from the left. *)
Fixpoint ufold (d : Decimal.uint) (acc : Z) : Z :=
  match d with
  | Decimal.Nil => acc
  | Decimal.D0 l => ufold l (acc * 10 + 0)
  | Decimal.D1 l => ufold l (acc * 10 + 1)
  | Decimal.D2 l => ufold l (acc * 10 + 2)
  | Decimal.D3 l => ufold l (acc * 10 + 3)
  | Decimal.D4 l => ufold l (acc * 10 + 4)
  | Decimal.D5 l => ufold l (acc * 10 + 5)
  | Decimal.D6 l => ufold l (acc * 10 + 6)
  | Decimal.D7 l => ufold l (acc * 10 + 7)
  | Decimal.D8 l => ufold l (acc * 10 + 8)
  | Decimal.D9 l => ufold l (acc * 10 + 9)
  end.

(** The characters that follow a number inside an entry. *)
Definition closes (c : ascii) : Prop := c = ","%char \/ c = "}"%char.

(** The value [JSON.parse] builds for the text of an entry. *)
Definition json_of_entry (e : Entry) : value :=
  JObj [(units_of_string "score", JNum (inject_Z (score e)));
        (units_of_string "date", JStr (units_of_string (date e)));
        (units_of_string "id", JNum (inject_Z (id e)))].

(** Entries whose numbers a double holds exactly. *)
Definition storable (e : Entry) : Prop :=
  Z.abs (score e) <= MAX_SAFE_INTEGER /\ Z.abs (id e) <= MAX_SAFE_INTEGER.

End Leaderboard.

(** ** Arithmetic on doubles

    JavaScript numbers are binary64 floating-point numbers.  The scores,
    counters, pipe abscissas and the bird's ordinate and velocity
    (multiples of one half) are computed exactly; the pipe generator
    multiplies the result of [Math.random()], where the product and the sum
    are rounded. *)

Module Double.

(** [2 ^ e] for any integer [e]. *)
Definition pow2 (e : Z) : Q :=
  if 0 <=? e then inject_Z (2 ^ e) else 1 # Z.to_pos (2 ^ (- e)).

(** [floor (log2 q)] for [q > 0]: the difference of the binary lengths of
    numerator and denominator, or one less. *)
Definition ilog2 (q : Q) : Z :=
  let k := Z.log2 (Qnum q) - Z.log2 (Z.pos (Qden q)) in
  if Qle_bool (pow2 k) q then k else k - 1.

(** The exponent of the gap between neighbouring doubles around [q]:
    52 binary places below the leading bit, and [-1074] for the
    subnormal numbers. *)
Definition ulpExp (q : Q) : Z := Z.max (ilog2 (Qabs q) - 52) (- 1074).

(** The nearest integer, the even one of the two when halfway. *)
Definition nearestEven (q : Q) : Z :=
  let f := Qfloor q in
  match (q - inject_Z f ?= 1 # 2)%Q with
  | Lt => f
  | Gt => f + 1
  | Eq => if Z.even f then f else f + 1
  end.

(** The double nearest to [q], ties to even (the rounding of every
    arithmetic operation of JavaScript).  Numbers beyond the largest
    double, which round to an infinity, are outside this model. *)
Definition round (q : Q) : Q :=
  if Qeq_bool q 0 then 0%Q
  else (inject_Z (nearestEven (q / pow2 (ulpExp q))) * pow2 (ulpExp q))%Q.

End Double.

(** ** The game *)

Module Game.

Definition Qltb (a b : Q) : bool := negb (Qle_bool b a).

Record Dimensions : Type := mkDimensions {
  width : Z;
  height : Z
}.

(** [getGameDimensions()], reading [window.innerWidth]. *)
Definition getGameDimensions (innerWidth : Z) : Dimensions :=
  if 1440 <=? innerWidth then {| width := 800; height := 900 |}
  else if 1024 <=? innerWidth then {| width := 600; height := 800 |}
  else {| width := 400; height := 600 |}.

Definition BIRD_SIZE : Q := 34.
Definition PIPE_WIDTH : Z := 60.
Definition PIPE_GAP : Z := 160.
Definition GRAVITY : Q := 1 # 2.
Definition JUMP_STRENGTH : Q := - (9).
Definition PIPE_SPEED : Z := 3.

Inductive GameState : Type := ready | playing | gameover.

Record Bird : Type := mkBird {
  y : Q;
  velocity : Q;
  rotation : Q
}.

Record Pipe : Type := mkPipe {
  x : Z;
  topHeight : Z;
  passed : bool
}.

(** The React state ([dimensions], [gameState], [score], [leaderboard])
    and the refs updated by the animation loop. *)
Record App : Type := mkApp {
  dimensions : Dimensions;
  gameState : GameState;
  score : Z;
  leaderboard : list Leaderboard.Entry;
  birdRef : Bird;
  pipesRef : list Pipe;
  frameCountRef : Z;
  scoreRef : Z
}.

Definition set_gameState (g : GameState) (a : App) : App :=
  mkApp (dimensions a) g (score a) (leaderboard a)
        (birdRef a) (pipesRef a) (frameCountRef a) (scoreRef a).

Definition set_birdRef (b : Bird) (a : App) : App :=
  mkApp (dimensions a) (gameState a) (score a) (leaderboard a)
        b (pipesRef a) (frameCountRef a) (scoreRef a).

Definition set_dimensions (d : Dimensions) (a : App) : App :=
  mkApp d (gameState a) (score a) (leaderboard a)
        (birdRef a) (pipesRef a) (frameCountRef a) (scoreRef a).

(** The component as first rendered. *)
Definition initial (innerWidth : Z) : App :=
  let d := getGameDimensions innerWidth in
  {| dimensions := d; gameState := ready; score := 0; leaderboard := [];
     birdRef := {| y := inject_Z (height d) / 2; velocity := 0; rotation := 0 |};
     pipesRef := []; frameCountRef := 0; scoreRef := 0 |}.

(** *** One frame *)

Definition Qmin (a b : Q) : Q := if Qle_bool a b then a else b.
Definition Qmax (a b : Q) : Q := if Qle_bool a b then b else a.

(** [velocity += GRAVITY; y += velocity; rotation = min(max(velocity * 3, -30), 90)] *)
Definition updateBird (b : Bird) : Bird :=
  let v := (velocity b + GRAVITY)%Q in
  {| y := (y b + v)%Q; velocity := v; rotation := Qmin (Qmax (v * 3) (- (30))) 90 |}.

(** [Math.floor(Math.random() * (maxHeight - minHeight) + minHeight)]:
    the product and the sum are rounded to doubles; [maxHeight] and the
    difference are integers, computed exactly.  [rnd] is the double
    [Math.random()] returned. *)
Definition randomTopHeight (d : Dimensions) (rnd : Q) : Z :=
  let minHeight := 50 in
  let maxHeight := height d - PIPE_GAP - minHeight - 100 in
  Qfloor (Double.round (Double.round (rnd * inject_Z (maxHeight - minHeight))
                        + inject_Z minHeight)).

Definition spawnPipe (d : Dimensions) (rnd : Q) (frame : Z) (pipes : list Pipe)
  : list Pipe :=
  if Z.rem frame 100 =? 0
  then pipes ++ [{| x := width d; topHeight := randomTopHeight d rnd; passed := false |}]
  else pipes.

(** The callback of [filter]: moves every pipe, credits the ones just
    passed ([scoreRef.current++; setScore(scoreRef.current)]) and keeps
    those still on screen.  The pair threaded along is
    ([scoreRef.current], [score]). *)
Fixpoint updatePipes (pipes : list Pipe) (sc : Z * Z) : list Pipe * (Z * Z) :=
  match pipes with
  | [] => ([], sc)
  | p :: rest =>
    let x' := x p - PIPE_SPEED in
    let credit := negb (passed p) && (x' + PIPE_WIDTH <? 100) in
    let p' := {| x := x'; topHeight := topHeight p;
                 passed := if credit then true else passed p |} in
    let sc' := if credit then (fst sc + 1, fst sc + 1) else sc in
    let '(kept, sc'') := updatePipes rest sc' in
    (if - PIPE_WIDTH <? x' then p' :: kept else kept, sc'')
  end.

Record Rect : Type := mkRect {
  left : Q;
  right : Q;
  top : Q;
  bottom : Q
}.

Definition birdRect (b : Bird) : Rect :=
  {| left := 100 - BIRD_SIZE / 2 + 4;
     right := 100 + BIRD_SIZE / 2 - 4;
     top := y b - BIRD_SIZE / 2 + 4;
     bottom := y b + BIRD_SIZE / 2 - 4 |}.

Definition topPipe (p : Pipe) : Rect :=
  {| left := inject_Z (x p); right := inject_Z (x p + PIPE_WIDTH);
     top := 0; bottom := inject_Z (topHeight p) |}.

Definition bottomPipe (d : Dimensions) (p : Pipe) : Rect :=
  {| left := inject_Z (x p); right := inject_Z (x p + PIPE_WIDTH);
     top := inject_Z (topHeight p + PIPE_GAP); bottom := inject_Z (height d) |}.

Definition overlaps (b r : Rect) : bool :=
  Qltb (left b) (right r) && Qltb (left r) (right b) &&
  Qltb (top b) (bottom r) && Qltb (top r) (bottom b).

(** [birdRef.current.y + BIRD_SIZE/2 >= dimensions.height - 20] *)
Definition groundCollision (d : Dimensions) (b : Bird) : bool :=
  Qle_bool (inject_Z (height d) - 20) (y b + BIRD_SIZE / 2).

Definition pipeCollision (d : Dimensions) (b : Bird) (pipes : list Pipe) : bool :=
  existsb (fun p => overlaps (birdRect b) (topPipe p)
                    || overlaps (birdRect b) (bottomPipe d p)) pipes.

(** The body of [if (gameState === 'playing')]. *)
Definition playingFrame (rnd : Q) (a : App) : App :=
  let d := dimensions a in
  let bird := updateBird (birdRef a) in
  let frame := frameCountRef a + 1 in
  let spawned := spawnPipe d rnd frame (pipesRef a) in
  let '(pipes, (sref, sc)) := updatePipes spawned (scoreRef a, score a) in
  {| dimensions := d;
     gameState := if groundCollision d bird || pipeCollision d bird pipes
                  then gameover else playing;
     score := sc;
     leaderboard := leaderboard a;
     birdRef := bird;
     pipesRef := pipes;
     frameCountRef := frame;
     scoreRef := sref |}.

(** [gameLoop]: the simulation part of a frame (drawing changes no state)
    and whether the next frame is requested.  [rnd] is what
    [Math.random()] returns if this frame calls it. *)
Definition gameLoop (rnd : Q) (a : App) : App * bool :=
  (match gameState a with
   | playing => playingFrame rnd a
   | ready | gameover => a
   end,
   match gameState a with
   | gameover => false
   | ready | playing => true
   end).

Definition tick (rnd : Q) (a : App) : App := fst (gameLoop rnd a).

(** *** Controls *)

Definition jump (a : App) : App :=
  match gameState a with
  | ready =>
    set_birdRef (mkBird (y (birdRef a)) JUMP_STRENGTH (rotation (birdRef a)))
                (set_gameState playing a)
  | playing =>
    set_birdRef (mkBird (y (birdRef a)) JUMP_STRENGTH (rotation (birdRef a))) a
  | gameover => a
  end.

Definition resetGame (clk : Leaderboard.Clock) (st : Leaderboard.Storage) (a : App)
  : outcome (Leaderboard.Storage * App) :=
  saved ← (if 0 <? score a
           then Leaderboard.saveScore (score a) clk st
           else mret (leaderboard a, st));
  mret (saved.2,
        {| dimensions := dimensions a;
           gameState := ready;
           score := 0;
           leaderboard := saved.1;
           birdRef := {| y := inject_Z (height (dimensions a)) / 2;
                         velocity := 0; rotation := 0 |};
           pipesRef := [];
           frameCountRef := 0;
           scoreRef := 0 |}).

(** [handleResize], on the window's resize event. *)
Definition handleResize (innerWidth : Z) (a : App) : App :=
  let newDims := getGameDimensions innerWidth in
  set_birdRef (mkBird (inject_Z (height newDims) / 2)
                      (velocity (birdRef a)) (rotation (birdRef a)))
              (set_dimensions newDims a).

(** The canvas effect that runs after [dimensions] or [gameState] changed. *)
Definition canvasEffect (a : App) : App :=
  match gameState a with
  | ready =>
    set_birdRef (mkBird (inject_Z (height (dimensions a)) / 2)
                        (velocity (birdRef a)) (rotation (birdRef a))) a
  | playing | gameover => a
  end.

(** A resize event followed by the effects of the render it causes. *)
Definition resize (innerWidth : Z) (a : App) : App :=
  canvasEffect (handleResize innerWidth a).

(** *** Runs *)

(** What happens to the component between two resets: animation frames,
    flaps (click, tap, space bar) and window resizes. *)
Inductive Event : Type :=
| Frame (rnd : Q)
| Flap
| Resize (innerWidth : Z).

Definition apply (e : Event) (a : App) : App :=
  match e with
  | Frame rnd => tick rnd a
  | Flap => jump a
  | Resize innerWidth => resize innerWidth a
  end.

Fixpoint run (events : list Event) (a : App) : App :=
  match events with
  | [] => a
  | e :: rest => run rest (apply e a)
  end.

(** [ticks rnds a]: one frame per element of [rnds], nothing in between. *)
Definition ticks (rnds : list Q) (a : App) : App := run (map Frame rnds) a.

Definition isFrame (e : Event) : bool :=
  match e with Frame _ => true | Flap | Resize _ => false end.

Definition frameCount (events : list Event) : Z :=
  Z.of_nat (length (filter (fun e => isFrame e = true) events)).

Definition isPlaying (a : App) : bool :=
  match gameState a with playing => true | ready | gameover => false end.

(** No collision so far: every frame of the run found the game playing. *)
Fixpoint everyFramePlayed (events : list Event) (a : App) : bool :=
  match events with
  | [] => true
  | e :: rest =>
    (if isFrame e then isPlaying a else true) && everyFramePlayed rest (apply e a)
  end.

(** A run that has just started: playing, no pipe yet, counters at zero. *)
Definition justStarted (a : App) : Prop :=
  gameState a = playing /\ pipesRef a = [] /\ frameCountRef a = 0 /\
  scoreRef a = 0 /\ score a = 0.

(** The scenario of a bird released at mid-height with no velocity. *)
Definition released (innerWidth : Z) : App :=
  set_gameState playing (initial innerWidth).

(** *** Predicates of the specification *)

(** [minGap <= gapTop <= height - gapSize - minGap - groundMargin] with
    the constants of the pipe generator. *)
Definition gapTopInRange (d : Dimensions) (p : Pipe) : Prop :=
  50 <= topHeight p <= height d - 160 - 50 - 100.

(** Events of a run played on the playfield [d]: [Math.random()] yields
    a number in the interval from 0 (included) to 1 (excluded), and a
    resize stays within the same breakpoint. *)
Definition eventAdmissible (d : Dimensions) (e : Event) : Prop :=
  match e with
  | Frame rnd => (0 <= rnd)%Q /\ (rnd < 1)%Q
  | Flap => True
  | Resize innerWidth => getGameDimensions innerWidth = d
  end.

(** [Math.random()] yields a number in the interval from 0 (included) to
    1 (excluded). *)
Definition randomInRange (e : Event) : Prop :=
  match e with
  | Frame rnd => (0 <= rnd)%Q /\ (rnd < 1)%Q
  | Flap | Resize _ => True
  end.

(** The closed form of the specification for a bird released at
    mid-height: [height/2 + 0.5 * n * (n + 1) / 2] after [n] frames. *)
Definition fallY (d : Dimensions) (n : Z) : Q :=
  (inject_Z (height d) / 2 + (1 # 2) * inject_Z n * inject_Z (n + 1) / 2)%Q.

(** *** The part of the state the pipes and the score live in

    Pipes move, are credited and leave the screen regardless of the bird
    and of the gap heights: this projection of the state evolves on its
    own while the game is playing. *)
Record Schedule : Type := mkSchedule {
  sWidth : Z;
  sFrame : Z;
  sPipes : list (Z * bool);
  sScoreRef : Z;
  sScore : Z
}.

Definition schedule (a : App) : Schedule :=
  {| sWidth := width (dimensions a);
     sFrame := frameCountRef a;
     sPipes := map (fun p => (x p, passed p)) (pipesRef a);
     sScoreRef := scoreRef a;
     sScore := score a |}.

Fixpoint advance (pipes : list (Z * bool)) (sc : Z * Z)
  : list (Z * bool) * (Z * Z) :=
  match pipes with
  | [] => ([], sc)
  | (px, ppassed) :: rest =>
    let x' := px - PIPE_SPEED in
    let credit := negb ppassed && (x' + PIPE_WIDTH <? 100) in
    let sc' := if credit then (fst sc + 1, fst sc + 1) else sc in
    let '(kept, sc'') := advance rest sc' in
    (if - PIPE_WIDTH <? x'
     then (x', if credit then true else ppassed) :: kept else kept, sc'')
  end.

Definition nextSchedule (s : Schedule) : Schedule :=
  let frame := sFrame s + 1 in
  let spawned := if Z.rem frame 100 =? 0
                 then sPipes s ++ [(sWidth s, false)] else sPipes s in
  let '(pipes, (sref, sc)) := advance spawned (sScoreRef s, sScore s) in
  {| sWidth := sWidth s; sFrame := frame; sPipes := pipes;
     sScoreRef := sref; sScore := sc |}.

(** A player who flaps every 35 frames, starting with the flap that
    launches the game: the bird then hovers between mid-height and 76.5
    pixels above it. *)
Fixpoint hoverRun (n : nat) : list Event :=
  match n with
  | O => []
  | S k => hoverRun k ++
           (if (k mod 35 =? 0)%nat then [Flap; Frame (1 # 2)] else [Frame (1 # 2)])
  end.

Definition frames (events : list Event) : nat :=
  length (filter (fun e => isFrame e = true) events).

(** What the schedule of a run just started on a playfield 400 wide must
    be after [n] frames, for [n < 320]: no pipe before frame 100; from
    frame 100 to frame 252 the first pipe at [400 - 3 * (n - 99)], marked
    passed from frame 220 on; the score 0 before frame 220 and 1 from
    then on. *)
Definition firstPipeCheck (n : nat) (s : Schedule) : bool :=
  let z := Z.of_nat n in
  (sFrame s =? z)
  && (if z <? 100 then match sPipes s with [] => true | _ :: _ => false end
      else if z <=? 252 then
        match sPipes s with
        | (px, ppassed) :: _ => (px =? 400 - 3 * (z - 99)) && eqb ppassed (220 <=? z)
        | [] => false
        end
      else true)
  && (if z <? 220 then (sScore s =? 0) && (sScoreRef s =? 0)
      else (sScore s =? 1) && (sScoreRef s =? 1)).

End Game.

(** ** Bookkeeping of a run *)

Module Play.
Import Game.

(** The frame is about to credit the pipe: not passed yet, and with its
    trailing edge left of the bird's abscissa once moved. *)
Definition creditDue (p : Pipe) : bool :=
  negb (passed p) && (x p - PIPE_SPEED + PIPE_WIDTH <? 100).

Definition count (f : Pipe -> bool) (pipes : list Pipe) : Z :=
  Z.of_nat (length (List.filter f pipes)).

(** Pipes on screen that the bird has not passed yet. *)
Definition unpassed (pipes : list Pipe) : Z := count (fun p => negb (passed p)) pipes.

Definition creditable (pipes : list Pipe) : Z := count creditDue pipes.

(** Every pipe spawned so far is unpassed on screen or credited. *)
Definition accounted (a : App) : Prop :=
  0 <= frameCountRef a /\
  scoreRef a + unpassed (pipesRef a) = frameCountRef a / 100.

(** A pipe is marked passed exactly when its trailing edge is left of the
    bird's abscissa, and is not wholly off screen. *)
Definition pipeConsistent (p : Pipe) : Prop :=
  passed p = (x p + PIPE_WIDTH <? 100) /\ - PIPE_WIDTH < x p.

(** The pipes keep their distance: a pipe with [k] younger pipes behind
    it has moved at least [100 * k + r] frames from an abscissa of at
    most 800. *)
Fixpoint spaced (r : Z) (pipes : list Pipe) : Prop :=
  match pipes with
  | [] => True
  | p :: rest =>
    x p <= 800 - 3 * (100 * Z.of_nat (length rest) + r) /\ spaced r rest
  end.

(** The bird's nominal lower edge is above the ground strip. *)
Definition aboveGround (a : App) : Prop :=
  (y (birdRef a) + 17 < inject_Z (height (dimensions a)) - 20)%Q.

(** A player who flaps before every frame. *)
Definition flapEveryFrame (rnds : list Q) : list Event :=
  flat_map (fun rnd => [Flap; Frame rnd]) rnds.

Definition isResize (e : Event) : bool :=
  match e with Resize _ => true | Frame _ | Flap => false end.

(** The bird never rises faster than a flap makes it, and its drawing is
    never turned up by more than 25.5 degrees. *)
Definition steady (b : Bird) : Prop :=
  (JUMP_STRENGTH <= velocity b)%Q /\
  (3 * (JUMP_STRENGTH + GRAVITY) <= rotation b)%Q /\ (rotation b <= 90)%Q.

End Play.

(** ** Series of saves *)

Module Board.
Import Leaderboard.

(** Where a stable descending sort puts a new entry in a sorted board:
    after every entry that scores at least as much. *)
Fixpoint placeAfterTies (e : Entry) (l : list Entry) : list Entry :=
  match l with
  | [] => [e]
  | h :: t =>
    if score e <=? score h then h :: placeAfterTies e t else e :: h :: t
  end.

(** The entry [saveScore] makes of a score and of the clock it reads. *)
Definition entryOf (save : Z * Clock) : Entry :=
  mkEntry save.1 (today save.2) (now save.2).

(** Saving one score after the other. *)
Fixpoint saveAll (saves : list (Z * Clock)) (st : Storage) : outcome Storage :=
  match saves with
  | [] => Returns st
  | (sc, clk) :: rest =>
    r ← saveScore sc clk st;
    saveAll rest r.2
  end.

End Board.

(** ** The component and its handlers *)

Module Session.
Import Json Leaderboard Game Play.

(** [currentView]. *)
Inductive View : Type := menu | game | rules | leaderboard.

(** The fields of a [keydown] event that the handler reads. *)
Record KeyboardEvent : Type := mkKeyboardEvent {
  code : string;
  key : string
}.

(** The component: the state, refs and store of [Game.App], the view, the
    high score of the header, and [localStorage]. *)
Record State : Type := mkState {
  currentView : View;
  highScore : Z;
  app : App;
  storage : Storage
}.

Definition set_currentView (v : View) (s : State) : State :=
  mkState v (highScore s) (app s) (storage s).

Definition set_app (a : App) (s : State) : State :=
  mkState (currentView s) (highScore s) a (storage s).

Definition set_score (n : Z) (a : App) : App :=
  mkApp (dimensions a) (gameState a) n (Game.leaderboard a)
        (birdRef a) (pipesRef a) (frameCountRef a) (scoreRef a).

Definition set_leaderboard (l : list Entry) (a : App) : App :=
  mkApp (dimensions a) (gameState a) (score a) l
        (birdRef a) (pipesRef a) (frameCountRef a) (scoreRef a).

(** [lb.length > 0 ? lb[0].score : 0], the initial high score.  [null]
    has no [length]; the empty string has length 0.  Other values than
    arrays that start with an entry are outside the model. *)
Definition topScore (lb : value) : outcome Z :=
  match lb with
  | JArr [] | JStr [] => Returns 0
  | JArr (first :: _) =>
    match entry_of_json first with
    | Some e => Returns (Leaderboard.score e)
    | None => OutsideModel
    end
  | JNull => Throws TypeError
  | JStr (_ :: _) | JBool _ | JNum _ | JObj _ => OutsideModel
  end.

(** The value [setLeaderboard] is given, as the list the views show.  The
    empty string shows as the empty list: the views read its [length]
    only. *)
Definition shown (lb : value) : outcome (list Entry) :=
  match lb with
  | JArr items =>
    match entries_of_json items with
    | Some l => Returns l
    | None => OutsideModel
    end
  | JStr [] => Returns []
  | JStr (_ :: _) | JNull | JBool _ | JNum _ | JObj _ => OutsideModel
  end.

(** The first render and its effects: the initialiser of [highScore] and
    the effect that loads the leaderboard both read the store. *)
Definition mount (innerWidth : Z) (st : Storage) : outcome State :=
  lb ← getLeaderboard st;
  high ← topScore lb;
  loaded ← getLeaderboard st;
  l ← shown loaded;
  mret (mkState menu high (set_leaderboard l (initial innerWidth)) st).

(** The close button of the game view, and the Escape key:
    [setCurrentView('menu'); setGameState('ready'); setScore(0)].  The
    refs are left as they are.  [canvas] tells whether the canvas effect
    runs, with the canvas still mounted, after the state change. *)
Definition leaveGame (canvas : bool) (s : State) : State :=
  let a := set_score 0 (set_gameState ready (app s)) in
  mkState menu (highScore s) (if canvas then canvasEffect a else a) (storage s).

(** The button of the game-over overlay. *)
Definition playAgain (clk : Clock) (s : State) : outcome State :=
  r ← resetGame clk (storage s) (app s);
  mret (mkState (currentView s) (highScore s) r.2 r.1).

(** [handleKeyDown].  The handler registered is the one of the render in
    which [currentView] or [gameState] last changed; a [resetGame] it holds
    from before a resize centres the bird for the old height, and the canvas
    effect that follows the reset centres it for the current one, which is
    what [playAgain] computes. *)
Definition handleKeyDown (clk : Clock) (canvas : bool) (e : KeyboardEvent)
           (s : State) : outcome State :=
  match currentView s with
  | game =>
    s1 ← (if (String.eqb (code e) "Space" || String.eqb (code e) "ArrowUp"
              || String.eqb (key e) " ")%bool
          then match gameState (app s) with
               | gameover => playAgain clk s
               | ready | playing => mret (set_app (jump (app s)) s)
               end
          else mret s);
    if String.eqb (code e) "Escape"
    then mret (leaveGame canvas s1)
    else mret s1
  | menu | rules | leaderboard => mret s
  end.

(** The leaderboard button of the menu. *)
Definition openLeaderboard (s : State) : outcome State :=
  loaded ← getLeaderboard (storage s);
  l ← shown loaded;
  mret (mkState leaderboard (highScore s) (set_leaderboard l (app s)) (storage s)).

(** The clear button of the leaderboard view. *)
Definition clearLeaderboard (s : State) : State :=
  mkState (currentView s) (highScore s) (set_leaderboard [] (app s))
          (delete KEY (storage s)).

(** What the user, the window and the browser's frame clock do to the
    component.  A click stands for the call of the handler of its control,
    whether or not the control is on screen. *)
Inductive Action : Type :=
| AnimationFrame (rnd : Q)
| WindowResize (innerWidth : Z)
| KeyDown (clk : Clock) (canvas : bool) (e : KeyboardEvent)
| ClickCanvas
| ClickPlayAgain (clk : Clock)
| ClickClose (canvas : bool)
| ClickPlay
| ClickRules
| ClickLeaderboard
| ClickBack
| ClickClear.

Definition step (act : Action) (s : State) : outcome State :=
  match act with
  | AnimationFrame rnd =>
    match currentView s with
    | game => mret (set_app (tick rnd (app s)) s)
    | menu | rules | leaderboard => mret s
    end
  | WindowResize innerWidth => mret (set_app (resize innerWidth (app s)) s)
  | KeyDown clk canvas e => handleKeyDown clk canvas e s
  | ClickCanvas => mret (set_app (jump (app s)) s)
  | ClickPlayAgain clk => playAgain clk s
  | ClickClose canvas => mret (leaveGame canvas s)
  | ClickPlay => mret (set_currentView game s)
  | ClickRules => mret (set_currentView rules s)
  | ClickLeaderboard => openLeaderboard s
  | ClickBack => mret (set_currentView menu s)
  | ClickClear => mret (clearLeaderboard s)
  end.

Fixpoint session (acts : list Action) (s : State) : outcome State :=
  match acts with
  | [] => mret s
  | act :: rest => s1 ← step act s; session rest s1
  end.

(** The events of a run of the game, as actions of the session. *)
Definition actionOf (e : Event) : Action :=
  match e with
  | Frame rnd => AnimationFrame rnd
  | Flap => ClickCanvas
  | Resize innerWidth => WindowResize innerWidth
  end.

(** The clock an action reads, if it reads one. *)
Definition clockOf (act : Action) : option Clock :=
  match act with
  | KeyDown clk _ _ | ClickPlayAgain clk => Some clk
  | _ => None
  end.

(** The store as the program leaves it: a leaderboard of at most ten
    entries in descending order of score. *)
Definition wellKept (st : Storage) : Prop :=
  exists lb, holds st lb /\ StronglySorted descending lb /\ (length lb <= 10)%nat.

(** What a session keeps true of the game: the counters are [accounted],
    the score on screen lies between 0 and the score counter, and no more
    frames were counted than [n]. *)
Definition bounded (n : Z) (a : App) : Prop :=
  accounted a /\ 0 <= score a <= scoreRef a /\ frameCountRef a <= n.

(** [s'] carries on from [s]: the store is well kept and differs from the
    one of [s] under the leaderboard's key only, the game is [bounded] by
    [n], and the high score of the header is the one of [s]. *)
Definition carriesOn (n : Z) (s s' : State) : Prop :=
  wellKept (storage s') /\
  bounded n (app s') /\
  highScore s' = highScore s /\
  forall k, k <> KEY -> storage s' !! k = storage s !! k.

(** The clocks the actions read show times a double holds exactly. *)
Definition clocksOk (acts : list Action) : Prop :=
  Forall (fun act => forall clk, clockOf act = Some clk ->
                       Z.abs (now clk) <= MAX_SAFE_INTEGER) acts.

End Session.

(** ** The game on the fixed playfield

    [src/App.jsx] is the same component on a playfield of 400 by 600
    that no resize changes: [GAME_WIDTH] and [GAME_HEIGHT] stand where the
    responsive component reads [dimensions], and there is neither a resize
    handler nor a keyboard handler.  The bird, the pipes, their update and
    the rectangles are those of [Game]. *)

Module Fixed.
Import Leaderboard Game.

Definition GAME_WIDTH : Z := 400.
Definition GAME_HEIGHT : Z := 600.

Record App : Type := mkApp {
  gameState : GameState;
  score : Z;
  leaderboard : list Entry;
  birdRef : Bird;
  pipesRef : list Pipe;
  frameCountRef : Z;
  scoreRef : Z
}.

(** The component as first rendered. *)
Definition initial : App :=
  {| gameState := ready; score := 0; leaderboard := [];
     birdRef := {| y := inject_Z GAME_HEIGHT / 2; velocity := 0; rotation := 0 |};
     pipesRef := []; frameCountRef := 0; scoreRef := 0 |}.

Definition randomTopHeight (rnd : Q) : Z :=
  let minHeight := 50 in
  let maxHeight := GAME_HEIGHT - PIPE_GAP - minHeight - 100 in
  Qfloor (Double.round (Double.round (rnd * inject_Z (maxHeight - minHeight))
                        + inject_Z minHeight)).

Definition spawnPipe (rnd : Q) (frame : Z) (pipes : list Pipe) : list Pipe :=
  if Z.rem frame 100 =? 0
  then pipes ++ [{| x := GAME_WIDTH; topHeight := randomTopHeight rnd; passed := false |}]
  else pipes.

Definition bottomPipe (p : Pipe) : Rect :=
  {| left := inject_Z (x p); right := inject_Z (x p + PIPE_WIDTH);
     top := inject_Z (topHeight p + PIPE_GAP); bottom := inject_Z GAME_HEIGHT |}.

(** [birdRef.current.y + BIRD_SIZE/2 >= GAME_HEIGHT - 20] *)
Definition groundCollision (b : Bird) : bool :=
  Qle_bool (inject_Z GAME_HEIGHT - 20) (y b + BIRD_SIZE / 2).

Definition pipeCollision (b : Bird) (pipes : list Pipe) : bool :=
  existsb (fun p => overlaps (birdRect b) (topPipe p)
                    || overlaps (birdRect b) (bottomPipe p)) pipes.

(** The body of [if (gameState === 'playing')]. *)
Definition playingFrame (rnd : Q) (a : App) : App :=
  let bird := updateBird (birdRef a) in
  let frame := frameCountRef a + 1 in
  let spawned := spawnPipe rnd frame (pipesRef a) in
  let '(pipes, (sref, sc)) := updatePipes spawned (scoreRef a, score a) in
  {| gameState := if groundCollision bird || pipeCollision bird pipes
                  then gameover else playing;
     score := sc;
     leaderboard := leaderboard a;
     birdRef := bird;
     pipesRef := pipes;
     frameCountRef := frame;
     scoreRef := sref |}.

Definition gameLoop (rnd : Q) (a : App) : App * bool :=
  (match gameState a with
   | playing => playingFrame rnd a
   | ready | gameover => a
   end,
   match gameState a with
   | gameover => false
   | ready | playing => true
   end).

Definition tick (rnd : Q) (a : App) : App := fst (gameLoop rnd a).

Definition jump (a : App) : App :=
  let flapped := mkBird (y (birdRef a)) JUMP_STRENGTH (rotation (birdRef a)) in
  match gameState a with
  | ready =>
    mkApp playing (score a) (leaderboard a) flapped
          (pipesRef a) (frameCountRef a) (scoreRef a)
  | playing =>
    mkApp playing (score a) (leaderboard a) flapped
          (pipesRef a) (frameCountRef a) (scoreRef a)
  | gameover => a
  end.

Definition resetGame (clk : Clock) (st : Storage) (a : App)
  : outcome (Storage * App) :=
  saved ← (if 0 <? score a
           then saveScore (score a) clk st
           else mret (leaderboard a, st));
  mret (saved.2,
        {| gameState := ready;
           score := 0;
           leaderboard := saved.1;
           birdRef := {| y := inject_Z GAME_HEIGHT / 2; velocity := 0; rotation := 0 |};
           pipesRef := [];
           frameCountRef := 0;
           scoreRef := 0 |}).

(** Animation frames and flaps (click or tap on the canvas). *)
Inductive Event : Type :=
| Frame (rnd : Q)
| Flap.

Definition apply (e : Event) (a : App) : App :=
  match e with
  | Frame rnd => tick rnd a
  | Flap => jump a
  end.

Fixpoint run (events : list Event) (a : App) : App :=
  match events with
  | [] => a
  | e :: rest => run rest (apply e a)
  end.

(** The state of the responsive component without its dimensions, and the
    events of the fixed one as events of the responsive one. *)
Definition ofResponsive (a : Game.App) : App :=
  mkApp (Game.gameState a) (Game.score a) (Game.leaderboard a) (Game.birdRef a)
        (Game.pipesRef a) (Game.frameCountRef a) (Game.scoreRef a).

Definition toResponsive (e : Event) : Game.Event :=
  match e with
  | Frame rnd => Game.Frame rnd
  | Flap => Game.Flap
  end.

End Fixed.

(** * Properties *)

Import Json Leaderboard Game.

(** ** Rational arithmetic helpers *)

Lemma Qltb_lt (a b : Q) : Qltb a b = true <-> (a < b)%Q.
Proof.
  unfold Qltb. rewrite negb_true_iff.
  split.
  - intros H. apply Qnot_le_lt. intros Hle.
    apply Qle_bool_iff in Hle. congruence.
  - intros H. destruct (Qle_bool b a) eqn:E; [|reflexivity].
    apply Qle_bool_iff in E. exfalso. exact (Qlt_not_le _ _ H E).
Qed.

Lemma groundCollision_spec (d : Dimensions) (b : Bird) :
  groundCollision d b = true <-> (inject_Z (height d) - 20 <= y b + 17)%Q.
Proof.
  unfold groundCollision. rewrite Qle_bool_iff.
  assert (E : (BIRD_SIZE / 2 == 17)%Q) by reflexivity.
  rewrite E. reflexivity.
Qed.

(** ** Frames outside [playing], flaps, resizes *)

(** C3.  Once the game is over, a frame changes nothing (bird, pipes,
    score and every other part of the state are those of before) and does
    not request the next frame; so does any number of frames.  Frames are
    inert before the first flap as well. *)
Theorem gameover_is_frozen (a : App) (rnds : list Q) :
  gameState a = gameover ->
  (forall rnd, gameLoop rnd a = (a, false)) /\
  ticks rnds a = a /\
  birdRef (ticks rnds a) = birdRef a /\
  pipesRef (ticks rnds a) = pipesRef a /\
  score (ticks rnds a) = score a /\
  scoreRef (ticks rnds a) = scoreRef a /\
  (forall b, gameState b = ready -> ticks rnds b = b).
Proof.
  intros Hover.
  assert (Hinert : forall b, gameState b <> playing -> ticks rnds b = b).
  { intros b Hb. unfold ticks.
    induction rnds as [|r rnds IH]; simpl; [reflexivity|].
    unfold tick, gameLoop. simpl.
    destruct (gameState b) eqn:Eb; try exact IH. congruence. }
  assert (Hloop : forall rnd, gameLoop rnd a = (a, false)).
  { intros rnd. unfold gameLoop. rewrite Hover. reflexivity. }
  assert (Hticks : ticks rnds a = a) by (apply Hinert; congruence).
  rewrite Hticks. repeat split; auto.
  intros b Hb. apply Hinert. congruence.
Qed.

Lemma gameover_is_frozen_witness :
  let a := set_gameState gameover (initial 1280) in
  ticks [1 # 2; 1 # 3] a = a.
Proof.
  intros a.
  exact (proj1 (proj2 (gameover_is_frozen a [1 # 2; 1 # 3] eq_refl))).
Defined.

(** C7.  While playing, a flap sets the velocity to [JUMP_STRENGTH] whatever
    it was (nothing is added), leaves the rest of the state alone, and any
    number of further flaps changes nothing more. *)
Theorem flap_sets_velocity (a : App) (n : nat) :
  gameState a = playing ->
  velocity (birdRef (jump a)) = JUMP_STRENGTH /\
  jump a = set_birdRef (mkBird (y (birdRef a)) JUMP_STRENGTH (rotation (birdRef a))) a /\
  Nat.iter (S n) jump a = jump a.
Proof.
  intros Hplay.
  assert (Hj : jump a =
               set_birdRef (mkBird (y (birdRef a)) JUMP_STRENGTH (rotation (birdRef a))) a).
  { unfold jump. rewrite Hplay. reflexivity. }
  split; [rewrite Hj; reflexivity|].
  split; [exact Hj|].
  induction n as [|n IH]; [reflexivity|].
  change (Nat.iter (S (S n)) jump a) with (jump (Nat.iter (S n) jump a)).
  rewrite IH. rewrite Hj at 2.
  unfold jump at 1. rewrite Hj. simpl. rewrite Hplay. reflexivity.
Qed.

Lemma flap_sets_velocity_witness :
  let a := tick (1 # 2) (jump (initial 800)) in
  velocity (birdRef a) = (- (9) + (1 # 2))%Q /\
  velocity (birdRef (jump a)) = (- (9))%Q /\
  Nat.iter 3 jump a = jump a.
Proof.
  intros a. split; [reflexivity|].
  pose proof (flap_sets_velocity a 2 eq_refl) as [Hv [_ Hi]].
  split; [exact Hv | exact Hi].
Defined.

(** C10.  A resize puts the bird at half the new height in every mode,
    also in the middle of a run, and touches neither the velocity, the
    score, the pipes nor the frame counter; the effect that follows the
    re-render does not move it elsewhere. *)
Theorem resize_recentres_bird (innerWidth : Z) (a : App) :
  let a' := handleResize innerWidth a in
  let newDims := getGameDimensions innerWidth in
  y (birdRef a') = (inject_Z (height newDims) / 2)%Q /\
  dimensions a' = newDims /\
  velocity (birdRef a') = velocity (birdRef a) /\
  gameState a' = gameState a /\
  score a' = score a /\
  scoreRef a' = scoreRef a /\
  pipesRef a' = pipesRef a /\
  frameCountRef a' = frameCountRef a /\
  resize innerWidth a = a'.
Proof.
  simpl. repeat split.
  unfold resize, canvasEffect. simpl.
  destruct (gameState a); reflexivity.
Qed.

(** ** Rounding to doubles *)

Lemma pow2_pos (e : Z) : (0 < Double.pow2 e)%Q.
Proof.
  unfold Double.pow2. destruct (0 <=? e) eqn:E; [|reflexivity].
  apply Z.leb_le in E. change 0%Q with (inject_Z 0). rewrite <- Zlt_Qlt.
  apply Z.pow_pos_nonneg; lia.
Qed.

Lemma pow2_nonpos (e : Z) : e <= 0 -> (Double.pow2 e * inject_Z (2 ^ (- e)) == 1)%Q.
Proof.
  intros He. unfold Double.pow2. destruct (0 <=? e) eqn:E.
  - apply Z.leb_le in E. replace e with 0 by lia. reflexivity.
  - assert (Hp : 0 < 2 ^ (- e)) by (apply Z.pow_pos_nonneg; lia).
    unfold Qeq, Qmult, inject_Z. cbn [Qnum Qden].
    rewrite Pos.mul_1_r, Z2Pos.id by exact Hp. lia.
Qed.

Lemma nearestEven_le (q : Q) (n : Z) : (q <= inject_Z n)%Q -> Double.nearestEven q <= n.
Proof.
  intros Hq. unfold Double.nearestEven.
  pose proof (Qfloor_le q) as Hf.
  assert (Hfn : Qfloor q <= n).
  { rewrite Zle_Qle. eapply Qle_trans; eassumption. }
  assert (Hup : (1 # 2 <= q - inject_Z (Qfloor q))%Q -> Qfloor q + 1 <= n).
  { intros Hr. assert (Hlt : (inject_Z (Qfloor q) < inject_Z n)%Q) by lra.
    rewrite <- Zlt_Qlt in Hlt. lia. }
  destruct (q - inject_Z (Qfloor q) ?= 1 # 2)%Q eqn:E.
  - apply Qeq_alt in E. destruct (Z.even (Qfloor q)); [exact Hfn|].
    apply Hup. rewrite E. apply Qle_refl.
  - exact Hfn.
  - apply Qgt_alt in E. apply Hup. apply Qlt_le_weak, E.
Qed.

Lemma nearestEven_ge (q : Q) (n : Z) : (inject_Z n <= q)%Q -> n <= Double.nearestEven q.
Proof.
  intros Hq. unfold Double.nearestEven.
  pose proof (Qlt_floor q) as Hf.
  assert (Hfn : n <= Qfloor q).
  { assert (Hlt : (inject_Z n < inject_Z (Qfloor q + 1))%Q)
      by (eapply Qle_lt_trans; eassumption).
    rewrite <- Zlt_Qlt in Hlt. lia. }
  destruct (q - inject_Z (Qfloor q) ?= 1 # 2)%Q;
    [destruct (Z.even (Qfloor q))|..]; lia.
Qed.

Lemma ilog2_small (q : Q) :
  (0 < q)%Q -> (q < inject_Z (2 ^ 53))%Q -> Double.ilog2 q <= 52.
Proof.
  intros Hpos Hlt. unfold Double.ilog2.
  set (k := Z.log2 (Qnum q) - Z.log2 (Z.pos (Qden q))).
  destruct (Qle_bool (Double.pow2 k) q) eqn:E.
  - apply Qle_bool_iff in E.
    destruct (Z_le_gt_dec k 52) as [Hk|Hk]; [exact Hk|exfalso].
    assert (Hbig : (inject_Z (2 ^ 53) <= Double.pow2 k)%Q).
    { unfold Double.pow2. replace (0 <=? k) with true by (symmetry; apply Z.leb_le; lia).
      rewrite <- Zle_Qle. apply Z.pow_le_mono_r; lia. }
    lra.
  - assert (Hn : 0 < Qnum q).
    { unfold Qlt in Hpos. simpl in Hpos. lia. }
    destruct (Z.log2_spec (Qnum q) Hn) as [Hlo _].
    destruct (Z.log2_spec (Z.pos (Qden q)) ltac:(lia)) as [_ Hhi].
    unfold Qlt in Hlt. simpl in Hlt.
    assert (Hb : 0 <= Z.log2 (Z.pos (Qden q))) by apply Z.log2_nonneg.
    assert (Ha : 0 <= Z.log2 (Qnum q)) by apply Z.log2_nonneg.
    assert (Hpow : 2 ^ Z.log2 (Qnum q) < 2 ^ (54 + Z.log2 (Z.pos (Qden q)))).
    { replace (54 + Z.log2 (Z.pos (Qden q)))
        with (53 + Z.succ (Z.log2 (Z.pos (Qden q)))) by lia.
      rewrite Z.pow_add_r by lia.
      assert (0 < 2 ^ 53) by (apply Z.pow_pos_nonneg; lia).
      nia. }
    apply Z.pow_lt_mono_r_iff in Hpow; lia.
Qed.

Lemma ulpExp_small (q : Q) :
  (- inject_Z (2 ^ 53) < q)%Q -> (q < inject_Z (2 ^ 53))%Q -> ~ (q == 0)%Q ->
  Double.ulpExp q <= 0.
Proof.
  intros Hlo Hhi Hne. unfold Double.ulpExp.
  assert (Double.ilog2 (Qabs q) <= 52); [|lia].
  apply ilog2_small.
  - pose proof (Qabs_nonneg q) as Habs.
    apply Qle_lteq in Habs as [Habs|Habs]; [exact Habs|].
    exfalso. apply Hne. revert Habs. apply Qabs_case; intros; lra.
  - apply Qabs_case; intros; lra.
Qed.

(** Rounding does not cross an integer, for numbers below [2 ^ 53] in
    magnitude, around which every integer is a double. *)
Lemma round_integer (q : Q) (n : Z) :
  (- inject_Z (2 ^ 53) < q)%Q -> (q < inject_Z (2 ^ 53))%Q ->
  ((q <= inject_Z n)%Q -> (Double.round q <= inject_Z n)%Q) /\
  ((inject_Z n <= q)%Q -> (inject_Z n <= Double.round q)%Q).
Proof.
  intros Hlo Hhi. unfold Double.round.
  destruct (Qeq_bool q 0) eqn:E0.
  { apply Qeq_bool_iff in E0. rewrite E0. split; intros H; exact H. }
  assert (Hne : ~ (q == 0)%Q) by (intros H; apply Qeq_bool_iff in H; congruence).
  pose proof (ulpExp_small q Hlo Hhi Hne) as He.
  set (e := Double.ulpExp q) in *.
  pose proof (pow2_pos e) as Hp. pose proof (pow2_nonpos e He) as Hone.
  set (u := Double.pow2 e) in *. set (s := 2 ^ (- e)) in *.
  assert (Hs : (0 < inject_Z s)%Q).
  { change 0%Q with (inject_Z 0). rewrite <- Zlt_Qlt. apply Z.pow_pos_nonneg; lia. }
  assert (Hdiv : (q / u == q * inject_Z s)%Q).
  { assert (Hinv : (/ u == inject_Z s)%Q).
    { transitivity (/ u * (u * inject_Z s))%Q; [rewrite Hone; ring|field; lra]. }
    unfold Qdiv. rewrite Hinv. reflexivity. }
  assert (Hn : (inject_Z n == inject_Z (n * s) * u)%Q).
  { rewrite inject_Z_mult.
    transitivity (inject_Z n * (u * inject_Z s))%Q; [rewrite Hone; ring|ring]. }
  split; intros Hq.
  - assert (Hm : Double.nearestEven (q / u) <= n * s).
    { apply nearestEven_le. rewrite Hdiv, inject_Z_mult.
      apply Qmult_le_compat_r; [exact Hq|lra]. }
    rewrite Hn. apply Qmult_le_compat_r; [|lra].
    rewrite <- Zle_Qle. exact Hm.
  - assert (Hm : n * s <= Double.nearestEven (q / u)).
    { apply nearestEven_ge. rewrite Hdiv, inject_Z_mult.
      apply Qmult_le_compat_r; [exact Hq|lra]. }
    rewrite Hn. apply Qmult_le_compat_r; [|lra].
    rewrite <- Zle_Qle. exact Hm.
Qed.

(** ** The pipe generator *)

Lemma randomTopHeight_range (d : Dimensions) (rnd : Q) :
  360 <= height d < 2 ^ 53 -> (0 <= rnd)%Q -> (rnd <= 1)%Q ->
  50 <= randomTopHeight d rnd <= height d - 160 - 50 - 100.
Proof.
  intros Hh H0 H1. unfold randomTopHeight, PIPE_GAP.
  replace (height d - 160 - 50 - 100 - 50) with (height d - 360) by lia.
  set (k := height d - 360).
  assert (Hk : (0 <= inject_Z k)%Q /\ (inject_Z k + 50 < inject_Z (2 ^ 53))%Q).
  { change 0%Q with (inject_Z 0). change 50%Q with (inject_Z 50).
    rewrite <- inject_Z_plus, <- Zle_Qle, <- Zlt_Qlt. subst k. lia. }
  assert (Hx : (0 <= rnd * inject_Z k)%Q /\ (rnd * inject_Z k <= inject_Z k)%Q).
  { split; [apply Qmult_le_0_compat; tauto|].
    rewrite <- (Qmult_1_l (inject_Z k)) at 2.
    apply Qmult_le_compat_r; tauto. }
  assert (Hbig : (0 < inject_Z (2 ^ 53))%Q) by reflexivity.
  set (x := (rnd * inject_Z k)%Q) in *.
  assert (Hr : (0 <= Double.round x)%Q /\ (Double.round x <= inject_Z k)%Q).
  { destruct (round_integer x 0) as [_ Hlo]; [lra|lra|].
    destruct (round_integer x k) as [Hhi _]; [lra|lra|].
    split; [apply Hlo|apply Hhi]; tauto. }
  set (y := (Double.round x + inject_Z 50)%Q).
  assert (Hy : (inject_Z 50 <= Double.round y)%Q /\
               (Double.round y <= inject_Z (k + 50))%Q).
  { assert (H50 : (inject_Z 50 == 50)%Q) by reflexivity.
    destruct (round_integer y 50) as [_ Hlo]; [subst y; lra|subst y; lra|].
    destruct (round_integer y (k + 50)) as [Hhi _]; [subst y; lra|subst y; lra|].
    split; [apply Hlo|apply Hhi; rewrite inject_Z_plus]; subst y; lra. }
  split.
  - rewrite <- (Qfloor_Z 50) at 1. apply Qfloor_resp_le, Hy.
  - replace (height d - 160 - 50 - 100) with (k + 50) by (subst k; lia).
    rewrite <- (Qfloor_Z (k + 50)). apply Qfloor_resp_le, Hy.
Qed.

Lemma getGameDimensions_height (innerWidth : Z) :
  let h := height (getGameDimensions innerWidth) in
  h = 600 \/ h = 800 \/ h = 900.
Proof.
  unfold getGameDimensions.
  destruct (1440 <=? innerWidth); [auto|].
  destruct (1024 <=? innerWidth); auto.
Qed.

Lemma updatePipes_topHeights (pipes : list Pipe) (sc : Z * Z) :
  sublist (map topHeight (updatePipes pipes sc).1) (map topHeight pipes).
Proof.
  revert sc. induction pipes as [|p pipes IH]; intros sc; simpl.
  - constructor.
  - specialize (IH (if negb (passed p) && (x p - PIPE_SPEED + PIPE_WIDTH <? 100)
                    then (sc.1 + 1, sc.1 + 1) else sc)).
    destruct (updatePipes pipes _) as [kept sc''].
    destruct (- PIPE_WIDTH <? x p - PIPE_SPEED); simpl.
    + apply sublist_skip. exact IH.
    + apply sublist_cons. exact IH.
Qed.

Lemma playingFrame_pipes (rnd : Q) (a : App) :
  pipesRef (playingFrame rnd a) =
  (updatePipes (spawnPipe (dimensions a) rnd (frameCountRef a + 1) (pipesRef a))
               (scoreRef a, score a)).1.
Proof.
  unfold playingFrame.
  destruct (updatePipes _ _) as [pipes [sref sc]]. reflexivity.
Qed.

Lemma playingFrame_dimensions (rnd : Q) (a : App) :
  dimensions (playingFrame rnd a) = dimensions a.
Proof.
  unfold playingFrame.
  destruct (updatePipes _ _) as [pipes [sref sc]]. reflexivity.
Qed.

(** The gap heights after an event are among those of before, in the same
    order, with at most the one drawn in this frame added at the end. *)
Lemma apply_topHeights (e : Event) (a : App) :
  sublist (map topHeight (pipesRef (apply e a)))
          (map topHeight (pipesRef a) ++
           match e with
           | Frame rnd => [randomTopHeight (dimensions a) rnd]
           | Flap | Resize _ => []
           end).
Proof.
  destruct e as [rnd| |w]; simpl.
  - unfold tick, gameLoop; simpl.
    destruct (gameState a); try (apply sublist_inserts_r; reflexivity).
    rewrite playingFrame_pipes.
    etransitivity; [apply updatePipes_topHeights|].
    unfold spawnPipe.
    destruct (Z.rem (frameCountRef a + 1) 100 =? 0).
    + rewrite map_app. reflexivity.
    + apply sublist_inserts_r. reflexivity.
  - rewrite app_nil_r. unfold jump. destruct (gameState a); reflexivity.
  - rewrite app_nil_r. unfold resize, canvasEffect, handleResize; simpl.
    destruct (gameState a); reflexivity.
Qed.

Lemma apply_dimensions (d : Dimensions) (e : Event) (a : App) :
  eventAdmissible d e -> dimensions a = d -> dimensions (apply e a) = d.
Proof.
  intros He Hd. destruct e as [rnd| |w]; simpl in *.
  - unfold tick, gameLoop; simpl.
    destruct (gameState a); try assumption.
    rewrite playingFrame_dimensions. assumption.
  - unfold jump. destruct (gameState a); assumption.
  - unfold resize, canvasEffect, handleResize; simpl.
    destruct (gameState a); assumption.
Qed.

Lemma gapTopInRange_sublist (d : Dimensions) (ps qs : list Pipe) (extra : list Z) :
  sublist (map topHeight ps) (map topHeight qs ++ extra) ->
  Forall (gapTopInRange d) qs ->
  Forall (fun h => 50 <= h <= height d - 160 - 50 - 100) extra ->
  Forall (gapTopInRange d) ps.
Proof.
  intros Hsub Hqs Hextra.
  assert (Hall : Forall (fun h => 50 <= h <= height d - 160 - 50 - 100)
                        (map topHeight ps)).
  { assert (Hbig : Forall (fun h => 50 <= h <= height d - 160 - 50 - 100)
                          (map topHeight qs ++ extra)).
    { apply Forall_app; split; [|exact Hextra].
      rewrite Forall_map. exact Hqs. }
    rewrite Forall_forall in Hbig. apply Forall_forall.
    intros h Hin. apply Hbig. eapply elem_of_sublist; eassumption. }
  rewrite Forall_map in Hall. exact Hall.
Qed.

(** The exact form: a gap height is added by the frames that spawn a pipe,
    and by them only. *)
Lemma apply_topHeights_exact (e : Event) (a : App) :
  sublist (map topHeight (pipesRef (apply e a)))
          (map topHeight (pipesRef a) ++
           match e with
           | Frame rnd =>
             if isPlaying a && (Z.rem (frameCountRef a + 1) 100 =? 0)
             then [randomTopHeight (dimensions a) rnd] else []
           | Flap | Resize _ => []
           end).
Proof.
  destruct e as [rnd| |w]; simpl.
  - unfold tick, gameLoop, isPlaying; simpl.
    destruct (gameState a); simpl; try (rewrite app_nil_r; reflexivity).
    rewrite playingFrame_pipes.
    etransitivity; [apply updatePipes_topHeights|].
    unfold spawnPipe.
    destruct (Z.rem (frameCountRef a + 1) 100 =? 0).
    + rewrite map_app. reflexivity.
    + rewrite app_nil_r. reflexivity.
  - rewrite app_nil_r. unfold jump. destruct (gameState a); reflexivity.
  - rewrite app_nil_r. unfold resize, canvasEffect, handleResize; simpl.
    destruct (gameState a); reflexivity.
Qed.

Lemma run_app (l1 l2 : list Event) (a : App) :
  run (l1 ++ l2) a = run l2 (run l1 a).
Proof.
  revert a. induction l1 as [|e l1 IH]; intros a; simpl; [reflexivity|apply IH].
Qed.

Lemma run_dimensions (events : list Event) (a : App) :
  (exists w, dimensions a = getGameDimensions w) ->
  exists w, dimensions (run events a) = getGameDimensions w.
Proof.
  revert a. induction events as [|e events IH]; intros a Ha; simpl; [exact Ha|].
  apply IH. destruct e as [rnd| |w]; simpl.
  - unfold tick, gameLoop; simpl.
    destruct (gameState a); try exact Ha.
    rewrite playingFrame_dimensions. exact Ha.
  - unfold jump. destruct (gameState a); exact Ha.
  - exists w. unfold resize, canvasEffect, handleResize; simpl.
    destruct (gameState a); reflexivity.
Qed.

(** Whatever happens between two resets, resizes included, a pipe on
    screen has the gap height drawn by the frame that spawned it, within the
    range of the playfield of that frame. *)
Lemma topHeight_fixed_at_spawn (events : list Event) (a : App) (h : Z) :
  (exists w, dimensions a = getGameDimensions w) ->
  pipesRef a = [] ->
  Forall randomInRange events ->
  h ∈ map topHeight (pipesRef (run events a)) ->
  exists pre rnd post,
    events = pre ++ Frame rnd :: post /\
    gameState (run pre a) = playing /\
    Z.rem (frameCountRef (run pre a) + 1) 100 = 0 /\
    h = randomTopHeight (dimensions (run pre a)) rnd /\
    50 <= h <= height (dimensions (run pre a)) - 160 - 50 - 100.
Proof.
  intros Hdim Hnone.
  induction events as [|e events IH] using rev_ind; intros Hrnd Hin.
  - simpl in Hin. rewrite Hnone in Hin. simpl in Hin. inversion Hin.
  - apply Forall_app in Hrnd as [Hrnd He].
    apply Forall_cons in He as [He _].
    rewrite run_app in Hin. simpl in Hin.
    eapply elem_of_sublist in Hin; [|apply apply_topHeights_exact].
    apply elem_of_app in Hin as [Hold|Hnew].
    + destruct (IH Hrnd Hold) as (pre & rnd & post & -> & Hplay & Hrem & Hh & Hrange).
      exists pre, rnd, (post ++ [e]).
      rewrite <- app_assoc. simpl. auto.
    + destruct e as [rnd| |w]; try (inversion Hnew; fail).
      destruct (isPlaying (run events a)) eqn:Eplay; simpl in Hnew;
        [|inversion Hnew].
      destruct (Z.rem (frameCountRef (run events a) + 1) 100 =? 0) eqn:Erem;
        [|inversion Hnew].
      apply list_elem_of_singleton in Hnew.
      exists events, rnd, []. split; [reflexivity|].
      split; [unfold isPlaying in Eplay; destruct (gameState (run events a));
              congruence|].
      split; [apply Z.eqb_eq; exact Erem|]. split; [exact Hnew|].
      subst h. destruct (run_dimensions events a Hdim) as [w Hw]. rewrite Hw.
      destruct He as [H0 H1].
      apply randomTopHeight_range; auto using Qlt_le_weak.
      pose proof (getGameDimensions_height w) as Hh. simpl in Hh. lia.
Qed.

Lemma getGameDimensions_height_bounds (innerWidth : Z) :
  360 <= height (getGameDimensions innerWidth) < 2 ^ 53 /\
  height (getGameDimensions innerWidth) <= 900.
Proof.
  pose proof (getGameDimensions_height innerWidth) as H. simpl in H.
  assert (900 < 2 ^ 53) by reflexivity. lia.
Qed.

(** C4 (amended).  The gap top drawn for a new pipe on a playfield of the
    application lies between 50 and [height - 160 - 50 - 100], for the
    height the playfield has in the frame that draws it; no event alters
    the gap top of a pipe.  Hence, in any run from the first render,
    resizes included, a pipe on screen keeps the gap top drawn by the frame
    that spawned it, within the range of the playfield of that frame, and
    so between 50 and 590; and all along a run in which no resize changes
    the playfield, every pipe on screen is within the range of the current
    playfield. *)
Theorem gap_top_in_range (innerWidth : Z) (events : list Event) (a : App) :
  let d := getGameDimensions innerWidth in
  (forall rnd, (0 <= rnd)%Q -> (rnd < 1)%Q ->
     50 <= randomTopHeight d rnd <= height d - 160 - 50 - 100) /\
  (forall e, sublist (map topHeight (pipesRef (apply e a)))
                     (map topHeight (pipesRef a) ++
                      match e with
                      | Frame rnd => [randomTopHeight (dimensions a) rnd]
                      | Flap | Resize _ => []
                      end)) /\
  (Forall randomInRange events ->
   forall h, h ∈ map topHeight (pipesRef (run events (initial innerWidth))) ->
     (exists pre rnd post,
        events = pre ++ Frame rnd :: post /\
        gameState (run pre (initial innerWidth)) = playing /\
        Z.rem (frameCountRef (run pre (initial innerWidth)) + 1) 100 = 0 /\
        h = randomTopHeight (dimensions (run pre (initial innerWidth))) rnd /\
        50 <= h <= height (dimensions (run pre (initial innerWidth))) - 160 - 50 - 100) /\
     50 <= h <= 590) /\
  (dimensions a = d ->
   Forall (gapTopInRange d) (pipesRef a) ->
   Forall (eventAdmissible d) events ->
   Forall (gapTopInRange d) (pipesRef (run events a))).
Proof.
  intros d.
  assert (Hspawn : forall rnd, (0 <= rnd)%Q -> (rnd < 1)%Q ->
            50 <= randomTopHeight d rnd <= height d - 160 - 50 - 100).
  { intros rnd H0 H1. apply randomTopHeight_range; auto using Qlt_le_weak.
    apply getGameDimensions_height_bounds. }
  split; [exact Hspawn|]. split; [intros e; apply apply_topHeights|]. split.
  - intros Hevs h Hin.
    destruct (topHeight_fixed_at_spawn events (initial innerWidth) h)
      as (pre & rnd & post & Hev & Hplay & Hrem & Hh & Hrange);
      [exists innerWidth; reflexivity|reflexivity|exact Hevs|exact Hin|].
    split; [exists pre, rnd, post; auto|].
    destruct (run_dimensions pre (initial innerWidth)) as [w Hw];
      [exists innerWidth; reflexivity|].
    rewrite Hw in Hrange.
    pose proof (getGameDimensions_height_bounds w). lia.
  - intros Hd Hpipes Hevents. revert a Hd Hpipes.
    induction Hevents as [|e events He Hrest IH]; intros a Hd Hpipes; simpl.
    + exact Hpipes.
    + apply IH.
      * apply apply_dimensions; assumption.
      * eapply gapTopInRange_sublist; [apply apply_topHeights|exact Hpipes|].
        destruct e as [rnd| |w]; simpl in *; try constructor; [|constructor].
        rewrite Hd. apply Hspawn; tauto.
Qed.

Lemma gap_top_in_range_witness :
  let events := Flap :: repeat (Frame (1 # 2)) 35 ++ Flap :: repeat (Frame (1 # 2)) 35
                ++ Flap :: repeat (Frame (1 # 2)) 35 in
  map topHeight (pipesRef (run events (initial 375))) = [170] /\
  Forall (gapTopInRange (getGameDimensions 375)) (pipesRef (run events (initial 375))) /\
  randomTopHeight (getGameDimensions 375) 0 = 50 /\
  randomTopHeight (getGameDimensions 375) (1 - (1 # 2 ^ 53)) = 290.
Proof.
  intros events. split; [vm_compute; reflexivity|].
  split; [|split; vm_compute; reflexivity].
  refine (proj2 (proj2 (proj2 (gap_top_in_range 375 events (initial 375)))) eq_refl _ _).
  - constructor.
  - unfold events. simpl.
    repeat (constructor; [simpl; first [exact I | split; [discriminate|reflexivity]]|]).
    constructor.
Defined.

Lemma hoverRun_randomInRange (n : nat) : Forall randomInRange (hoverRun n).
Proof.
  induction n as [|n IH]; cbn [hoverRun]; [constructor|].
  apply Forall_app. split; [exact IH|].
  assert (Hrnd : randomInRange (Frame (1 # 2))).
  { simpl. split; [discriminate|reflexivity]. }
  destruct (n mod 35 =? 0)%nat;
    repeat (apply Forall_cons; split); try apply Forall_nil; solve [exact I | exact Hrnd].
Qed.

(** C4, as stated, fails after a resize: a pipe keeps its gap top and the
    playfield does not keep its height.  A game started in a window 1440
    wide, on the playfield 900 high, spawns its first pipe in frame 100
    with the draw 0.5, at gap top 320; a resize to a window 375 wide then
    leaves the game playing on the playfield 600 high, where the bound is
    290, with that pipe on screen. *)
Lemma gap_top_in_range_counterexample :
  let events := hoverRun 105 ++ [Resize 375] in
  let a := run events (initial 1440) in
  Forall randomInRange events /\
  gameState a = playing /\
  height (dimensions a) = 600 /\
  map topHeight (pipesRef a) = [320] /\
  ~ Forall (gapTopInRange (dimensions a)) (pipesRef a).
Proof.
  intros events a.
  split; [apply Forall_app; split;
          [apply hoverRun_randomInRange|repeat constructor]|].
  assert (Hpipes : pipesRef a = [mkPipe 782 320 false]) by (vm_compute; reflexivity).
  split; [vm_compute; reflexivity|]. split; [vm_compute; reflexivity|].
  split; [rewrite Hpipes; reflexivity|].
  rewrite Hpipes. intros Hall. apply Forall_cons in Hall as [[_ Hhi] _].
  revert Hhi. vm_compute. intros H. apply H. reflexivity.
Qed.

(** ** One frame of a running game *)

Lemma tick_playing (rnd : Q) (a : App) :
  gameState a = playing -> tick rnd a = playingFrame rnd a.
Proof. intros H. unfold tick, gameLoop. rewrite H. reflexivity. Qed.

Lemma playingFrame_birdRef (rnd : Q) (a : App) :
  birdRef (playingFrame rnd a) = updateBird (birdRef a).
Proof.
  unfold playingFrame.
  destruct (updatePipes _ _) as [pipes [sref sc]]. reflexivity.
Qed.

Lemma playingFrame_frameCountRef (rnd : Q) (a : App) :
  frameCountRef (playingFrame rnd a) = frameCountRef a + 1.
Proof.
  unfold playingFrame.
  destruct (updatePipes _ _) as [pipes [sref sc]]. reflexivity.
Qed.

Lemma playingFrame_gameState (rnd : Q) (a : App) :
  gameState (playingFrame rnd a) =
  if groundCollision (dimensions a) (updateBird (birdRef a))
     || pipeCollision (dimensions a) (updateBird (birdRef a))
                      (pipesRef (playingFrame rnd a))
  then gameover else playing.
Proof.
  unfold playingFrame.
  destruct (updatePipes _ _) as [pipes [sref sc]]. reflexivity.
Qed.

Lemma ticks_snoc (rnds : list Q) (rnd : Q) (a : App) :
  ticks (rnds ++ [rnd]) a = tick rnd (ticks rnds a).
Proof. unfold ticks. rewrite map_app, run_app. reflexivity. Qed.

(** ** Ground contact *)

(** C9.  The ground test reads the nominal lower edge [y + BIRD_SIZE/2],
    not the lower edge of the inset hitbox: whatever the running state and
    the frame, there is a bird position from which the frame ends the run on
    the ground although the hitbox bottom [y + BIRD_SIZE/2 - 4] is still
    above the ground line [height - 20]. *)
Theorem ground_test_uses_nominal_edge (rnd : Q) (a : App) :
  gameState a = playing ->
  let d := dimensions a in
  (forall b, groundCollision d b = true <->
             (inject_Z (height d) - 20 <= y b + BIRD_SIZE / 2)%Q) /\
  (forall b, bottom (birdRect b) = (y b + BIRD_SIZE / 2 - 4)%Q) /\
  exists y0 : Q,
    let a' := tick rnd (set_birdRef (mkBird y0 (velocity (birdRef a))
                                            (rotation (birdRef a))) a) in
    groundCollision d (birdRef a') = true /\
    gameState a' = gameover /\
    (bottom (birdRect (birdRef a')) < inject_Z (height d) - 20)%Q.
Proof.
  intros Hplay d.
  assert (Ehalf : (BIRD_SIZE / 2 == 17)%Q) by reflexivity.
  split; [|split].
  - intros b. rewrite groundCollision_spec, Ehalf. reflexivity.
  - reflexivity.
  - exists (inject_Z (height d) - 37 - (velocity (birdRef a) + GRAVITY))%Q.
    cbv zeta.
    set (a0 := set_birdRef _ a).
    assert (Hplay0 : gameState a0 = playing) by exact Hplay.
    rewrite (tick_playing rnd a0 Hplay0).
    assert (Hground : groundCollision d (updateBird (birdRef a0)) = true).
    { apply groundCollision_spec. simpl. unfold GRAVITY.
      generalize (inject_Z (height d)) (velocity (birdRef a)). intros h v. lra. }
    rewrite playingFrame_gameState, playingFrame_birdRef.
    change (dimensions a0) with d. rewrite Hground.
    split; [reflexivity|]. split; [reflexivity|].
    simpl. rewrite Ehalf. unfold GRAVITY.
    generalize (inject_Z (height d)) (velocity (birdRef a)). intros h v. lra.
Qed.

Lemma ground_test_uses_nominal_edge_witness :
  exists y0 : Q,
    let a' := tick (1 # 2) (set_birdRef (mkBird y0 (- (9)) 0) (jump (initial 375))) in
    gameState a' = gameover /\
    (bottom (birdRect (birdRef a')) < inject_Z 600 - 20)%Q.
Proof.
  destruct (ground_test_uses_nominal_edge (1 # 2) (jump (initial 375)) eq_refl)
    as (_ & _ & y0 & _ & Hover & Hbottom).
  exists y0. split; [exact Hover | exact Hbottom].
Defined.

(** ** Free fall *)

Lemma lowerEdge_below_ground (d : Dimensions) (m : Z) :
  (fallY d m + BIRD_SIZE / 2 < inject_Z (height d) - 20)%Q <->
  m * (m + 1) < 2 * height d - 148.
Proof.
  unfold fallY.
  assert (E1 : (inject_Z (height d) / 2 + (1 # 2) * inject_Z m * inject_Z (m + 1) / 2
                + BIRD_SIZE / 2 ==
                inject_Z (2 * height d + m * (m + 1) + 68) / 4)%Q).
  { rewrite !inject_Z_plus, !inject_Z_mult, !inject_Z_plus. unfold BIRD_SIZE.
    change (inject_Z 68) with 68%Q. change (inject_Z 2) with 2%Q.
    change (inject_Z 1) with 1%Q.
    generalize (inject_Z (height d)) (inject_Z m). intros h q. field. }
  assert (E2 : (inject_Z (height d) - 20 == inject_Z (4 * height d - 80) / 4)%Q).
  { unfold Z.sub. rewrite !inject_Z_plus, !inject_Z_mult.
    change (inject_Z (- (80))) with (- (80))%Q. change (inject_Z 4) with 4%Q.
    generalize (inject_Z (height d)). intros h. field. }
  rewrite E1, E2. unfold Qdiv.
  split; intros H.
  - apply Qmult_lt_r in H; [|reflexivity]. rewrite <- Zlt_Qlt in H. lia.
  - apply Qmult_lt_r; [reflexivity|]. rewrite <- Zlt_Qlt. lia.
Qed.

Lemma fallY_succ (d : Dimensions) (n : Z) (v yb : Q) :
  (v == (1 # 2) * inject_Z n)%Q -> (yb == fallY d n)%Q ->
  (v + GRAVITY == (1 # 2) * inject_Z (n + 1))%Q /\
  (yb + (v + GRAVITY) == fallY d (n + 1))%Q.
Proof.
  intros Hv Hy. unfold fallY in *. rewrite Hv, Hy.
  rewrite !inject_Z_plus. unfold GRAVITY. change (inject_Z 1) with 1%Q.
  generalize (inject_Z (height d)) (inject_Z n). intros h q.
  split; field.
Qed.

(** One frame of a game without pipes, before the first spawn. *)
Lemma pipeless_frame (rnd : Q) (a : App) :
  gameState a = playing -> pipesRef a = [] -> 0 <= frameCountRef a < 99 ->
  let a' := tick rnd a in
  pipesRef a' = [] /\ frameCountRef a' = frameCountRef a + 1 /\
  dimensions a' = dimensions a /\
  birdRef a' = updateBird (birdRef a) /\
  gameState a' = if groundCollision (dimensions a) (updateBird (birdRef a))
                 then gameover else playing.
Proof.
  intros Hplay Hpipes Hframe a'. subst a'. rewrite (tick_playing rnd a Hplay).
  assert (Hno : pipesRef (playingFrame rnd a) = []).
  { rewrite playingFrame_pipes. unfold spawnPipe. rewrite Hpipes.
    replace (Z.rem (frameCountRef a + 1) 100 =? 0) with false; [reflexivity|].
    symmetry. apply Z.eqb_neq. rewrite Z.rem_small; lia. }
  split; [exact Hno|].
  split; [apply playingFrame_frameCountRef|].
  split; [apply playingFrame_dimensions|].
  split; [apply playingFrame_birdRef|].
  rewrite playingFrame_gameState, Hno. simpl. rewrite orb_false_r. reflexivity.
Qed.

(** While the closed form stays above the ground, the released bird follows
    it and the game goes on. *)
Lemma free_fall_state (innerWidth : Z) (rnds : list Q) :
  let d := getGameDimensions innerWidth in
  let n := Z.of_nat (length rnds) in
  (forall m, 0 <= m <= n ->
     (fallY d m + BIRD_SIZE / 2 < inject_Z (height d) - 20)%Q) ->
  let a := ticks rnds (released innerWidth) in
  gameState a = playing /\ pipesRef a = [] /\ frameCountRef a = n /\
  dimensions a = d /\
  (velocity (birdRef a) == (1 # 2) * inject_Z n)%Q /\
  (y (birdRef a) == fallY d n)%Q.
Proof.
  intros d. induction rnds as [|rnd rnds IH] using rev_ind; intros n Hfree a.
  - subst a n. simpl. repeat split; try reflexivity.
    unfold fallY. simpl. fold d.
    generalize (inject_Z (height d)). intros h. field.
  - subst a. rewrite ticks_snoc.
    assert (En : n = Z.of_nat (length rnds) + 1).
    { subst n. rewrite length_app. simpl. lia. }
    set (k := Z.of_nat (length rnds)) in *.
    destruct IH as (Hplay & Hpipes & Hframe & Hdim & Hv & Hy).
    { intros m Hm. apply Hfree. lia. }
    assert (Hk : k < 99).
    { destruct (Z_lt_le_dec k 99) as [Hlt|Hge]; [exact Hlt|exfalso].
      assert (H99 : 0 <= 99 <= n) by lia.
      apply Hfree, lowerEdge_below_ground in H99.
      pose proof (getGameDimensions_height innerWidth) as Hh. simpl in Hh.
      fold d in Hh. lia. }
    destruct (pipeless_frame rnd _ Hplay Hpipes) as (Hp' & Hf' & Hd' & Hb' & Hg').
    { rewrite Hframe. subst k. lia. }
    destruct (fallY_succ d k _ _ Hv Hy) as [Hv' Hy'].
    rewrite <- En in Hv', Hy'.
    split; [|split; [exact Hp'|split; [lia|split; [congruence|]]]].
    + rewrite Hg', Hdim.
      destruct (groundCollision d _) eqn:Eg; [exfalso|reflexivity].
      apply groundCollision_spec in Eg. simpl in Eg. rewrite Hy' in Eg.
      assert (Hn : 0 <= n <= n) by lia.
      apply Hfree in Hn.
      assert (Ehalf : (BIRD_SIZE / 2 == 17)%Q) by reflexivity.
      rewrite Ehalf in Hn. revert Eg Hn.
      generalize (inject_Z (height d)) (fallY d n). intros h q. lra.
    + rewrite Hb'. simpl. split; assumption.
Qed.

Lemma fall_before_spawn (innerWidth : Z) (k : Z) :
  let d := getGameDimensions innerWidth in
  (forall m, 0 <= m <= k ->
     (fallY d m + BIRD_SIZE / 2 < inject_Z (height d) - 20)%Q) ->
  k < 99.
Proof.
  intros d Hfree.
  destruct (Z_lt_le_dec k 99) as [Hlt|Hge]; [exact Hlt|exfalso].
  assert (H99 : 0 <= 99 <= k) by lia.
  apply Hfree, lowerEdge_below_ground in H99.
  pose proof (getGameDimensions_height innerWidth) as Hh. simpl in Hh.
  fold d in Hh. lia.
Qed.

(** C8 (amended).  A bird released at mid-height with no velocity, under
    gravity 0.5 per frame and without flap, has velocity [0.5 * n] and
    height [height/2 + 0.5 * n * (n + 1) / 2] after [n] frames, as long as
    the frames before left its nominal lower edge [y + BIRD_SIZE/2] above
    [height - 20]; the game is over after the first frame where that edge
    has reached [height - 20], and still playing before. *)
Theorem free_fall (innerWidth : Z) (rnds : list Q) :
  let d := getGameDimensions innerWidth in
  let n := Z.of_nat (length rnds) in
  let a := ticks rnds (released innerWidth) in
  (forall m, 0 <= m < n ->
     (fallY d m + BIRD_SIZE / 2 < inject_Z (height d) - 20)%Q) ->
  (velocity (birdRef a) == (1 # 2) * inject_Z n)%Q /\
  (y (birdRef a) == inject_Z (height d) / 2
                    + (1 # 2) * inject_Z n * inject_Z (n + 1) / 2)%Q /\
  gameState a = if Qle_bool (inject_Z (height d) - 20) (fallY d n + BIRD_SIZE / 2)
                then gameover else playing.
Proof.
  intros d n a Hfree.
  change (inject_Z (height d) / 2 + (1 # 2) * inject_Z n * inject_Z (n + 1) / 2)%Q
    with (fallY d n).
  destruct rnds as [|rnd rnds _] using rev_ind.
  - subst a n. simpl. split; [reflexivity|]. split.
    + unfold fallY. simpl. fold d.
      generalize (inject_Z (height d)). intros h. field.
    + destruct (Qle_bool _ _) eqn:E; [exfalso|reflexivity].
      apply Qle_bool_iff in E.
      assert (Hlt : (fallY d 0 + BIRD_SIZE / 2 < inject_Z (height d) - 20)%Q).
      { apply lowerEdge_below_ground.
        pose proof (getGameDimensions_height innerWidth) as Hh. simpl in Hh.
        fold d in Hh. lia. }
      exact (Qlt_not_le _ _ Hlt E).
  - subst a. rewrite ticks_snoc.
    assert (En : n = Z.of_nat (length rnds) + 1).
    { subst n. rewrite length_app. simpl. lia. }
    set (k := Z.of_nat (length rnds)) in *.
    assert (Hbefore : forall m, 0 <= m <= k ->
              (fallY d m + BIRD_SIZE / 2 < inject_Z (height d) - 20)%Q).
    { intros m Hm. apply Hfree. lia. }
    pose proof (fall_before_spawn innerWidth k Hbefore) as Hk.
    destruct (free_fall_state innerWidth rnds Hbefore)
      as (Hplay & Hpipes & Hframe & Hdim & Hv & Hy).
    destruct (pipeless_frame rnd _ Hplay Hpipes) as (_ & _ & _ & Hb' & Hg').
    { rewrite Hframe. fold k. lia. }
    destruct (fallY_succ d k _ _ Hv Hy) as [Hv' Hy'].
    rewrite <- En in Hv', Hy'.
    rewrite Hb', Hg', Hdim. simpl.
    split; [exact Hv'|]. split; [exact Hy'|].
    unfold groundCollision. simpl.
    replace (Qle_bool (inject_Z (height d) - 20) (fallY d n + BIRD_SIZE / 2))
      with (Qle_bool (inject_Z (height d) - 20)
                     (y (birdRef (ticks rnds (released innerWidth)))
                      + (velocity (birdRef (ticks rnds (released innerWidth))) + GRAVITY)
                      + BIRD_SIZE / 2)); [reflexivity|].
    apply Qleb_comp; [reflexivity|]. rewrite Hy'. reflexivity.
Qed.

Lemma free_fall_witness :
  let a := ticks (repeat (1 # 2) 32) (released 375) in
  (velocity (birdRef a) == 16)%Q /\ (y (birdRef a) == 564)%Q /\
  gameState a = gameover.
Proof.
  assert (Hfree : forall m, 0 <= m < 32 ->
            (fallY (getGameDimensions 375) m + BIRD_SIZE / 2
             < inject_Z (height (getGameDimensions 375)) - 20)%Q).
  { intros m Hm. apply lowerEdge_below_ground. simpl. nia. }
  destruct (free_fall 375 (repeat (1 # 2) 32) Hfree) as (Hv & Hy & Hg).
  split; [apply (Qeq_trans _ _ _ Hv); vm_compute; reflexivity|].
  split; [apply (Qeq_trans _ _ _ Hy); vm_compute; reflexivity|exact Hg].
Defined.

(** C8, as stated, fails on the 400 x 600 playfield: the 32nd frame of the
    fall ends the game although the lower edge of the hitbox, at 577, has
    reached the ground line [height - 20 = 580] in none of the frames so
    far; and with the margin 100 of the pipe generator, that edge is past
    [height - 100] from frame 27 on while the game is still playing. *)
Lemma free_fall_hitbox_counterexample :
  let fall (n : nat) := ticks (repeat (1 # 2) n) (released 375) in
  gameState (fall 31%nat) = playing /\
  gameState (fall 32%nat) = gameover /\
  Forall (fun n => (bottom (birdRect (birdRef (fall n))) < inject_Z 600 - 20)%Q)
         (seq 0 33) /\
  (bottom (birdRect (birdRef (fall 32%nat))) == 577)%Q /\
  (inject_Z 600 - 100 <= bottom (birdRect (birdRef (fall 27%nat))))%Q /\
  gameState (fall 27%nat) = playing.
Proof.
  intros fall.
  split; [vm_compute; reflexivity|].
  split; [vm_compute; reflexivity|].
  split; [|split; [vm_compute; reflexivity|split; [vm_compute; discriminate|vm_compute; reflexivity]]].
  repeat (constructor; [vm_compute; reflexivity|]). constructor.
Qed.

(** ** The schedule of pipes and score *)

Lemma advance_updatePipes (pipes : list Pipe) (sc : Z * Z) :
  advance (map (fun p => (x p, passed p)) pipes) sc =
  (map (fun p => (x p, passed p)) (updatePipes pipes sc).1, (updatePipes pipes sc).2).
Proof.
  revert sc. induction pipes as [|p pipes IH]; intros sc; simpl; [reflexivity|].
  rewrite IH.
  destruct (updatePipes pipes _) as [kept sc'']. simpl.
  destruct (- PIPE_WIDTH <? x p - PIPE_SPEED); reflexivity.
Qed.

Lemma schedule_playingFrame (rnd : Q) (a : App) :
  schedule (playingFrame rnd a) = nextSchedule (schedule a).
Proof.
  unfold nextSchedule, schedule at 2, playingFrame. simpl.
  assert (E : (if Z.rem (frameCountRef a + 1) 100 =? 0
               then map (fun p => (x p, passed p)) (pipesRef a)
                    ++ [(width (dimensions a), false)]
               else map (fun p => (x p, passed p)) (pipesRef a)) =
              map (fun p => (x p, passed p))
                  (spawnPipe (dimensions a) rnd (frameCountRef a + 1) (pipesRef a))).
  { unfold spawnPipe. destruct (Z.rem _ _ =? 0); [|reflexivity].
    rewrite map_app. reflexivity. }
  rewrite E, advance_updatePipes.
  destruct (updatePipes _ _) as [pipes [sref sc]]. reflexivity.
Qed.

Lemma schedule_apply (d : Dimensions) (e : Event) (a : App) :
  dimensions a = d -> eventAdmissible d e ->
  (if isFrame e then isPlaying a else true) = true ->
  schedule (apply e a) =
  if isFrame e then nextSchedule (schedule a) else schedule a.
Proof.
  intros Hd He Hplay. destruct e as [rnd| |w]; simpl in *.
  - unfold isPlaying in Hplay.
    destruct (gameState a) eqn:Eg; try discriminate.
    rewrite (tick_playing rnd a Eg). apply schedule_playingFrame.
  - unfold jump. destruct (gameState a); reflexivity.
  - unfold resize, canvasEffect, handleResize, schedule; simpl.
    rewrite He, Hd. destruct (gameState a); reflexivity.
Qed.

Lemma schedule_run (d : Dimensions) (events : list Event) (a : App) :
  dimensions a = d -> Forall (eventAdmissible d) events ->
  everyFramePlayed events a = true ->
  schedule (run events a) = Nat.iter (frames events) nextSchedule (schedule a).
Proof.
  intros Hd Hevents. revert a Hd.
  induction Hevents as [|e events He Hrest IH]; intros a Hd Hplayed; simpl.
  - reflexivity.
  - simpl in Hplayed. apply andb_true_iff in Hplayed as [Hnow Hlater].
    rewrite (IH (apply e a) (apply_dimensions d e a He Hd) Hlater).
    rewrite (schedule_apply d e a Hd He Hnow).
    unfold frames. rewrite filter_cons.
    destruct (isFrame e) eqn:Ef.
    + rewrite decide_True by reflexivity. simpl length.
      rewrite Nat.iter_succ_r. reflexivity.
    + rewrite decide_False by discriminate. reflexivity.
Qed.

Lemma firstPipeCheck_holds (n : nat) :
  (n < 320)%nat ->
  firstPipeCheck n (Nat.iter n nextSchedule (mkSchedule 400 0 [] 0 0)) = true.
Proof.
  intros Hn.
  assert (Hall : forallb (fun k => firstPipeCheck k
                   (Nat.iter k nextSchedule (mkSchedule 400 0 [] 0 0)))
                         (seq 0 320) = true) by (vm_compute; reflexivity).
  rewrite forallb_forall in Hall. apply Hall.
  apply in_seq. lia.
Qed.

Lemma hoverRun_admissible (d : Dimensions) (n : nat) :
  Forall (eventAdmissible d) (hoverRun n).
Proof.
  induction n as [|n IH]; cbn [hoverRun]; [constructor|].
  apply Forall_app. split; [exact IH|].
  assert (Hrnd : eventAdmissible d (Frame (1 # 2))).
  { simpl. split; [discriminate|reflexivity]. }
  destruct (n mod 35 =? 0)%nat;
    repeat (apply Forall_cons; split); try apply Forall_nil; solve [exact I | exact Hrnd].
Qed.

(** C2 (amended).  On a playfield 400 wide, in a run of frames and flaps
    without collision, the first pipe is pushed in frame 100 at [x = 400]
    and moved in that same frame: after frame [n], from 100 to 252, it is at
    [400 - 3 * (n - 99)], hence at 100 after frame 199; the score is 0
    until frame 219 and the pipe is credited in frame 220, the first where
    [x + 60 < 100]. *)
Theorem first_pipe_timing (innerWidth : Z) (events : list Event) (a : App) :
  let d := getGameDimensions innerWidth in
  width d = 400 ->
  dimensions a = d ->
  justStarted a ->
  Forall (eventAdmissible d) events ->
  everyFramePlayed events a = true ->
  let n := frameCount events in
  let a' := run events a in
  frameCountRef a' = n /\
  (n < 100 -> pipesRef a' = []) /\
  (100 <= n <= 252 ->
     exists p rest, pipesRef a' = p :: rest /\
                    x p = 400 - 3 * (n - 99) /\ passed p = (220 <=? n)) /\
  (n < 220 -> score a' = 0 /\ scoreRef a' = 0) /\
  (220 <= n < 320 -> score a' = 1 /\ scoreRef a' = 1).
Proof.
  intros d Hw Hd (Hplay & Hpipes & Hframe & Hsref & Hsc) Hevents Hplayed n a'.
  pose proof (schedule_run d events a Hd Hevents Hplayed) as Hrun.
  assert (Hstart : schedule a = mkSchedule 400 0 [] 0 0).
  { unfold schedule. rewrite Hd, Hw, Hpipes, Hframe, Hsref, Hsc. reflexivity. }
  rewrite Hstart in Hrun. fold a' in Hrun.
  assert (En : n = Z.of_nat (frames events)) by reflexivity.
  assert (Hframes : frameCountRef a' = sFrame (schedule a')) by reflexivity.
  assert (Hmono : forall k, sFrame (Nat.iter k nextSchedule (mkSchedule 400 0 [] 0 0))
                            = Z.of_nat k).
  { induction k as [|k IHk]; [reflexivity|].
    rewrite Nat.iter_succ. unfold nextSchedule at 1.
    destruct (advance _ _) as [ps [sref sc]]. simpl. rewrite IHk. lia. }
  split; [rewrite Hframes, Hrun, Hmono; symmetry; exact En|].
  assert (Hcheck : (frames events < 320)%nat ->
                   firstPipeCheck (frames events) (schedule a') = true).
  { intros Hlt. rewrite Hrun. apply firstPipeCheck_holds. exact Hlt. }
  unfold firstPipeCheck in Hcheck. rewrite <- En in Hcheck.
  assert (Hpipes' : sPipes (schedule a') = map (fun p => (x p, passed p)) (pipesRef a'))
    by reflexivity.
  assert (Hscore' : sScore (schedule a') = score a') by reflexivity.
  assert (Hsref' : sScoreRef (schedule a') = scoreRef a') by reflexivity.
  rewrite Hpipes', Hscore', Hsref' in Hcheck.
  assert (Hparts : n < 320 ->
            (if n <? 100
             then match map (fun p => (x p, passed p)) (pipesRef a') with
                  | [] => true | _ :: _ => false end
             else if n <=? 252
                  then match map (fun p => (x p, passed p)) (pipesRef a') with
                       | (px, ppassed) :: _ =>
                         (px =? 400 - 3 * (n - 99)) && eqb ppassed (220 <=? n)
                       | [] => false
                       end
                  else true) = true /\
            (if n <? 220 then (score a' =? 0) && (scoreRef a' =? 0)
             else (score a' =? 1) && (scoreRef a' =? 1)) = true).
  { intros Hn. specialize (Hcheck ltac:(lia)).
    apply andb_true_iff in Hcheck as [Hc Hs].
    apply andb_true_iff in Hc as [_ Hc]. split; assumption. }
  clear Hcheck.
  split; [|split; [|split]].
  - intros Hn. destruct Hparts as [Hc _]; [lia|].
    replace (n <? 100) with true in Hc by (symmetry; apply Z.ltb_lt; lia).
    destruct (pipesRef a'); [reflexivity|discriminate].
  - intros Hn. destruct Hparts as [Hc _]; [lia|].
    replace (n <? 100) with false in Hc by (symmetry; apply Z.ltb_ge; lia).
    replace (n <=? 252) with true in Hc by (symmetry; apply Z.leb_le; lia).
    destruct (pipesRef a') as [|p rest]; [discriminate|]. simpl in Hc.
    apply andb_true_iff in Hc as [Hx Hp].
    exists p, rest. split; [reflexivity|].
    split; [apply Z.eqb_eq; exact Hx|apply eqb_prop; exact Hp].
  - intros Hn. destruct Hparts as [_ Hc]; [lia|].
    replace (n <? 220) with true in Hc by (symmetry; apply Z.ltb_lt; lia).
    apply andb_true_iff in Hc as [H1 H2].
    split; apply Z.eqb_eq; assumption.
  - intros Hn. destruct Hparts as [_ Hc]; [lia|].
    replace (n <? 220) with false in Hc by (symmetry; apply Z.ltb_ge; lia).
    apply andb_true_iff in Hc as [H1 H2].
    split; apply Z.eqb_eq; assumption.
Qed.

Lemma first_pipe_timing_witness :
  let a' := run (hoverRun 220) (jump (initial 375)) in
  frameCountRef a' = 220 /\ score a' = 1 /\
  exists p rest, pipesRef a' = p :: rest /\ x p = 37 /\ passed p = true.
Proof.
  assert (Hstarted : justStarted (jump (initial 375))) by (repeat split).
  assert (Hplayed : everyFramePlayed (hoverRun 220) (jump (initial 375)) = true)
    by (vm_compute; reflexivity).
  destruct (first_pipe_timing 375 (hoverRun 220) (jump (initial 375))
              eq_refl eq_refl Hstarted (hoverRun_admissible _ 220) Hplayed)
    as (Hframe & _ & Hpipe & _ & Hscore).
  assert (En : frameCount (hoverRun 220) = 220) by (vm_compute; reflexivity).
  rewrite En in *.
  split; [exact Hframe|].
  split; [apply Hscore; lia|].
  destruct Hpipe as (p & rest & Hp & Hx & Hpassed); [lia|].
  exists p, rest. split; [exact Hp|]. split; [exact Hx|exact Hpassed].
Defined.

(** C2, as stated, fails in the run of a player who hovers through the
    first gap: 100 frames after its spawn frame (frame 200) the first pipe
    is at 97, having been at 100 one frame earlier; the score is still 0
    after frames 200 and 219 and becomes 1 in frame 220. *)
Lemma first_pipe_timing_counterexample :
  let after (n : nat) := run (hoverRun n) (initial 375) in
  everyFramePlayed (hoverRun 220) (initial 375) = true /\
  gameState (after 220%nat) = playing /\
  map x (pipesRef (after 100%nat)) = [397] /\
  map x (pipesRef (after 199%nat)) = [100] /\
  map x (pipesRef (after 200%nat)) = [97; 397] /\
  score (after 200%nat) = 0 /\
  score (after 219%nat) = 0 /\
  score (after 220%nat) = 1.
Proof.
  intros after. vm_compute. repeat split; reflexivity.
Qed.

(** ** The JSON parser never exhausts its budget *)

Lemma skip_ws_length (s : string) :
  (String.length (skip_ws s) <= String.length s)%nat.
Proof.
  induction s as [|c s IH]; simpl; [lia|].
  destruct (is_ws c); simpl; lia.
Qed.

Lemma skip_ws_cons (s : string) (c : ascii) (r : string) :
  skip_ws s = String c r -> (String.length r < String.length s)%nat.
Proof.
  intros H. pose proof (skip_ws_length s) as Hl. rewrite H in Hl. simpl in Hl. lia.
Qed.

Lemma parse_chars_length (n : nat) (s : string) :
  (String.length s <= n)%nat ->
  parse_chars s <> PFuel /\
  forall cs r, parse_chars s = POk cs r -> (String.length r < String.length s)%nat.
Proof.
  revert s. induction n as [|n IH]; intros s Hn.
  - destruct s; simpl in *; [|lia]. split; [discriminate|intros; discriminate].
  - destruct s as [|c rest]; simpl in Hn |- *; [split; [discriminate|intros; discriminate]|].
    assert (Hsub : forall t (f : list N -> list N), (String.length t <= n)%nat ->
              match parse_chars t with
              | POk cs r => POk (f cs) r
              | other => other
              end <> PFuel /\
              forall cs r, match parse_chars t with
                           | POk cs r => POk (f cs) r
                           | other => other
                           end = POk cs r -> (String.length r < String.length t)%nat).
    { intros t f Ht. destruct (IH t Ht) as [Hno Hlen].
      destruct (parse_chars t) as [cs r| |] eqn:E.
      - split; [discriminate|]. intros cs' r' [= <- <-]. eapply Hlen; reflexivity.
      - split; [discriminate|intros; discriminate].
      - congruence. }
    repeat match goal with
    | |- context [if ?b then _ else _] => destruct b
    | |- context [match ?t with EmptyString => _ | String _ _ => _ end] =>
        is_var t; destruct t
    | |- context [match hex_of ?h with _ => _ end] => destruct (hex_of h)
    end;
    try (split; [discriminate | intros; discriminate]);
    try (split; [discriminate | intros ? ? [= <- <-]; simpl; lia]).
    all: simpl in Hn.
    all: match goal with
         | |- context [parse_chars ?t] =>
           let H := fresh in
           edestruct (Hsub t) as [H1 H2]; [|split; [exact H1|intros cs r Hr; apply H2 in Hr; simpl; lia]]; lia
         end.
Qed.

Lemma parse_digits_length (s : string) (acc len : Z) :
  (String.length (parse_digits s acc len).2 <= String.length s)%nat.
Proof.
  revert acc len. induction s as [|c s IH]; intros acc len; simpl; [lia|].
  destruct (digit_of c); simpl; [|lia].
  specialize (IH (acc * 10 + z) (len + 1)). lia.
Qed.


Lemma parse_digits_rest (t : string) (acc len v l : Z) (r : string) :
  parse_digits t acc len = (v, l, r) -> (String.length r <= String.length t)%nat.
Proof.
  intros H. pose proof (parse_digits_length t acc len) as Hl.
  rewrite H in Hl. exact Hl.
Qed.

Lemma parse_int_length (s : string) :
  parse_int s <> PFuel /\
  forall v r, parse_int s = POk v r -> (String.length r < String.length s)%nat.
Proof.
  unfold parse_int. destruct s as [|c0 r0]; [split; [discriminate|intros; discriminate]|].
  destruct (digit_of c0) as [dgt|]; [|split; [discriminate|intros; discriminate]].
  destruct (dgt =? 0).
  - split; [discriminate|]. intros v r [= <- <-]. simpl. lia.
  - destruct (parse_digits r0 dgt 1) as [[v l] r] eqn:E.
    apply parse_digits_rest in E.
    split; [discriminate|]. intros v' r' [= <- <-]. simpl. lia.
Qed.

Lemma parse_frac_length (mant : Z) (s : string) :
  parse_frac mant s <> PFuel /\
  forall v r, parse_frac mant s = POk v r -> (String.length r <= String.length s)%nat.
Proof.
  unfold parse_frac.
  assert (Hdefault : @POk (Z * Z) (mant, 0) s <> PFuel /\
            forall v r, POk (mant, 0) s = POk v r ->
                        (String.length r <= String.length s)%nat).
  { split; [discriminate|]. intros v r [= <- <-]. lia. }
  destruct s as [|c r0]; [exact Hdefault|].
  destruct (Ascii.eqb c ".") eqn:Ec.
  - apply Ascii.eqb_eq in Ec. subst c.
    destruct (parse_digits r0 mant 0) as [[v l] r] eqn:E.
    apply parse_digits_rest in E.
    destruct (l =? 0); [split; [discriminate|intros; discriminate]|].
    split; [discriminate|]. intros v' r' [= <- <-]. simpl. lia.
  - destruct c as [[] [] [] [] [] [] [] []]; try exact Hdefault; discriminate.
Qed.

Lemma parse_exp_length (s : string) :
  parse_exp s <> PFuel /\
  forall v r, parse_exp s = POk v r -> (String.length r <= String.length s)%nat.
Proof.
  assert (Hdigits : forall (eneg : bool) t,
            (let '(e, len, r') := parse_digits t 0 0 in
             if len =? 0 then PErr else POk (if eneg then - e else e) r') <> PFuel /\
            forall v r,
              (let '(e, len, r') := parse_digits t 0 0 in
               if len =? 0 then PErr else POk (if eneg then - e else e) r') = POk v r ->
              (String.length r <= String.length t)%nat).
  { intros eneg t. destruct (parse_digits t 0 0) as [[e l] r] eqn:E.
    apply parse_digits_rest in E.
    destruct (l =? 0); [split; [discriminate|intros; discriminate]|].
    split; [discriminate|]. intros v' r' [= <- <-]. exact E. }
  assert (Hsigned : forall t,
            match t with
            | String "-" r' =>
              let '(e, len, r'') := parse_digits r' 0 0 in
              if len =? 0 then PErr else POk (- e) r''
            | String "+" r' =>
              let '(e, len, r'') := parse_digits r' 0 0 in
              if len =? 0 then PErr else POk e r''
            | _ =>
              let '(e, len, r'') := parse_digits t 0 0 in
              if len =? 0 then PErr else POk e r''
            end <> PFuel /\
            forall v r,
              match t with
              | String "-" r' =>
                let '(e, len, r'') := parse_digits r' 0 0 in
                if len =? 0 then PErr else POk (- e) r''
              | String "+" r' =>
                let '(e, len, r'') := parse_digits r' 0 0 in
                if len =? 0 then PErr else POk e r''
              | _ =>
                let '(e, len, r'') := parse_digits t 0 0 in
                if len =? 0 then PErr else POk e r''
              end = POk v r -> (String.length r <= String.length t)%nat).
  { intros t. pose proof (Hdigits false t) as Hplain.
    destruct t as [|c r0]; [exact Hplain|].
    pose proof (Hdigits true r0) as [Hm1 Hm2].
    pose proof (Hdigits false r0) as [Hp1 Hp2].
    destruct c as [[] [] [] [] [] [] [] []]; try exact Hplain;
      (split; [assumption|]); intros v r Hr;
      first [apply Hm2 in Hr | apply Hp2 in Hr]; simpl; lia. }
  assert (Hdefault : @POk Z 0 s <> PFuel /\
            forall v r, POk 0 s = POk v r -> (String.length r <= String.length s)%nat).
  { split; [discriminate|]. intros v r [= <- <-]. lia. }
  unfold parse_exp.
  destruct s as [|c r0]; [exact Hdefault|].
  pose proof (Hsigned r0) as [Hs1 Hs2].
  destruct c as [[] [] [] [] [] [] [] []]; try exact Hdefault;
    (split; [assumption|]); intros v r Hr; apply Hs2 in Hr; simpl; lia.
Qed.

Lemma parse_number_length (s : string) :
  parse_number s <> PFuel /\
  forall q r, parse_number s = POk q r -> (String.length r < String.length s)%nat.
Proof.
  unfold parse_number.
  destruct (match s with String "-" r => (true, r) | _ => (false, s) end)
    as [neg s1] eqn:Esign.
  assert (Hs1 : (String.length s1 <= String.length s)%nat).
  { destruct s as [|c r0]; [injection Esign as _ <-; simpl; lia|].
    destruct c as [[] [] [] [] [] [] [] []]; injection Esign as _ <-; simpl; lia. }
  destruct (parse_int_length s1) as [Hi1 Hi2].
  destruct (parse_int s1) as [ipart s2| |]; [|split; [discriminate|intros; discriminate]|congruence].
  specialize (Hi2 _ _ eq_refl).
  destruct (parse_frac_length ipart s2) as [Hf1 Hf2].
  destruct (parse_frac ipart s2) as [[mant flen] s3| |];
    [|split; [discriminate|intros; discriminate]|congruence].
  specialize (Hf2 _ _ eq_refl).
  destruct (parse_exp_length s3) as [He1 He2].
  destruct (parse_exp s3) as [e s4| |];
    [|split; [discriminate|intros; discriminate]|congruence].
  specialize (He2 _ _ eq_refl).
  split; [discriminate|]. intros q r [= <- <-]. lia.
Qed.

Lemma expect_length {A : Type} (lit : string) (v : A) (s : string) :
  expect lit v s <> PFuel /\
  forall v' r, expect lit v s = POk v' r ->
               (String.length r + String.length lit = String.length s)%nat.
Proof.
  revert s. induction lit as [|c lit IH]; intros s; simpl.
  - split; [discriminate|]. intros v' r [= <- <-]. lia.
  - destruct s as [|d rest]; [split; [discriminate|intros; discriminate]|].
    destruct (Ascii.eqb c d); [|split; [discriminate|intros; discriminate]].
    destruct (IH rest) as [H1 H2]. split; [exact H1|].
    intros v' r Hr. apply H2 in Hr. simpl. lia.
Qed.

Lemma parse_fuel (fuel : nat) :
  (forall s,
     ((2 * String.length s + 1 <= fuel)%nat -> parse_value fuel s <> PFuel) /\
     (forall v r, parse_value fuel s = POk v r ->
                  (String.length r < String.length s)%nat)) /\
  (forall s acc,
     ((2 * String.length s + 2 <= fuel)%nat -> parse_elements fuel s acc <> PFuel) /\
     (forall v r, parse_elements fuel s acc = POk v r ->
                  (String.length r < String.length s)%nat)) /\
  (forall s acc,
     ((2 * String.length s + 2 <= fuel)%nat -> parse_members fuel s acc <> PFuel) /\
     (forall v r, parse_members fuel s acc = POk v r ->
                  (String.length r < String.length s)%nat)).
Proof.
  induction fuel as [|fuel (IHv & IHe & IHm)].
  { repeat split; simpl; intros; solve [lia | discriminate]. }
  split; [|split].
  - intros s. simpl.
    destruct (skip_ws s) as [|c rest] eqn:Es;
      [split; [discriminate|intros; discriminate]|].
    pose proof (skip_ws_cons s c rest Es) as Hrest.
    destruct (N_of_ascii c =? 91)%N.
    { destruct (skip_ws rest) as [|c' r'] eqn:Er.
      - destruct (IHe rest []) as [H1 H2].
        split; [intros Hf; apply H1; lia|].
        intros v r Hr. apply H2 in Hr. lia.
      - pose proof (skip_ws_cons rest c' r' Er) as Hr'.
        destruct (IHe rest []) as [H1 H2].
        destruct c' as [[] [] [] [] [] [] [] []];
          first [ split; [intros Hf; apply H1; lia|];
                  intros v r Hr; apply H2 in Hr; lia
                | split; [discriminate|]; intros v r [= <- <-]; lia ]. }
    destruct (N_of_ascii c =? 123)%N.
    { destruct (skip_ws rest) as [|c' r'] eqn:Er.
      - destruct (IHm rest []) as [H1 H2].
        split; [intros Hf; apply H1; lia|].
        intros v r Hr. apply H2 in Hr. lia.
      - pose proof (skip_ws_cons rest c' r' Er) as Hr'.
        destruct (IHm rest []) as [H1 H2].
        destruct c' as [[] [] [] [] [] [] [] []];
          first [ split; [intros Hf; apply H1; lia|];
                  intros v r Hr; apply H2 in Hr; lia
                | split; [discriminate|]; intros v r [= <- <-]; lia ]. }
    destruct (N_of_ascii c =? 34)%N.
    { destruct (parse_chars_length _ rest (le_n _)) as [H1 H2].
      destruct (parse_chars rest) as [cs r| |];
        [|split; [discriminate|intros; discriminate]|congruence].
      specialize (H2 _ _ eq_refl).
      split; [discriminate|]. intros v r' [= <- <-]. lia. }
    assert (Hlit : forall lit v0,
              (0 < String.length lit)%nat ->
              (expect lit v0 (String c rest) <> PFuel) /\
              (forall (v : value) r, expect lit v0 (String c rest) = POk v r ->
                            (String.length r < String.length s)%nat)).
    { intros lit v0 Hlit. destruct (expect_length lit v0 (String c rest)) as [H1 H2].
      split; [exact H1|]. intros v r Hr. apply H2 in Hr. simpl in Hr. lia. }
    destruct (N_of_ascii c =? 116)%N;
      [destruct (Hlit "true"%string (JBool true)) as [H1 H2]; [simpl; lia|];
       split; [intros _; exact H1|exact H2]|].
    destruct (N_of_ascii c =? 102)%N;
      [destruct (Hlit "false"%string (JBool false)) as [H1 H2]; [simpl; lia|];
       split; [intros _; exact H1|exact H2]|].
    destruct (N_of_ascii c =? 110)%N;
      [destruct (Hlit "null"%string JNull) as [H1 H2]; [simpl; lia|];
       split; [intros _; exact H1|exact H2]|].
    destruct (parse_number_length (String c rest)) as [H1 H2].
    destruct (parse_number (String c rest)) as [q r| |];
      [|split; [discriminate|intros; discriminate]|congruence].
    specialize (H2 _ _ eq_refl). simpl in H2.
    split; [discriminate|]. intros v r' [= <- <-]. lia.
  - intros s acc. simpl.
    destruct (IHv s) as [Hv1 Hv2].
    destruct (parse_value fuel s) as [v r| |] eqn:Ev;
      [|split; [discriminate|intros; discriminate]|
       split; [intros Hf; exfalso; apply Hv1; [lia|reflexivity]|intros; discriminate]].
    specialize (Hv2 _ _ eq_refl).
    destruct (skip_ws r) as [|c r'] eqn:Er;
      [split; [discriminate|intros; discriminate]|].
    pose proof (skip_ws_cons r c r' Er) as Hr'.
    destruct (IHe r' (v :: acc)) as [H1 H2].
    destruct c as [[] [] [] [] [] [] [] []];
      first [ split; [discriminate|intros; discriminate]
            | split; [intros Hf; apply H1; lia|];
              intros v' r0 Hr; apply H2 in Hr; lia
            | split; [discriminate|]; intros v' r0 [= <- <-]; lia ].
  - intros s acc. simpl.
    destruct (skip_ws s) as [|q r0] eqn:Es;
      [split; [discriminate|intros; discriminate]|].
    pose proof (skip_ws_cons s q r0 Es) as Hr0.
    destruct (N_of_ascii q =? 34)%N; simpl;
      [|split; [discriminate|intros; discriminate]].
    destruct (parse_chars_length _ r0 (le_n _)) as [Hc1 Hc2].
    destruct (parse_chars r0) as [key r1| |];
      [|split; [discriminate|intros; discriminate]|congruence].
    specialize (Hc2 _ _ eq_refl).
    destruct (skip_ws r1) as [|c r2] eqn:E1;
      [split; [discriminate|intros; discriminate]|].
    pose proof (skip_ws_cons r1 c r2 E1) as Hr2.
    destruct (Ascii.eqb c ":") eqn:Ec;
      [apply Ascii.eqb_eq in Ec; subst c|
       destruct c as [[] [] [] [] [] [] [] []];
       first [discriminate | split; [discriminate|intros; discriminate]]].
    destruct (IHv r2) as [Hv1 Hv2].
    destruct (parse_value fuel r2) as [v r3| |] eqn:Ev;
      [|split; [discriminate|intros; discriminate]|
       split; [intros Hf; exfalso; apply Hv1; [lia|reflexivity]|intros; discriminate]].
    specialize (Hv2 _ _ eq_refl).
    destruct (skip_ws r3) as [|c r4] eqn:E3;
      [split; [discriminate|intros; discriminate]|].
    pose proof (skip_ws_cons r3 c r4 E3) as Hr4.
    destruct (IHm r4 ((key, v) :: acc)) as [H1 H2].
    destruct c as [[] [] [] [] [] [] [] []];
      first [ split; [discriminate|intros; discriminate]
            | split; [intros Hf; apply H1; lia|];
              intros v' r Hr; apply H2 in Hr; lia
            | split; [discriminate|]; intros v' r [= <- <-]; lia ].
Qed.

(** [JSON_parse] is total within the model: it returns a value or throws. *)
Lemma parse_never_out_of_fuel (text : string) : JSON_parse text <> OutsideModel.
Proof.
  unfold JSON_parse.
  destruct (parse_fuel (2 * String.length text + 1)) as (Hv & _ & _).
  destruct (Hv text) as [Hno _]. specialize (Hno (le_n _)).
  destruct (parse_value _ text) as [v rest| |]; [|discriminate|congruence].
  destruct (skip_ws rest); discriminate.
Qed.

(** ** A stored leaderboard loads back *)

Lemma parse_digits_uint (d : Decimal.uint) (rest : string) (acc len : Z) :
  parse_digits (NilEmpty.string_of_uint d +:+ rest) acc len =
  parse_digits rest (ufold d acc) (len + Z.of_nat (Decimal.nb_digits d)).
Proof.
  revert acc len.
  induction d as [|d IH|d IH|d IH|d IH|d IH|d IH|d IH|d IH|d IH|d IH];
    intros acc len;
    simpl; [f_equal; lia|..]; rewrite IH; f_equal; lia.
Qed.

Lemma ufold_of_uint_acc (d : Decimal.uint) (acc : positive) :
  Z.pos (Pos.of_uint_acc d acc) = ufold d (Z.pos acc).
Proof.
  revert acc.
  induction d as [|d IH|d IH|d IH|d IH|d IH|d IH|d IH|d IH|d IH|d IH];
    intros acc; simpl; [reflexivity|..]; rewrite IH; f_equal; lia.
Qed.

Lemma ufold_of_uint (d : Decimal.uint) : ufold d 0 = Z.of_N (Pos.of_uint d).
Proof.
  induction d as [|d IH|d IH|d IH|d IH|d IH|d IH|d IH|d IH|d IH|d IH];
    simpl; [reflexivity|exact IH|..]; rewrite ufold_of_uint_acc; reflexivity.
Qed.

Lemma ufold_to_uint (p : positive) : ufold (Pos.to_uint p) 0 = Z.pos p.
Proof. rewrite ufold_of_uint, DecimalPos.Unsigned.of_to. reflexivity. Qed.

Lemma to_uint_leading (p : positive) :
  exists c t, NilEmpty.string_of_uint (Pos.to_uint p) = String c t /\
              exists dgt, digit_of c = Some dgt /\ dgt <> 0.
Proof.
  pose proof (DecimalPos.Unsigned.to_uint_nonnil p) as Hnil.
  pose proof (DecimalPos.Unsigned.to_uint_nonzero p) as Hzero.
  pose proof (DecimalPos.Unsigned.to_of (Pos.to_uint p)) as Hnorm.
  rewrite DecimalPos.Unsigned.of_to in Hnorm. simpl in Hnorm.
  destruct (Pos.to_uint p) as [|d|d|d|d|d|d|d|d|d|d] eqn:E;
    [congruence| |simpl; eexists _, _; split; [reflexivity|eexists; split; [reflexivity|discriminate]]..].
  exfalso. unfold Decimal.unorm in Hnorm.
  destruct (Decimal.nzhead (Decimal.D0 d)) eqn:En; try discriminate Hnorm.
  - exact (Hzero Hnorm).
  - exact (nzhead_nonzero _ _ En).
Qed.

Lemma parse_digits_closes (c : ascii) (r : string) (acc len : Z) :
  closes c -> parse_digits (String c r) acc len = (acc, len, String c r).
Proof. intros [-> | ->]; reflexivity. Qed.

Lemma parse_int_text (z : Z) (c : ascii) (r : string) :
  0 <= z -> closes c ->
  parse_int (number_text z +:+ String c r) = POk z (String c r).
Proof.
  intros Hz Hc. destruct z as [|p|p]; [reflexivity| |lia].
  unfold number_text. simpl Z.to_int. unfold NilZero.string_of_int.
  pose proof (parse_digits_uint (Pos.to_uint p) (String c r) 0 0) as Hd.
  rewrite ufold_to_uint, (parse_digits_closes c r _ _ Hc) in Hd.
  destruct (to_uint_leading p) as (c0 & t & Ht & dgt & Hd0 & Hnz).
  assert (Hs : NilZero.string_of_uint (Pos.to_uint p) = String c0 t).
  { unfold NilZero.string_of_uint.
    destruct (Pos.to_uint p); try exact Ht. discriminate Ht. }
  rewrite Hs. rewrite Ht in Hd. simpl in Hd |- *. rewrite Hd0 in Hd |- *.
  replace (dgt =? 0) with false by (symmetry; apply Z.eqb_neq; exact Hnz).
  change (0 * 10 + dgt) with dgt in Hd. change (0 + 1) with 1 in Hd.
  rewrite Hd. reflexivity.
Qed.

Lemma parse_number_text (z : Z) (c : ascii) (r : string) :
  closes c ->
  exists q, parse_number (number_text z +:+ String c r) = POk q (String c r) /\
            q = inject_Z z.
Proof.
  intros Hc.
  assert (Htail : forall m, parse_frac m (String c r) = POk (m, 0) (String c r) /\
                            parse_exp (String c r) = POk 0 (String c r)).
  { intros m. destruct Hc as [-> | ->]; split; reflexivity. }
  destruct (Z_le_dec 0 z) as [Hz|Hz].
  - unfold parse_number.
    assert (Hsign : match number_text z +:+ String c r with
                    | String "-" r0 => (true, r0)
                    | _ => (false, number_text z +:+ String c r)
                    end = (false, number_text z +:+ String c r)).
    { destruct z as [|p|p]; [reflexivity| |lia].
      unfold number_text. simpl Z.to_int. unfold NilZero.string_of_int.
      destruct (to_uint_leading p) as (c0 & t & Ht & dgt & Hd0 & Hnz).
      assert (Hs : NilZero.string_of_uint (Pos.to_uint p) = String c0 t).
      { unfold NilZero.string_of_uint.
        destruct (Pos.to_uint p); try exact Ht. discriminate Ht. }
      rewrite Hs. simpl.
      destruct c0 as [[] [] [] [] [] [] [] []]; try reflexivity; discriminate Hd0. }
    rewrite Hsign, (parse_int_text z c r Hz Hc).
    destruct (Htail z) as [-> ->].
    eexists. split; [reflexivity|].
    unfold pow10. change (0 <=? 0 - 0) with true. cbv iota.
    change (10 ^ (0 - 0)) with 1. f_equal. lia.
  - destruct z as [|p|p]; try lia.
    unfold parse_number, number_text. simpl Z.to_int. unfold NilZero.string_of_int.
    change (String.append (String "-" ?a) ?b) with (String "-" (String.append a b)).
    pose proof (parse_int_text (Z.pos p) c r ltac:(lia) Hc) as Hint.
    unfold number_text in Hint. simpl Z.to_int in Hint.
    unfold NilZero.string_of_int in Hint.
    simpl. rewrite Hint.
    destruct (Htail (Z.pos p)) as [-> ->].
    eexists. split; [reflexivity|].
    unfold pow10. change (0 <=? 0 - 0) with true. cbv iota.
    change (10 ^ (0 - 0)) with 1. f_equal. lia.
Qed.

Lemma append_assoc (a b c : string) : (a +:+ b) +:+ c = a +:+ (b +:+ c).
Proof.
  induction a as [|x a IH]; [reflexivity|].
  change (String x a +:+ b) with (String x (a +:+ b)).
  change (String x (a +:+ b) +:+ c) with (String x ((a +:+ b) +:+ c)).
  change (String x a +:+ b +:+ c) with (String x (a +:+ b +:+ c)).
  f_equal. exact IH.
Qed.

Lemma parse_chars_quote (s rest : string) :
  parse_chars (quote_chars s +:+ dquote +:+ rest) = POk (units_of_string s) rest.
Proof.
  induction s as [|c s IH]; [reflexivity|].
  cbn [quote_chars units_of_string]. rewrite append_assoc.
  destruct c as [[] [] [] [] [] [] [] []]; simpl;
    change (String.append EmptyString ?t) with t; rewrite IH; reflexivity.
Qed.

Lemma string_of_units_of_string (s : string) :
  string_of_units (units_of_string s) = Some s.
Proof.
  induction s as [|c s IH]; simpl; [reflexivity|].
  rewrite IH.
  replace (N_of_ascii c <? 256)%N with true
    by (symmetry; apply N.ltb_lt, N_ascii_bounded).
  rewrite ascii_N_embedding. reflexivity.
Qed.

Lemma quote_app (k tail : string) :
  quote k +:+ tail = String (ascii_of_N 34) (quote_chars k +:+ dquote +:+ tail).
Proof. unfold quote. rewrite !append_assoc. reflexivity. Qed.

Lemma entry_text_app (e : Entry) (rest : string) :
  entry_text e +:+ rest =
  String "{" (quote "score" +:+ String ":" (number_text (Leaderboard.score e) +:+
  String "," (quote "date" +:+ String ":" (quote (date e) +:+
  String "," (quote "id" +:+ String ":" (number_text (id e) +:+
  String "}" rest)))))).
Proof. unfold entry_text. rewrite !append_assoc. reflexivity. Qed.

Lemma parse_value_string (fuel : nat) (d tail : string) :
  parse_value (S fuel) (quote d +:+ tail) = POk (JStr (units_of_string d)) tail.
Proof.
  rewrite quote_app. simpl. rewrite parse_chars_quote. reflexivity.
Qed.

Lemma number_text_leading (z : Z) :
  exists c0 t0, number_text z = String c0 t0 /\
                (c0 = "-"%char \/ exists dgt, digit_of c0 = Some dgt).
Proof.
  destruct z as [|p|p].
  - exists "0"%char, EmptyString. split; [reflexivity|right; eexists; reflexivity].
  - destruct (to_uint_leading p) as (c0 & t & Ht & dgt & Hd0 & _).
    exists c0, t. split; [|right; eexists; exact Hd0].
    unfold number_text. simpl Z.to_int. unfold NilZero.string_of_int, NilZero.string_of_uint.
    destruct (Pos.to_uint p); try exact Ht. discriminate Ht.
  - eexists "-"%char, _. split; [reflexivity|left; reflexivity].
Qed.

Lemma parse_value_number_gen (fuel : nat) (c0 : ascii) (t : string) (q : Q) (rest : string) :
  (c0 = "-"%char \/ exists dgt, digit_of c0 = Some dgt) ->
  parse_number (String c0 t) = POk q rest ->
  parse_value (S fuel) (String c0 t) = POk (JNum q) rest.
Proof.
  intros Hlead Hpn.
  assert (Hws : skip_ws (String c0 t) = String c0 t).
  { destruct Hlead as [-> | (dgt & Hd0)]; [reflexivity|].
    destruct c0 as [[] [] [] [] [] [] [] []]; try discriminate Hd0; reflexivity. }
  cbn [parse_value]. rewrite Hws. cbv zeta.
  assert (Htests : (N_of_ascii c0 =? 91)%N = false /\ (N_of_ascii c0 =? 123)%N = false /\
                   (N_of_ascii c0 =? 34)%N = false /\ (N_of_ascii c0 =? 116)%N = false /\
                   (N_of_ascii c0 =? 102)%N = false /\ (N_of_ascii c0 =? 110)%N = false).
  { destruct Hlead as [-> | (dgt & Hd0)]; [repeat split|].
    destruct c0 as [[] [] [] [] [] [] [] []]; try discriminate Hd0; repeat split. }
  destruct Htests as (-> & -> & -> & -> & -> & ->).
  rewrite Hpn. reflexivity.
Qed.

Lemma parse_value_number (fuel : nat) (z : Z) (c : ascii) (r : string) :
  closes c ->
  parse_value (S fuel) (number_text z +:+ String c r) =
  POk (JNum (inject_Z z)) (String c r).
Proof.
  intros Hc.
  destruct (parse_number_text z c r Hc) as (q & Hq & ->).
  destruct (number_text_leading z) as (c0 & t0 & Hz & Hlead).
  rewrite Hz in *.
  change (String c0 t0 +:+ String c r) with (String c0 (t0 +:+ String c r)) in *.
  apply parse_value_number_gen; assumption.
Qed.

Lemma parse_members_step (fuel : nat) (key tail : string) (acc : list (list N * value)) :
  parse_members (S fuel) (quote key +:+ String ":" tail) acc =
  match parse_value fuel tail with
  | POk v r3 =>
    match skip_ws r3 with
    | String "," r4 => parse_members fuel r4 ((units_of_string key, v) :: acc)
    | String "}" r4 => POk (JObj (rev ((units_of_string key, v) :: acc))) r4
    | _ => PErr
    end
  | other => other
  end.
Proof.
  rewrite quote_app. simpl. rewrite parse_chars_quote. reflexivity.
Qed.

Lemma parse_member_number (fuel : nat) (key : string) (z : Z) (r : string)
      (acc : list (list N * value)) :
  parse_members (S (S fuel)) (quote key +:+ String ":" (number_text z +:+ String "," r)) acc =
  parse_members (S fuel) r ((units_of_string key, JNum (inject_Z z)) :: acc).
Proof.
  rewrite parse_members_step, parse_value_number by (left; reflexivity).
  reflexivity.
Qed.

Lemma parse_member_string (fuel : nat) (key d r : string) (acc : list (list N * value)) :
  parse_members (S (S fuel)) (quote key +:+ String ":" (quote d +:+ String "," r)) acc =
  parse_members (S fuel) r ((units_of_string key, JStr (units_of_string d)) :: acc).
Proof.
  rewrite parse_members_step, parse_value_string. reflexivity.
Qed.

Lemma parse_member_last (fuel : nat) (key : string) (z : Z) (r : string)
      (acc : list (list N * value)) :
  parse_members (S (S fuel)) (quote key +:+ String ":" (number_text z +:+ String "}" r)) acc =
  POk (JObj (rev ((units_of_string key, JNum (inject_Z z)) :: acc))) r.
Proof.
  rewrite parse_members_step, parse_value_number by (right; reflexivity).
  reflexivity.
Qed.

Lemma parse_value_object (fuel : nat) (key tail : string) :
  parse_value (S fuel) (String "{" (quote key +:+ tail)) =
  parse_members fuel (quote key +:+ tail) [].
Proof. rewrite quote_app. reflexivity. Qed.

Lemma parse_value_entry (fuel : nat) (e : Entry) (rest : string) :
  parse_value (5 + fuel) (entry_text e +:+ rest) = POk (json_of_entry e) rest.
Proof.
  rewrite entry_text_app.
  change (5 + fuel)%nat with (S (S (S (S (S fuel))))).
  rewrite parse_value_object, parse_member_number, parse_member_string,
    parse_member_last.
  reflexivity.
Qed.

Lemma length_append (a b : string) :
  String.length (a +:+ b) = (String.length a + String.length b)%nat.
Proof.
  induction a as [|x a IH]; [reflexivity|].
  change (String x a +:+ b) with (String x (a +:+ b)). simpl. rewrite IH. reflexivity.
Qed.

Lemma entries_text_cons (e : Entry) (l : list Entry) (tail : string) :
  entries_text (e :: l) +:+ String "]" tail =
  match l with
  | [] => entry_text e +:+ String "]" tail
  | _ :: _ => entry_text e +:+ String "," (entries_text l +:+ String "]" tail)
  end.
Proof.
  destruct l as [|e' l]; [reflexivity|].
  cbn [entries_text]. rewrite !append_assoc. reflexivity.
Qed.

Lemma parse_elements_entries (l : list Entry) (fuel : nat) (acc : list value)
      (tail : string) :
  l <> [] -> (length l + 5 <= fuel)%nat ->
  parse_elements fuel (entries_text l +:+ String "]" tail) acc =
  POk (JArr (rev acc ++ map json_of_entry l)) tail.
Proof.
  revert fuel acc. induction l as [|e l IH]; intros fuel acc Hne Hfuel; [congruence|].
  destruct fuel as [|fuel]; [simpl in Hfuel; lia|].
  rewrite entries_text_cons.
  assert (Hf : exists f', fuel = (5 + f')%nat).
  { exists (fuel - 5)%nat. simpl in Hfuel. lia. }
  destruct Hf as [f' Hf'].
  destruct l as [|e' l].
  - cbn [parse_elements]. rewrite Hf', parse_value_entry. reflexivity.
  - cbn [parse_elements]. rewrite Hf' at 1. rewrite parse_value_entry.
    change (skip_ws (String "," ?t)) with (String "," t). cbv iota.
    rewrite IH; [|discriminate|simpl in Hfuel |- *; lia].
    simpl. rewrite <- app_assoc. reflexivity.
Qed.

Lemma entry_text_length (e : Entry) : (3 <= String.length (entry_text e))%nat.
Proof.
  unfold entry_text, quote. rewrite !length_append. simpl.
  do 3 apply le_n_S. apply Nat.le_0_l.
Qed.

Lemma entries_text_length (l : list Entry) :
  (3 * length l <= String.length (entries_text l))%nat.
Proof.
  induction l as [|e l IH]; [simpl; lia|].
  destruct l as [|e' l].
  - pose proof (entry_text_length e). simpl in *. lia.
  - change (entries_text (e :: e' :: l))
      with (entry_text e +:+ "," +:+ entries_text (e' :: l)).
    rewrite !length_append.
    pose proof (entry_text_length e).
    change (length (e :: e' :: l)) with (S (length (e' :: l))). lia.
Qed.

Lemma JSON_parse_stringify (l : list Entry) :
  JSON_parse (JSON_stringify l) = Returns (JArr (map json_of_entry l)).
Proof.
  destruct l as [|e l]; [reflexivity|].
  unfold JSON_parse, JSON_stringify.
  set (text := "[" +:+ entries_text (e :: l) +:+ "]").
  assert (Hlen : (length (e :: l) + 6 <= 2 * String.length text + 1)%nat).
  { subst text. rewrite !length_append.
    pose proof (entries_text_length (e :: l)).
    change (String.length "[") with 1%nat. change (String.length "]") with 1%nat.
    change (length (e :: l)) with (S (length l)) in *. lia. }
  destruct (2 * String.length text + 1)%nat as [|fuel]; [lia|].
  assert (Hstart : parse_value (S fuel) text =
                   parse_elements fuel (entries_text (e :: l) +:+ String "]" EmptyString) []).
  { subst text.
    change ("[" +:+ ?t) with (String "[" t).
    change (entries_text (e :: l) +:+ "]")
      with (entries_text (e :: l) +:+ String "]" EmptyString).
    rewrite entries_text_cons.
    destruct l as [|e' l]; rewrite entry_text_app; reflexivity. }
  rewrite Hstart, parse_elements_entries; [reflexivity|discriminate|lia].
Qed.

Lemma integer_of_inject_Z (z : Z) :
  Z.abs z <= MAX_SAFE_INTEGER -> integer_of (inject_Z z) = Some z.
Proof.
  intros Hz. unfold integer_of.
  rewrite Qred_identity by (simpl; apply Z.gcd_1_r).
  simpl. replace (Z.abs z <=? MAX_SAFE_INTEGER) with true; [reflexivity|].
  symmetry. apply Z.leb_le. exact Hz.
Qed.

Lemma entries_of_json_of_entries (l : list Entry) :
  Forall storable l -> entries_of_json (map json_of_entry l) = Some l.
Proof.
  induction 1 as [|e l [Hs Hi] Hl IH]; [reflexivity|].
  cbn [map entries_of_json]. rewrite IH.
  unfold entry_of_json, json_of_entry.
  rewrite !integer_of_inject_Z by assumption.
  rewrite string_of_units_of_string.
  unfold units_eqb. rewrite !bool_decide_eq_true_2 by reflexivity.
  destruct e; reflexivity.
Qed.

Lemma stored_holds (st : Storage) (l : list Entry) :
  Forall storable l -> holds (<[KEY := JSON_stringify l]> st) l.
Proof.
  intros Hl. exists (JArr (map json_of_entry l)). split.
  - unfold getLeaderboard. rewrite lookup_insert_eq.
    rewrite <- JSON_parse_stringify. reflexivity.
  - simpl. rewrite entries_of_json_of_entries by exact Hl. reflexivity.
Qed.

(** ** Sorting the leaderboard *)

Lemma insert_sorted_perm {A : Type} (cmp : A -> A -> Z) (e : A) (l : list A) :
  insert_sorted cmp e l ≡ₚ e :: l.
Proof.
  induction l as [|h t IH]; simpl; [reflexivity|].
  destruct (cmp e h <=? 0); [reflexivity|].
  rewrite IH. apply Permutation_swap.
Qed.

Lemma Array_sort_perm {A : Type} (cmp : A -> A -> Z) (l : list A) :
  Array_sort cmp l ≡ₚ l.
Proof.
  induction l as [|h t IH]; simpl; [reflexivity|].
  rewrite insert_sorted_perm, IH. reflexivity.
Qed.

Lemma insert_sorted_descending (e : Entry) (l : list Entry) :
  StronglySorted descending l ->
  StronglySorted descending (insert_sorted byScoreDesc e l).
Proof.
  induction l as [|h t IH]; intros Hs; simpl.
  - repeat constructor.
  - apply StronglySorted_cons in Hs as [Hh Ht].
    destruct (byScoreDesc e h <=? 0) eqn:E.
    + apply Z.leb_le in E. unfold byScoreDesc in E.
      apply StronglySorted_cons. split.
      * constructor; [unfold descending; lia|].
        eapply Forall_impl; [exact Hh|].
        intros b Hb. unfold descending in *. lia.
      * apply StronglySorted_cons. split; assumption.
    + apply Z.leb_gt in E. unfold byScoreDesc in E.
      apply StronglySorted_cons. split; [|apply IH; exact Ht].
      rewrite insert_sorted_perm.
      constructor; [unfold descending; lia|exact Hh].
Qed.

Lemma Array_sort_descending (l : list Entry) :
  StronglySorted descending (Array_sort byScoreDesc l).
Proof.
  induction l as [|h t IH]; simpl; [constructor|].
  apply insert_sorted_descending. exact IH.
Qed.

(** Sorting a sorted list changes nothing: entries of equal score stay in
    the order they had. *)
Lemma Array_sort_sorted (l : list Entry) :
  StronglySorted descending l -> Array_sort byScoreDesc l = l.
Proof.
  induction l as [|h t IH]; intros Hs; simpl; [reflexivity|].
  apply StronglySorted_cons in Hs as [Hh Ht].
  rewrite (IH Ht).
  destruct t as [|h' t']; simpl; [reflexivity|].
  apply Forall_cons in Hh as [Hh' _].
  replace (byScoreDesc h h' <=? 0) with true; [reflexivity|].
  symmetry. apply Z.leb_le. unfold byScoreDesc, descending in *. lia.
Qed.

(** Stability: the entries of any given score come out of the sort in the
    order they went in. *)
Lemma Array_sort_stable (k : Z) (l : list Entry) :
  filter (fun e => Leaderboard.score e = k) (Array_sort byScoreDesc l) =
  filter (fun e => Leaderboard.score e = k) l.
Proof.
  assert (Hins : forall e t,
            filter (fun e => Leaderboard.score e = k) (insert_sorted byScoreDesc e t) =
            filter (fun e => Leaderboard.score e = k) (e :: t)).
  { intros e t. induction t as [|h t IH]; simpl; [reflexivity|].
    destruct (byScoreDesc e h <=? 0) eqn:E; [reflexivity|].
    apply Z.leb_gt in E. unfold byScoreDesc in E.
    rewrite filter_cons, IH, !filter_cons.
    destruct (decide (Leaderboard.score h = k)) as [Hk|Hk];
      destruct (decide (Leaderboard.score e = k)) as [Hek|Hek]; try reflexivity; lia. }
  induction l as [|h t IH]; simpl; [reflexivity|].
  rewrite Hins, !filter_cons, IH. reflexivity.
Qed.

Lemma slice_take {A : Type} (n : nat) (l : list A) : slice 0 n l = take n l.
Proof. unfold slice. rewrite Nat.sub_0_r. reflexivity. Qed.

Lemma saveScore_holds (sc : Z) (clk : Clock) (st : Storage) (lb : list Entry) :
  holds st lb ->
  let updated := take 10 (Array_sort byScoreDesc
                            (lb ++ [mkEntry sc (today clk) (now clk)])) in
  saveScore sc clk st = Returns (updated, <[KEY := JSON_stringify updated]> st).
Proof.
  intros (parsed & Hget & Hspread) updated.
  unfold saveScore. rewrite Hget. simpl. rewrite Hspread. simpl.
  rewrite slice_take. reflexivity.
Qed.

(** ** The leaderboard store *)

Lemma integer_of_bounded (q : Q) (z : Z) :
  integer_of q = Some z -> Z.abs z <= MAX_SAFE_INTEGER.
Proof.
  unfold integer_of.
  destruct ((Qden (Qred q) =? 1)%positive && (Z.abs (Qnum (Qred q)) <=? MAX_SAFE_INTEGER))
    eqn:E; [|discriminate].
  intros [= <-]. apply andb_true_iff in E as [_ E]. apply Z.leb_le. exact E.
Qed.

Lemma entry_of_json_storable (v : value) (e : Entry) :
  entry_of_json v = Some e -> storable e.
Proof.
  unfold entry_of_json.
  destruct v as [| | | |items|members]; try discriminate.
  destruct members as [|[k1 [| |s| | |]] members]; try discriminate.
  destruct members as [|[k2 [| | |d| |]] members]; try discriminate.
  destruct members as [|[k3 [| |i| | |]] members]; try discriminate.
  destruct members; try discriminate.
  destruct (units_eqb k1 "score" && units_eqb k2 "date" && units_eqb k3 "id");
    [|discriminate].
  destruct (integer_of s) as [s'|] eqn:Es; [|discriminate].
  destruct (string_of_units d) as [d'|]; [|discriminate].
  destruct (integer_of i) as [i'|] eqn:Ei; [|discriminate].
  intros [= <-]. split; simpl; eapply integer_of_bounded; eassumption.
Qed.

Lemma holds_storable (st : Storage) (lb : list Entry) :
  holds st lb -> Forall storable lb.
Proof.
  intros (parsed & _ & Hspread). unfold spread in Hspread.
  destruct parsed as [| | |[|u us]|items|members]; try discriminate.
  - injection Hspread as <-. constructor.
  - destruct (entries_of_json items) as [l|] eqn:E; [|discriminate].
    injection Hspread as <-.
    revert l E. induction items as [|v items IH]; intros l E; simpl in E.
    + injection E as <-. constructor.
    + destruct (entry_of_json v) as [e|] eqn:Ev; [|discriminate].
      destruct (entries_of_json items) as [l'|]; [|discriminate].
      injection E as <-. constructor; [|apply IH; reflexivity].
      eapply entry_of_json_storable. exact Ev.
Qed.


(** C5.  Whatever leaderboard the store holds, resetting a game whose score
    is positive saves that score: the new leaderboard has
    [min 10 (previous length + 1)] entries in descending order of score; it
    is the first ten of the previous entries and the new one, sorted; the
    new entry carries the score, the date of the day and the clock reading
    as identity token; the store is overwritten with the new list, which
    loads back as written when its numbers are ones a double holds exactly,
    and the game is back to its ready state. *)
Theorem reset_commits_score (clk : Clock) (st : Storage) (a : App) (lb : list Entry) :
  holds st lb ->
  0 < score a ->
  let newEntry := mkEntry (score a) (today clk) (now clk) in
  exists updated,
    resetGame clk st a =
      Returns (<[KEY := JSON_stringify updated]> st,
               {| dimensions := dimensions a; gameState := ready; score := 0;
                  leaderboard := updated;
                  birdRef := {| y := inject_Z (height (dimensions a)) / 2;
                                velocity := 0; rotation := 0 |};
                  pipesRef := []; frameCountRef := 0; scoreRef := 0 |}) /\
    length updated = Nat.min 10 (length lb + 1) /\
    StronglySorted descending updated /\
    (exists sorted, sorted ≡ₚ lb ++ [newEntry] /\
                    StronglySorted descending sorted /\
                    updated = take 10 sorted) /\
    (score a <= MAX_SAFE_INTEGER -> Z.abs (now clk) <= MAX_SAFE_INTEGER ->
     holds (<[KEY := JSON_stringify updated]> st) updated).
Proof.
  intros Hholds Hpos newEntry.
  set (sorted := Array_sort byScoreDesc (lb ++ [newEntry])).
  exists (take 10 sorted).
  split; [|split; [|split; [|split]]].
  - unfold resetGame.
    replace (0 <? score a) with true by (symmetry; apply Z.ltb_lt; exact Hpos).
    rewrite (saveScore_holds (score a) clk st lb Hholds). reflexivity.
  - rewrite length_take. unfold sorted.
    rewrite (Permutation_length (Array_sort_perm byScoreDesc _)), length_app.
    reflexivity.
  - apply (StronglySorted_app_1_l _ _ (drop 10 sorted)).
    rewrite take_drop. apply Array_sort_descending.
  - exists sorted. split; [apply Array_sort_perm|].
    split; [apply Array_sort_descending|reflexivity].
  - intros Hscore Hnow. apply stored_holds, Forall_take.
    unfold sorted. rewrite Array_sort_perm.
    apply Forall_app. split; [exact (holds_storable st lb Hholds)|].
    repeat constructor; simpl; lia.
Qed.

Lemma reset_commits_score_witness :
  let clk := mkClock "02.11.2026" 1793606400000 in
  let st : Storage :=
    <[KEY := JSON_stringify [mkEntry 7 "30.10.2026" 1793347200000;
                             mkEntry 2 "31.10.2026" 1793433600000]]> ∅ in
  let a := mkApp (getGameDimensions 375) gameover 3 [] (mkBird 564 16 48) [] 32 3 in
  exists st' a',
    resetGame clk st a = Returns (st', a') /\
    map Leaderboard.score (leaderboard a') = [7; 3; 2] /\
    length (leaderboard a') = 3%nat.
Proof.
  intros clk st a.
  assert (Hholds : holds st [mkEntry 7 "30.10.2026" 1793347200000;
                             mkEntry 2 "31.10.2026" 1793433600000]).
  { eexists. split; [vm_compute; reflexivity|vm_compute; reflexivity]. }
  destruct (reset_commits_score clk st a _ Hholds eq_refl)
    as (updated & Hreset & Hlen & _ & (sorted & _ & _ & Hupd) & _).
  eexists _, _. split; [exact Hreset|].
  simpl. split; [|exact Hlen].
  assert (Hcomputed : resetGame clk st a = Returns
            (<[KEY := JSON_stringify [mkEntry 7 "30.10.2026" 1793347200000;
                                      mkEntry 3 "02.11.2026" 1793606400000;
                                      mkEntry 2 "31.10.2026" 1793433600000]]> st,
             mkApp (getGameDimensions 375) ready 0
                   [mkEntry 7 "30.10.2026" 1793347200000;
                    mkEntry 3 "02.11.2026" 1793606400000;
                    mkEntry 2 "31.10.2026" 1793433600000]
                   (mkBird (inject_Z 600 / 2) 0 0) [] 0 0)).
  { unfold resetGame. simpl.
    rewrite (saveScore_holds 3 clk st _ Hholds). reflexivity. }
  rewrite Hreset in Hcomputed. injection Hcomputed as _ Hlb.
  rewrite Hlb. reflexivity.
Defined.

Lemma same_score_descending (k : Z) (l : list Entry) :
  Forall (fun e => Leaderboard.score e = k) l -> StronglySorted descending l.
Proof.
  induction 1 as [|e l He Hl IH]; [constructor|].
  apply StronglySorted_cons. split; [|exact IH].
  eapply Forall_impl; [exact Hl|].
  intros b Hb. simpl in Hb. unfold descending. lia.
Qed.

(** C6.  With ten entries of score 50 in the store, saving another 50 sorts
    the new entry after the ten it ties with (the sort is stable: entries of
    equal score keep the order they had), and the cut to ten entries then
    returns and stores exactly the ten previous entries. *)
Theorem tie_goes_after_existing (clk : Clock) (st : Storage) (lb : list Entry) :
  holds st lb ->
  length lb = 10%nat ->
  Forall (fun e => Leaderboard.score e = 50) lb ->
  let newEntry := mkEntry 50 (today clk) (now clk) in
  Array_sort byScoreDesc (lb ++ [newEntry]) = lb ++ [newEntry] /\
  (forall k l, filter (fun e => Leaderboard.score e = k) (Array_sort byScoreDesc l) =
               filter (fun e => Leaderboard.score e = k) l) /\
  (forall updated st',
     saveScore 50 clk st = Returns (updated, st') ->
     length updated = 10%nat /\ updated = lb /\
     st' = <[KEY := JSON_stringify lb]> st) /\
  saveScore 50 clk st = Returns (lb, <[KEY := JSON_stringify lb]> st).
Proof.
  intros Hholds Hlen Hall newEntry.
  assert (Hsorted : Array_sort byScoreDesc (lb ++ [newEntry]) = lb ++ [newEntry]).
  { apply Array_sort_sorted, (same_score_descending 50).
    apply Forall_app. split; [exact Hall|]. repeat constructor. }
  assert (Hsave : saveScore 50 clk st = Returns (lb, <[KEY := JSON_stringify lb]> st)).
  { rewrite (saveScore_holds 50 clk st lb Hholds).
    fold newEntry. rewrite Hsorted, <- Hlen, take_app_length. reflexivity. }
  split; [exact Hsorted|]. split; [exact Array_sort_stable|].
  split; [|exact Hsave].
  intros updated st' Hret. rewrite Hsave in Hret.
  injection Hret as <- <-. auto.
Qed.

Lemma tie_goes_after_existing_witness :
  let clk := mkClock "02.11.2026" 1793606400000 in
  let lb := map (fun i => mkEntry 50 "01.11.2026" (1793520000000 + i)) (seqZ 0 10) in
  let st : Storage := <[KEY := JSON_stringify lb]> ∅ in
  length lb = 10%nat /\
  saveScore 50 clk st = Returns (lb, <[KEY := JSON_stringify lb]> st).
Proof.
  intros clk lb st.
  assert (Hholds : holds st lb).
  { eexists. split; [vm_compute; reflexivity|vm_compute; reflexivity]. }
  assert (Hall : Forall (fun e => Leaderboard.score e = 50) lb).
  { unfold lb. simpl. repeat (constructor; [reflexivity|]). constructor. }
  split; [reflexivity|].
  exact (proj2 (proj2 (proj2 (tie_goes_after_existing clk st lb Hholds eq_refl Hall)))).
Defined.

(** C1 (amended).  [getLeaderboard] returns the empty list when nothing, or
    the empty text, is stored under the key; on any other text it is
    [JSON.parse] of that text: it returns what a valid text denotes and
    throws a [SyntaxError] on a malformed one; and what it throws propagates
    through [saveScore] and through the reset of a game with a positive
    score. *)
Theorem getLeaderboard_cases (st : Storage) :
  (st !! KEY = None \/ st !! KEY = Some EmptyString ->
   getLeaderboard st = Returns (JArr [])) /\
  (forall data, st !! KEY = Some data -> data <> EmptyString ->
     getLeaderboard st = JSON_parse data /\
     ((exists v, getLeaderboard st = Returns v) \/
      getLeaderboard st = Throws SyntaxError)) /\
  (forall e, getLeaderboard st = Throws e ->
     (forall sc clk, saveScore sc clk st = Throws e) /\
     (forall clk a, 0 < score a -> resetGame clk st a = Throws e)).
Proof.
  split; [|split].
  - unfold getLeaderboard. intros [-> | ->]; reflexivity.
  - intros data Hdata Hne.
    assert (Hget : getLeaderboard st = JSON_parse data).
    { unfold getLeaderboard. rewrite Hdata.
      destruct data; [congruence|reflexivity]. }
    split; [exact Hget|]. rewrite Hget.
    pose proof (parse_never_out_of_fuel data) as Hfuel.
    unfold JSON_parse in *.
    destruct (parse_value _ data) as [v rest| |];
      [destruct (skip_ws rest); eauto|eauto|congruence].
  - intros e He.
    assert (Hsave : forall sc clk, saveScore sc clk st = Throws e).
    { intros sc clk. unfold saveScore. rewrite He. reflexivity. }
    split; [exact Hsave|].
    intros clk a Hpos. unfold resetGame.
    replace (0 <? score a) with true by (symmetry; apply Z.ltb_lt; exact Hpos).
    rewrite Hsave. reflexivity.
Qed.

Lemma getLeaderboard_cases_witness :
  let st : Storage := <[KEY := "[{"]> ∅ in
  let a := mkApp (getGameDimensions 375) gameover 3 [] (mkBird 564 16 48) [] 32 3 in
  getLeaderboard ∅ = Returns (JArr []) /\
  getLeaderboard st = JSON_parse "[{" /\
  resetGame (mkClock "02.11.2026" 1793606400000) st a = Throws SyntaxError.
Proof.
  intros st a.
  split; [apply (proj1 (getLeaderboard_cases ∅)); left; reflexivity|].
  destruct (getLeaderboard_cases st) as (_ & Hparse & Hthrow).
  split; [apply (Hparse "[{"%string); [reflexivity|discriminate]|].
  apply (Hthrow SyntaxError); [vm_compute; reflexivity|reflexivity].
Defined.

(** C1, as stated, fails on a store holding a truncated snapshot: the text
    is not valid JSON, and [getLeaderboard] throws a [SyntaxError] instead
    of returning the empty list; on a valid text that is no array it returns
    what the text denotes, not a list. *)
Lemma getLeaderboard_malformed_counterexample :
  getLeaderboard (<[KEY := "[{"]> ∅) = Throws SyntaxError /\
  getLeaderboard (<[KEY := "[{"]> ∅) <> Returns (JArr []) /\
  Js.returns (getLeaderboard (<[KEY := "[{"]> ∅)) = false /\
  getLeaderboard (<[KEY := "42"]> ∅) = Returns (JNum 42).
Proof.
  split; [vm_compute; reflexivity|].
  split; [vm_compute; discriminate|].
  split; vm_compute; reflexivity.
Qed.

(** * More properties of the game and of the leaderboard *)

Import Play Board.

(** ** The score and the pipes *)

Lemma count_cons (f : Pipe -> bool) (p : Pipe) (pipes : list Pipe) :
  count f (p :: pipes) = (if f p then 1 else 0) + count f pipes.
Proof. unfold count. simpl. destruct (f p); simpl length; lia. Qed.

Lemma count_nonneg (f : Pipe -> bool) (pipes : list Pipe) : 0 <= count f pipes.
Proof. unfold count. lia. Qed.

Lemma count_app (f : Pipe -> bool) (l1 l2 : list Pipe) :
  count f (l1 ++ l2) = count f l1 + count f l2.
Proof. unfold count. rewrite List.filter_app, length_app. lia. Qed.

Lemma updatePipes_cons (p : Pipe) (pipes : list Pipe) (sc : Z * Z) :
  updatePipes (p :: pipes) sc =
  let sc' := if creditDue p then (sc.1 + 1, sc.1 + 1) else sc in
  let p' := {| x := x p - PIPE_SPEED; topHeight := topHeight p;
               passed := if creditDue p then true else passed p |} in
  (if - PIPE_WIDTH <? x p - PIPE_SPEED
   then p' :: (updatePipes pipes sc').1 else (updatePipes pipes sc').1,
   (updatePipes pipes sc').2).
Proof.
  cbn [updatePipes]. unfold creditDue.
  destruct (updatePipes pipes _) as [kept sc'']. reflexivity.
Qed.

Lemma updatePipes_scoreRef (pipes : list Pipe) (sc : Z * Z) :
  (updatePipes pipes sc).2.1 = sc.1 + creditable pipes.
Proof.
  revert sc. induction pipes as [|p pipes IH]; intros sc.
  - unfold creditable, count. simpl. lia.
  - rewrite updatePipes_cons. cbn zeta. cbn [snd]. rewrite IH.
    unfold creditable. rewrite count_cons.
    destruct (creditDue p); simpl; lia.
Qed.

Lemma updatePipes_score (pipes : list Pipe) (sc : Z * Z) :
  (updatePipes pipes sc).2.2 =
  if creditable pipes =? 0 then sc.2 else sc.1 + creditable pipes.
Proof.
  revert sc. induction pipes as [|p pipes IH]; intros sc.
  - reflexivity.
  - rewrite updatePipes_cons. cbn zeta. cbn [snd]. rewrite IH.
    unfold creditable. rewrite count_cons.
    pose proof (count_nonneg creditDue pipes) as Hn.
    destruct (creditDue p); simpl fst; simpl snd.
    + replace (1 + count creditDue pipes =? 0) with false
        by (symmetry; apply Z.eqb_neq; lia).
      destruct (count creditDue pipes =? 0) eqn:E0; [apply Z.eqb_eq in E0|]; lia.
    + rewrite Z.add_0_l. reflexivity.
Qed.

Lemma updatePipes_unpassed (pipes : list Pipe) (sc : Z * Z) :
  unpassed (updatePipes pipes sc).1 = unpassed pipes - creditable pipes.
Proof.
  revert sc. induction pipes as [|p pipes IH]; intros sc.
  - reflexivity.
  - rewrite updatePipes_cons. cbn zeta. cbn [fst].
    specialize (IH (if creditDue p then (sc.1 + 1, sc.1 + 1) else sc)).
    set (rest := (updatePipes pipes _).1) in *.
    unfold unpassed, creditable in *.
    rewrite (count_cons _ p pipes), (count_cons creditDue p pipes).
    assert (Hdrop : (- PIPE_WIDTH <? x p - PIPE_SPEED) = false ->
                    negb (passed p) = creditDue p).
    { intros Hk. apply Z.ltb_ge in Hk. unfold creditDue.
      replace (x p - PIPE_SPEED + PIPE_WIDTH <? 100) with true;
        [rewrite andb_true_r; reflexivity|].
      symmetry. apply Z.ltb_lt. unfold PIPE_WIDTH, PIPE_SPEED in *. lia. }
    assert (Hdue : creditDue p = true -> negb (passed p) = true).
    { unfold creditDue. intros H. apply andb_true_iff in H. tauto. }
    destruct (- PIPE_WIDTH <? x p - PIPE_SPEED) eqn:Ek.
    + rewrite count_cons. cbn [passed].
      destruct (creditDue p) eqn:Ed.
      * rewrite (Hdue eq_refl). simpl. lia.
      * destruct (negb (passed p)); lia.
    + rewrite (Hdrop eq_refl). lia.
Qed.

Lemma playingFrame_scores (rnd : Q) (a : App) :
  scoreRef (playingFrame rnd a) =
    (updatePipes (spawnPipe (dimensions a) rnd (frameCountRef a + 1) (pipesRef a))
                 (scoreRef a, score a)).2.1 /\
  score (playingFrame rnd a) =
    (updatePipes (spawnPipe (dimensions a) rnd (frameCountRef a + 1) (pipesRef a))
                 (scoreRef a, score a)).2.2.
Proof.
  unfold playingFrame.
  destruct (updatePipes _ _) as [pipes [sref sc]]. split; reflexivity.
Qed.

Lemma unpassed_spawnPipe (d : Dimensions) (rnd : Q) (frame : Z) (pipes : list Pipe) :
  unpassed (spawnPipe d rnd frame pipes) =
  unpassed pipes + (if Z.rem frame 100 =? 0 then 1 else 0).
Proof.
  unfold spawnPipe, unpassed.
  destruct (Z.rem frame 100 =? 0); [|lia].
  rewrite count_app. reflexivity.
Qed.

Lemma accounted_apply (e : Event) (a : App) : accounted a -> accounted (apply e a).
Proof.
  intros [Hf Hacc]. destruct e as [rnd| |w]; simpl.
  - unfold tick, gameLoop; simpl.
    destruct (gameState a); try (split; assumption).
    unfold accounted.
    rewrite playingFrame_frameCountRef, playingFrame_pipes,
      (proj1 (playingFrame_scores rnd a)).
    rewrite updatePipes_scoreRef, updatePipes_unpassed, unpassed_spawnPipe.
    cbn [fst]. split; [lia|].
    destruct (Z.rem (frameCountRef a + 1) 100 =? 0) eqn:E.
    + apply Z.eqb_eq in E. rewrite Z.rem_mod_nonneg in E by lia.
      assert ((frameCountRef a + 1) / 100 = frameCountRef a / 100 + 1)
        by (Z.to_euclidean_division_equations; lia).
      lia.
    + apply Z.eqb_neq in E. rewrite Z.rem_mod_nonneg in E by lia.
      assert ((frameCountRef a + 1) / 100 = frameCountRef a / 100)
        by (Z.to_euclidean_division_equations; lia).
      lia.
  - unfold jump. destruct (gameState a); split; assumption.
  - unfold resize, canvasEffect, handleResize; simpl.
    destruct (gameState a); split; assumption.
Qed.

Lemma accounted_run (events : list Event) (a : App) :
  accounted a -> accounted (run events a).
Proof.
  revert a. induction events as [|e events IH]; intros a Ha; simpl; [exact Ha|].
  apply IH, accounted_apply, Ha.
Qed.

Lemma scoreRef_apply (e : Event) (a : App) : scoreRef a <= scoreRef (apply e a).
Proof.
  destruct e as [rnd| |w]; simpl.
  - unfold tick, gameLoop; simpl. destruct (gameState a); try lia.
    rewrite (proj1 (playingFrame_scores rnd a)), updatePipes_scoreRef. cbn [fst].
    pose proof (count_nonneg creditDue
      (spawnPipe (dimensions a) rnd (frameCountRef a + 1) (pipesRef a))).
    unfold creditable. lia.
  - unfold jump. destruct (gameState a); simpl; lia.
  - unfold resize, canvasEffect, handleResize; simpl.
    destruct (gameState a); simpl; lia.
Qed.

Lemma scoreRef_run (events : list Event) (a : App) :
  scoreRef a <= scoreRef (run events a).
Proof.
  revert a. induction events as [|e events IH]; intros a; simpl; [lia|].
  pose proof (scoreRef_apply e a). specialize (IH (apply e a)). lia.
Qed.

Lemma frameCountRef_run (events : list Event) (a : App) :
  frameCountRef a <= frameCountRef (run events a) <= frameCountRef a + frameCount events.
Proof.
  revert a. induction events as [|e events IH]; intros a.
  - unfold frameCount. simpl. lia.
  - simpl. specialize (IH (apply e a)).
    assert (Hstep : frameCountRef a <= frameCountRef (apply e a)
                    <= frameCountRef a + (if isFrame e then 1 else 0)).
    { destruct e as [rnd| |w]; simpl.
      - unfold tick, gameLoop; simpl. destruct (gameState a); try lia.
        rewrite playingFrame_frameCountRef. lia.
      - unfold jump. destruct (gameState a); simpl; lia.
      - unfold resize, canvasEffect, handleResize; simpl.
        destruct (gameState a); simpl; lia. }
    assert (Hcount : frameCount (e :: events) =
                     (if isFrame e then 1 else 0) + frameCount events).
    { unfold frameCount. rewrite filter_cons.
      destruct (isFrame e).
      - rewrite decide_True by reflexivity. simpl length. lia.
      - rewrite decide_False by discriminate. lia. }
    rewrite Hcount. lia.
Qed.

(** X1.  In a run that starts without pipes and with its counters at
    zero, every pipe spawned so far (one per hundred frames counted) is
    either on screen and not passed yet, or counted in the score: no pipe is
    credited twice or dropped uncredited.  The frame counter never exceeds
    the number of frames of the run. *)
Theorem pipes_accounted (events : list Event) (a : App) :
  pipesRef a = [] -> frameCountRef a = 0 -> scoreRef a = 0 ->
  let a' := run events a in
  scoreRef a' + unpassed (pipesRef a') = frameCountRef a' / 100 /\
  0 <= scoreRef a' /\
  0 <= frameCountRef a' <= frameCount events.
Proof.
  intros Hp Hf Hs a'.
  assert (Hacc : accounted a).
  { unfold accounted. rewrite Hp, Hf, Hs. split; [lia|reflexivity]. }
  destruct (accounted_run events a Hacc) as [Hf' Hacc'].
  pose proof (scoreRef_run events a) as Hmono.
  pose proof (frameCountRef_run events a) as Hframes.
  fold a' in Hf', Hacc', Hmono, Hframes.
  split; [exact Hacc'|]. split; lia.
Qed.

Lemma pipes_accounted_witness :
  let a' := run (hoverRun 330) (initial 375) in
  scoreRef a' = 2 /\ unpassed (pipesRef a') = 1 /\ frameCountRef a' = 330.
Proof.
  destruct (pipes_accounted (hoverRun 330) (initial 375) eq_refl eq_refl eq_refl)
    as (Hacc & _ & _).
  assert (Hs : scoreRef (run (hoverRun 330) (initial 375)) = 2) by (vm_compute; reflexivity).
  assert (Hf : frameCountRef (run (hoverRun 330) (initial 375)) = 330)
    by (vm_compute; reflexivity).
  rewrite Hs, Hf in Hacc. change (330 / 100) with 3 in Hacc.
  split; [exact Hs|]. split; [lia|exact Hf].
Defined.

Lemma score_synced_apply (e : Event) (a : App) :
  score a = scoreRef a -> score (apply e a) = scoreRef (apply e a).
Proof.
  intros Hs. destruct e as [rnd| |w]; simpl.
  - unfold tick, gameLoop; simpl. destruct (gameState a); try exact Hs.
    destruct (playingFrame_scores rnd a) as [-> ->].
    rewrite updatePipes_scoreRef, updatePipes_score. cbn [fst snd].
    destruct (creditable _ =? 0) eqn:E; [apply Z.eqb_eq in E; lia|reflexivity].
  - unfold jump. destruct (gameState a); exact Hs.
  - unfold resize, canvasEffect, handleResize; simpl.
    destruct (gameState a); exact Hs.
Qed.

(** X2.  The score on screen follows the score counter of the loop: equal
    at the start of a run, they are equal after any frames, flaps and
    resizes, and the score never goes down. *)
Theorem score_mirrors_counter (events : list Event) (a : App) :
  score a = scoreRef a ->
  score (run events a) = scoreRef (run events a) /\
  score a <= score (run events a).
Proof.
  intros Hs.
  assert (Hsync : score (run events a) = scoreRef (run events a)).
  { revert a Hs. induction events as [|e events IH]; intros a Hs; simpl; [exact Hs|].
    apply IH, score_synced_apply, Hs. }
  split; [exact Hsync|].
  rewrite Hsync, Hs. apply scoreRef_run.
Qed.

Lemma score_mirrors_counter_witness :
  let a' := run (hoverRun 230) (initial 375) in
  score a' = scoreRef a' /\ 0 <= score a'.
Proof.
  exact (score_mirrors_counter (hoverRun 230) (initial 375) eq_refl).
Defined.

Lemma updatePipes_consistent (pipes : list Pipe) (sc : Z * Z) :
  Forall (fun p => passed p = true -> x p + PIPE_WIDTH < 100) pipes ->
  Forall pipeConsistent (updatePipes pipes sc).1.
Proof.
  intros Hall. revert sc.
  induction Hall as [|p pipes Hp Hrest IH]; intros sc; [constructor|].
  rewrite updatePipes_cons. cbn zeta. cbn [fst].
  destruct (- PIPE_WIDTH <? x p - PIPE_SPEED) eqn:Ek; [|apply IH].
  constructor; [|apply IH].
  apply Z.ltb_lt in Ek. split; [|exact Ek]. cbn [passed x].
  unfold creditDue.
  destruct (passed p) eqn:Ep; simpl.
  - specialize (Hp eq_refl). symmetry. apply Z.ltb_lt.
    unfold PIPE_SPEED. lia.
  - destruct (x p - PIPE_SPEED + PIPE_WIDTH <? 100); reflexivity.
Qed.

Lemma pipeConsistent_apply (e : Event) (a : App) :
  Forall pipeConsistent (pipesRef a) -> Forall pipeConsistent (pipesRef (apply e a)).
Proof.
  intros Hall. destruct e as [rnd| |w]; simpl.
  - unfold tick, gameLoop; simpl. destruct (gameState a); try exact Hall.
    rewrite playingFrame_pipes. apply updatePipes_consistent.
    assert (Hold : Forall (fun p => passed p = true -> x p + PIPE_WIDTH < 100)
                          (pipesRef a)).
    { eapply Forall_impl; [exact Hall|].
      intros p [Hp _] Ht. rewrite Ht in Hp. symmetry in Hp.
      apply Z.ltb_lt in Hp. exact Hp. }
    unfold spawnPipe. destruct (Z.rem _ _ =? 0); [|exact Hold].
    apply Forall_app. split; [exact Hold|].
    constructor; [simpl; discriminate|constructor].
  - unfold jump. destruct (gameState a); exact Hall.
  - unfold resize, canvasEffect, handleResize; simpl.
    destruct (gameState a); exact Hall.
Qed.

Lemma pipeConsistent_run (events : list Event) (a : App) :
  Forall pipeConsistent (pipesRef a) ->
  Forall pipeConsistent (pipesRef (run events a)).
Proof.
  revert a. induction events as [|e events IH]; intros a Hc; simpl; [exact Hc|].
  apply IH, pipeConsistent_apply, Hc.
Qed.



(** ** Collisions with pipes *)

Lemma overlaps_topPipe (b : Bird) (p : Pipe) :
  overlaps (birdRect b) (topPipe p) = true <->
  27 < x p < 113 /\ (y b - 13 < inject_Z (topHeight p))%Q /\ (- (13) < y b)%Q.
Proof.
  unfold overlaps. rewrite !andb_true_iff, !Qltb_lt. simpl.
  assert (El : (100 - BIRD_SIZE / 2 + 4 == inject_Z 87)%Q) by reflexivity.
  assert (Er : (100 + BIRD_SIZE / 2 - 4 == inject_Z 113)%Q) by reflexivity.
  assert (Eh : (BIRD_SIZE / 2 == 17)%Q) by reflexivity.
  rewrite El, Er, Eh, <- !Zlt_Qlt. unfold PIPE_WIDTH.
  split.
  - intros [[[H1 H2] H3] H4]. split; [lia|]. split; lra.
  - intros [H1 [H2 H3]]. repeat split; try lia; lra.
Qed.

Lemma overlaps_bottomPipe (d : Dimensions) (b : Bird) (p : Pipe) :
  overlaps (birdRect b) (bottomPipe d p) = true <->
  27 < x p < 113 /\ (y b - 13 < inject_Z (height d))%Q /\
  (inject_Z (topHeight p + PIPE_GAP) < y b + 13)%Q.
Proof.
  unfold overlaps. rewrite !andb_true_iff, !Qltb_lt. simpl.
  assert (El : (100 - BIRD_SIZE / 2 + 4 == inject_Z 87)%Q) by reflexivity.
  assert (Er : (100 + BIRD_SIZE / 2 - 4 == inject_Z 113)%Q) by reflexivity.
  assert (Eh : (BIRD_SIZE / 2 == 17)%Q) by reflexivity.
  rewrite El, Er, Eh, <- !Zlt_Qlt. unfold PIPE_WIDTH.
  split.
  - intros [[[H1 H2] H3] H4]. split; [lia|]. split; lra.
  - intros [H1 [H2 H3]]. repeat split; try lia; lra.
Qed.

Lemma pipeCollision_exists (d : Dimensions) (b : Bird) (pipes : list Pipe) :
  pipeCollision d b pipes = true <->
  exists p, p ∈ pipes /\
            (overlaps (birdRect b) (topPipe p) = true \/
             overlaps (birdRect b) (bottomPipe d p) = true).
Proof.
  unfold pipeCollision. rewrite existsb_exists.
  split; intros (p & Hin & Hp); exists p.
  - apply list_elem_of_In in Hin. apply orb_true_iff in Hp. auto.
  - apply list_elem_of_In in Hin. rewrite orb_true_iff. auto.
Qed.

(** X4.  The bird hits a pipe exactly when some pipe has its left edge
    strictly between 27 and 113 and the bird's hitbox, 13 above and below
    its centre, reaches above the lower end of the top part or below the
    upper end of the bottom part, 160 lower. *)
Theorem pipe_hits_iff (d : Dimensions) (b : Bird) (pipes : list Pipe) :
  pipeCollision d b pipes = true <->
  exists p, p ∈ pipes /\ 27 < x p < 113 /\
    (((y b - 13 < inject_Z (topHeight p))%Q /\ (- (13) < y b)%Q) \/
     ((y b - 13 < inject_Z (height d))%Q /\
      (inject_Z (topHeight p + 160) < y b + 13)%Q)).
Proof.
  rewrite pipeCollision_exists.
  split; intros (p & Hin & Hp); exists p; (split; [exact Hin|]).
  - destruct Hp as [Hp|Hp].
    + apply overlaps_topPipe in Hp. tauto.
    + apply overlaps_bottomPipe in Hp. unfold PIPE_GAP in Hp. tauto.
  - destruct Hp as [Hx [Hp|Hp]].
    + left. apply overlaps_topPipe. tauto.
    + right. apply overlaps_bottomPipe. unfold PIPE_GAP. tauto.
Qed.

Lemma above_screen_no_hit (d : Dimensions) (b : Bird) (pipes : list Pipe) :
  (y b <= - (13))%Q ->
  Forall (fun p => 0 <= topHeight p + PIPE_GAP) pipes ->
  pipeCollision d b pipes = false.
Proof.
  intros Hy Hall. destruct (pipeCollision d b pipes) eqn:E; [exfalso|reflexivity].
  apply pipeCollision_exists in E as (p & Hin & [Hp|Hp]).
  - apply overlaps_topPipe in Hp as (_ & _ & H). lra.
  - apply overlaps_bottomPipe in Hp as (_ & _ & H).
    rewrite Forall_forall in Hall. specialize (Hall p Hin).
    assert (H0 : (0 <= inject_Z (topHeight p + PIPE_GAP))%Q).
    { change 0%Q with (inject_Z 0). rewrite <- Zle_Qle. exact Hall. }
    lra.
Qed.

Lemma flapEveryFrame_snoc (rnds : list Q) (rnd : Q) :
  flapEveryFrame (rnds ++ [rnd]) = flapEveryFrame rnds ++ [Flap; Frame rnd].
Proof. unfold flapEveryFrame. rewrite flat_map_app. simpl. reflexivity. Qed.

Lemma flapEveryFrame_inRange (rnds : list Q) :
  Forall (fun rnd => (0 <= rnd)%Q /\ (rnd < 1)%Q) rnds ->
  Forall randomInRange (flapEveryFrame rnds).
Proof.
  induction 1 as [|rnd rnds Hr Hrest IH]; [constructor|].
  simpl. constructor; [exact I|]. constructor; [exact Hr|exact IH].
Qed.

Lemma run_topHeights_positive (innerWidth : Z) (events : list Event) :
  Forall randomInRange events ->
  Forall (fun p => 0 <= topHeight p + PIPE_GAP)
         (pipesRef (run events (initial innerWidth))).
Proof.
  intros Hev. apply Forall_forall. intros p Hin.
  assert (Hh : topHeight p ∈ map topHeight (pipesRef (run events (initial innerWidth)))).
  { apply list_elem_of_fmap. exists p. split; [reflexivity|exact Hin]. }
  apply (topHeight_fixed_at_spawn events (initial innerWidth)) in Hh;
    [|exists innerWidth; reflexivity|reflexivity|exact Hev].
  destruct Hh as (pre & rnd & post & _ & _ & _ & _ & Hrange).
  unfold PIPE_GAP. lia.
Qed.

(** X5.  The playfield has no ceiling: a player who flaps before every
    frame never loses.  The bird climbs 8.5 pixels per frame, leaves the
    screen at the top and passes over every pipe; after any number of
    frames the game is still playing. *)
Theorem flapping_every_frame_never_loses (innerWidth : Z) (rnds : list Q) :
  Forall (fun rnd => (0 <= rnd)%Q /\ (rnd < 1)%Q) rnds ->
  rnds <> [] ->
  let d := getGameDimensions innerWidth in
  let n := Z.of_nat (length rnds) in
  let a := run (flapEveryFrame rnds) (initial innerWidth) in
  gameState a = playing /\
  frameCountRef a = n /\
  (y (birdRef a) == inject_Z (height d) / 2 - (17 # 2) * inject_Z n)%Q.
Proof.
  intros Hrnds Hne d n a.
  assert (Hinv : forall rs,
            Forall (fun rnd => (0 <= rnd)%Q /\ (rnd < 1)%Q) rs ->
            let s := run (flapEveryFrame rs) (initial innerWidth) in
            let k := Z.of_nat (length rs) in
            gameState s = (if decide (rs = []) then ready else playing) /\
            frameCountRef s = k /\ dimensions s = d /\
            (k < 100 -> pipesRef s = []) /\
            (y (birdRef s) == inject_Z (height d) / 2 - (17 # 2) * inject_Z k)%Q).
  { clear. intros rs. induction rs as [|r rs IH] using rev_ind; intros Hrs.
    - simpl. repeat split; try reflexivity.
      unfold d. generalize (inject_Z (height (getGameDimensions innerWidth))).
      intros h. field.
    - apply Forall_app in Hrs as [Hrs Hr].
      destruct (IH Hrs) as (Hg & Hf & Hd & Hp & Hy). clear IH.
      rewrite flapEveryFrame_snoc, run_app.
      set (s := run (flapEveryFrame rs) (initial innerWidth)) in *.
      cbn zeta. rewrite length_app. simpl length.
      set (k := Z.of_nat (length rs)) in *.
      replace (Z.of_nat (length rs + 1)) with (k + 1) by (subst k; lia).
      rewrite decide_False by (intros H; destruct rs; discriminate H).
      simpl run.
      set (j := jump s).
      assert (Hj : gameState j = playing /\ birdRef j =
                   mkBird (y (birdRef s)) JUMP_STRENGTH (rotation (birdRef s)) /\
                   pipesRef j = pipesRef s /\ frameCountRef j = frameCountRef s /\
                   dimensions j = dimensions s).
      { subst j. unfold jump. destruct (decide (rs = [])); rewrite Hg; simpl; repeat split; exact Hg. }
      destruct Hj as (Hjg & Hjb & Hjp & Hjf & Hjd).
      rewrite (tick_playing r j Hjg).
      rewrite playingFrame_frameCountRef, playingFrame_dimensions,
        playingFrame_gameState, playingFrame_birdRef, Hjf, Hf, Hjd, Hd, Hjb.
      assert (Hy' : (y (updateBird (mkBird (y (birdRef s)) JUMP_STRENGTH
                                           (rotation (birdRef s))))
                     == inject_Z (height d) / 2 - (17 # 2) * inject_Z (k + 1))%Q).
      { simpl. rewrite Hy, inject_Z_plus. unfold JUMP_STRENGTH, GRAVITY.
        change (inject_Z 1) with 1%Q.
        generalize (inject_Z (height d)) (inject_Z k). intros h q. field. }
      assert (Hk0 : 0 <= k) by (subst k; lia).
      assert (Hh : 600 <= height d <= 900).
      { pose proof (getGameDimensions_height innerWidth) as H. simpl in H.
        fold d in H. lia. }
      assert (Hhq : (600 <= inject_Z (height d))%Q /\ (inject_Z (height d) <= 900)%Q).
      { split; [change 600%Q with (inject_Z 600)|change 900%Q with (inject_Z 900)];
          rewrite <- Zle_Qle; lia. }
      assert (Hkq : (0 <= inject_Z k)%Q).
      { change 0%Q with (inject_Z 0). rewrite <- Zle_Qle. exact Hk0. }
      assert (Hground : groundCollision d (updateBird (mkBird (y (birdRef s))
                          JUMP_STRENGTH (rotation (birdRef s)))) = false).
      { destruct (groundCollision d _) eqn:E; [exfalso|reflexivity].
        apply groundCollision_spec in E. rewrite Hy', inject_Z_plus in E.
        change (inject_Z 1) with 1%Q in E.
        unfold Qdiv in E. change (/ 2)%Q with (1 # 2)%Q in E.
        revert E Hhq Hkq. generalize (inject_Z (height d)) (inject_Z k).
        intros h q. lra. }
      rewrite Hground. simpl orb.
      assert (Hpipes' : (k + 1 < 100 -> pipesRef (playingFrame r j) = [])).
      { intros Hlt. rewrite playingFrame_pipes, Hjp, Hp, Hjf, Hf by lia.
        unfold spawnPipe.
        replace (Z.rem (k + 1) 100 =? 0) with false; [reflexivity|].
        symmetry. apply Z.eqb_neq. rewrite Z.rem_small; lia. }
      assert (Hnohit : pipeCollision d (updateBird (mkBird (y (birdRef s))
                          JUMP_STRENGTH (rotation (birdRef s))))
                         (pipesRef (playingFrame r j)) = false).
      { destruct (Z_lt_le_dec (k + 1) 100) as [Hlt|Hge].
        - rewrite (Hpipes' Hlt). reflexivity.
        - apply above_screen_no_hit.
          + rewrite Hy', inject_Z_plus. change (inject_Z 1) with 1%Q.
            unfold Qdiv. change (/ 2)%Q with (1 # 2)%Q.
            assert (Hk99 : (99 <= inject_Z k)%Q).
            { change 99%Q with (inject_Z 99). rewrite <- Zle_Qle. lia. }
            revert Hhq Hk99. generalize (inject_Z (height d)) (inject_Z k).
            intros h q. lra.
          + rewrite <- (tick_playing r j Hjg).
            change (tick r j) with (run [Flap; Frame r] s).
            subst s. rewrite <- run_app, <- flapEveryFrame_snoc.
            apply run_topHeights_positive, flapEveryFrame_inRange.
            apply Forall_app. split; assumption. }
      rewrite Hnohit.
      split; [reflexivity|]. split; [reflexivity|]. split; [reflexivity|].
      split; [exact Hpipes'|exact Hy']. }
  destruct (Hinv rnds Hrnds) as (Hg & Hf & _ & _ & Hy).
  rewrite decide_False in Hg by exact Hne.
  split; [exact Hg|]. split; [exact Hf|exact Hy].
Qed.

Lemma flapping_every_frame_never_loses_witness :
  let a := run (flapEveryFrame (repeat (1 # 2) 400)) (initial 375) in
  gameState a = playing /\ frameCountRef a = 400.
Proof.
  assert (Hr : Forall (fun rnd => (0 <= rnd)%Q /\ (rnd < 1)%Q) (repeat (1 # 2) 400)).
  { apply Forall_forall. intros r Hin. apply list_elem_of_In, repeat_spec in Hin.
    subst r. split; [discriminate|reflexivity]. }
  destruct (flapping_every_frame_never_loses 375 (repeat (1 # 2) 400) Hr)
    as (Hg & Hf & _); [discriminate|].
  split; [exact Hg|]. rewrite Hf. rewrite repeat_length. reflexivity.
Defined.

(** ** Game over and reset *)

Lemma gameover_apply (e : Event) (a : App) :
  gameState a = gameover ->
  let a' := apply e a in
  gameState a' = gameover /\ pipesRef a' = pipesRef a /\ score a' = score a /\
  scoreRef a' = scoreRef a /\ frameCountRef a' = frameCountRef a /\
  velocity (birdRef a') = velocity (birdRef a) /\
  leaderboard a' = leaderboard a /\
  (isResize e = false -> a' = a).
Proof.
  intros Hover. destruct e as [rnd| |w]; simpl.
  - unfold tick, gameLoop. rewrite Hover. simpl. repeat split; assumption.
  - unfold jump. rewrite Hover. repeat split; assumption.
  - unfold resize, canvasEffect, handleResize. simpl. rewrite Hover. simpl.
    repeat split; try assumption. discriminate.
Qed.

(** X6.  Once the game is over, nothing but a reset goes on: frames,
    flaps and resizes leave the state [gameover], the pipes, both scores,
    the frame counter, the velocity and the leaderboard; without a resize
    the whole state is unchanged. *)
Theorem game_over_until_reset (events : list Event) (a : App) :
  gameState a = gameover ->
  let a' := run events a in
  gameState a' = gameover /\ pipesRef a' = pipesRef a /\ score a' = score a /\
  scoreRef a' = scoreRef a /\ frameCountRef a' = frameCountRef a /\
  velocity (birdRef a') = velocity (birdRef a) /\
  leaderboard a' = leaderboard a /\
  (forallb (fun e => negb (isResize e)) events = true -> a' = a).
Proof.
  revert a. induction events as [|e events IH]; intros a Hover; simpl.
  - repeat split; assumption.
  - destruct (gameover_apply e a Hover) as (Hg & Hp & Hs & Hr & Hf & Hv & Hl & Hsame).
    destruct (IH (apply e a) Hg) as (Hg' & Hp' & Hs' & Hr' & Hf' & Hv' & Hl' & Hsame').
    repeat split; try congruence.
    intros Hno. apply andb_true_iff in Hno as [He Hrest].
    rewrite (Hsame' Hrest). apply Hsame.
    destruct (isResize e); [discriminate|reflexivity].
Qed.

Lemma game_over_until_reset_witness :
  let a := run (repeat (Frame (1 # 2)) 32) (released 375) in
  gameState a = gameover /\
  run [Flap; Frame (1 # 3); Flap; Frame (1 # 4)] a = a.
Proof.
  intros a.
  assert (Hover : gameState a = gameover) by (vm_compute; reflexivity).
  split; [exact Hover|].
  destruct (game_over_until_reset [Flap; Frame (1 # 3); Flap; Frame (1 # 4)] a Hover)
    as (_ & _ & _ & _ & _ & _ & _ & Hsame).
  apply Hsame. reflexivity.
Defined.

(** ** The flight of the bird *)

Lemma ticks_flight (rnds : list Q) (a : App) :
  everyFramePlayed (map Frame rnds) a = true ->
  let n := inject_Z (Z.of_nat (length rnds)) in
  let a' := ticks rnds a in
  (velocity (birdRef a') == velocity (birdRef a) + (1 # 2) * n)%Q /\
  (y (birdRef a') == y (birdRef a) + n * velocity (birdRef a)
                     + (1 # 2) * n * (n + 1) / 2)%Q.
Proof.
  revert a. induction rnds as [|rnd rnds IH]; intros a Hplayed.
  - cbn zeta. unfold ticks. simpl. change (inject_Z 0) with 0%Q.
    split; [ring|field].
  - simpl in Hplayed. apply andb_true_iff in Hplayed as [Hnow Hlater].
    assert (Hplay : gameState a = playing).
    { unfold isPlaying in Hnow. destruct (gameState a); congruence. }
    unfold ticks in *. simpl map. simpl run.
    destruct (IH (tick rnd a) Hlater) as [Hv Hy]. cbn zeta in Hv, Hy.
    rewrite (tick_playing rnd a Hplay), playingFrame_birdRef in Hv, Hy.
    simpl in Hv, Hy. cbn zeta.
    rewrite (tick_playing rnd a Hplay).
    replace (Z.of_nat (length (rnd :: rnds))) with (Z.of_nat (length rnds) + 1)
      by (simpl length; lia).
    rewrite inject_Z_plus. change (inject_Z 1) with 1%Q.
    rewrite Hv, Hy. unfold GRAVITY.
    generalize (inject_Z (Z.of_nat (length rnds))) (velocity (birdRef a))
               (y (birdRef a)).
    intros n v0 y0. split; [ring|field].
Qed.

(** X7.  Between two flaps the bird is in uniformly accelerated motion:
    after [n] frames, all of them played, the velocity has grown by [n / 2],
    the bird has moved by [n] times the starting velocity plus
    [n (n + 1) / 4], and the frame counter has advanced by [n]. *)
Theorem flight_formula (rnds : list Q) (a : App) :
  everyFramePlayed (map Frame rnds) a = true ->
  let n := Z.of_nat (length rnds) in
  let a' := ticks rnds a in
  (velocity (birdRef a') == velocity (birdRef a) + (1 # 2) * inject_Z n)%Q /\
  (y (birdRef a') == y (birdRef a) + inject_Z n * velocity (birdRef a)
                     + (1 # 2) * inject_Z n * (inject_Z n + 1) / 2)%Q /\
  frameCountRef a' = frameCountRef a + n.
Proof.
  intros Hplayed n a'.
  destruct (ticks_flight rnds a Hplayed) as [Hv Hy].
  split; [exact Hv|]. split; [exact Hy|]. clear Hv Hy.
  subst n a'. revert a Hplayed. unfold ticks.
  induction rnds as [|rnd rnds IH]; intros a Hplayed; [simpl; lia|].
  simpl in Hplayed. apply andb_true_iff in Hplayed as [Hnow Hlater].
  assert (Hplay : gameState a = playing).
  { unfold isPlaying in Hnow. destruct (gameState a); congruence. }
  simpl map. simpl run. rewrite (IH (tick rnd a) Hlater).
  rewrite (tick_playing rnd a Hplay), playingFrame_frameCountRef.
  simpl length. lia.
Qed.

Lemma flight_formula_witness :
  let a' := ticks (repeat (1 # 2) 18) (jump (initial 375)) in
  (velocity (birdRef a') == 0)%Q /\ (y (birdRef a') == 447 # 2)%Q.
Proof.
  assert (Hplayed : everyFramePlayed (map Frame (repeat (1 # 2) 18))
                                     (jump (initial 375)) = true)
    by (vm_compute; reflexivity).
  destruct (flight_formula (repeat (1 # 2) 18) (jump (initial 375)) Hplayed)
    as (Hv & Hy & _).
  split; [apply (Qeq_trans _ _ _ Hv)|apply (Qeq_trans _ _ _ Hy)];
    vm_compute; reflexivity.
Defined.

(** X8.  A reset that returns leaves the game ready, with both scores and
    the frame counter at zero, no pipe, and the bird at rest at mid-height;
    resetting again at once changes neither the game nor the store: a
    score is committed once.  With no point scored the first reset leaves
    the store and the leaderboard alone as well. *)
Theorem reset_is_idempotent (clk clk' : Clock) (st st1 : Storage) (a a1 : App) :
  resetGame clk st a = Returns (st1, a1) ->
  resetGame clk' st1 a1 = Returns (st1, a1) /\
  gameState a1 = ready /\ score a1 = 0 /\ scoreRef a1 = 0 /\
  pipesRef a1 = [] /\ frameCountRef a1 = 0 /\
  dimensions a1 = dimensions a /\
  birdRef a1 = mkBird (inject_Z (height (dimensions a)) / 2) 0 0 /\
  (score a <= 0 -> st1 = st /\ leaderboard a1 = leaderboard a).
Proof.
  unfold resetGame. intros Hreset.
  destruct (0 <? score a) eqn:Epos.
  - destruct (saveScore (score a) clk st) as [[lb st']| |] eqn:Esave;
      try discriminate.
    simpl in Hreset. injection Hreset as <- <-.
    repeat split; try reflexivity; apply Z.ltb_lt in Epos; lia.
  - simpl in Hreset. injection Hreset as <- <-.
    repeat split; reflexivity.
Qed.

Lemma reset_is_idempotent_witness :
  let a := mkApp (getGameDimensions 375) gameover 3 [] (mkBird 564 16 48) [] 532 3 in
  exists st1 a1,
    resetGame (mkClock "d" 1) ∅ a = Returns (st1, a1) /\
    resetGame (mkClock "e" 2) st1 a1 = Returns (st1, a1).
Proof.
  intros a. eexists _, _. split; [vm_compute; reflexivity|].
  eapply (proj1 (reset_is_idempotent (mkClock "d" 1) (mkClock "e" 2) ∅ _ a _ _)).
  Unshelve. vm_compute. reflexivity.
Defined.

(** ** The leaderboard as a top ten *)

Lemma placeAfterTies_all_ge (e : Entry) (l : list Entry) :
  Forall (fun h => Leaderboard.score e <= Leaderboard.score h) l ->
  placeAfterTies e l = l ++ [e].
Proof.
  induction 1 as [|h t Hh Ht IH]; [reflexivity|]. simpl.
  replace (Leaderboard.score e <=? Leaderboard.score h) with true
    by (symmetry; apply Z.leb_le; exact Hh).
  rewrite IH. reflexivity.
Qed.

Lemma placeAfterTies_snoc_lt (e last : Entry) (l : list Entry) :
  Leaderboard.score last < Leaderboard.score e ->
  placeAfterTies e (l ++ [last]) = placeAfterTies e l ++ [last].
Proof.
  intros Hlt. induction l as [|h t IH]; simpl.
  - replace (Leaderboard.score e <=? Leaderboard.score last) with false;
      [reflexivity|]. symmetry. apply Z.leb_gt. exact Hlt.
  - destruct (Leaderboard.score e <=? Leaderboard.score h); [|reflexivity].
    rewrite IH. reflexivity.
Qed.

Lemma placeAfterTies_length (e : Entry) (l : list Entry) :
  length (placeAfterTies e l) = S (length l).
Proof.
  induction l as [|h t IH]; [reflexivity|]. simpl.
  destruct (_ <=? _); simpl; [rewrite IH|]; reflexivity.
Qed.

(** The sort of a list with one more entry at its end is the sort of the
    list with the entry placed after its ties. *)
Lemma insert_sorted_placeAfterTies (h e : Entry) (l : list Entry) :
  insert_sorted byScoreDesc h (placeAfterTies e l) =
  placeAfterTies e (insert_sorted byScoreDesc h l).
Proof.
  induction l as [|s l IH]; simpl; unfold byScoreDesc in *.
  - destruct (Z.leb_spec (Leaderboard.score e - Leaderboard.score h) 0),
             (Z.leb_spec (Leaderboard.score e) (Leaderboard.score h));
      try lia; reflexivity.
  - destruct (Z.leb_spec (Leaderboard.score e) (Leaderboard.score s)),
             (Z.leb_spec (Leaderboard.score s - Leaderboard.score h) 0); simpl.
    + destruct (Z.leb_spec (Leaderboard.score s - Leaderboard.score h) 0),
               (Z.leb_spec (Leaderboard.score e) (Leaderboard.score h)); try lia.
      simpl. destruct (Z.leb_spec (Leaderboard.score e) (Leaderboard.score s));
        try lia. reflexivity.
    + destruct (Z.leb_spec (Leaderboard.score s - Leaderboard.score h) 0),
               (Z.leb_spec (Leaderboard.score e) (Leaderboard.score s)); try lia.
      rewrite IH. reflexivity.
    + destruct (Z.leb_spec (Leaderboard.score e - Leaderboard.score h) 0),
               (Z.leb_spec (Leaderboard.score e) (Leaderboard.score h)); try lia.
      * simpl. destruct (Z.leb_spec (Leaderboard.score e) (Leaderboard.score s));
          try lia. reflexivity.
      * simpl. destruct (Z.leb_spec (Leaderboard.score s - Leaderboard.score h) 0);
          try lia. reflexivity.
    + destruct (Z.leb_spec (Leaderboard.score e - Leaderboard.score h) 0),
               (Z.leb_spec (Leaderboard.score e) (Leaderboard.score s)); try lia.
      simpl. destruct (Z.leb_spec (Leaderboard.score s - Leaderboard.score h) 0);
        try lia. reflexivity.
Qed.

Lemma Array_sort_app_one (e : Entry) (l : list Entry) :
  Array_sort byScoreDesc (l ++ [e]) = placeAfterTies e (Array_sort byScoreDesc l).
Proof.
  induction l as [|h t IH]; [reflexivity|].
  simpl. rewrite IH. apply insert_sorted_placeAfterTies.
Qed.

Lemma take_placeAfterTies (n : nat) (e : Entry) (l : list Entry) :
  take n (placeAfterTies e (take n l)) = take n (placeAfterTies e l).
Proof.
  revert n. induction l as [|s l IH]; intros [|n]; try reflexivity.
  simpl. destruct (Leaderboard.score e <=? Leaderboard.score s); simpl.
  - rewrite IH. reflexivity.
  - destruct n; [reflexivity|]. simpl. rewrite take_take, Nat.min_l by lia.
    reflexivity.
Qed.

Lemma StronglySorted_take {A : Type} (R : A -> A -> Prop) (n : nat) (l : list A) :
  StronglySorted R l -> StronglySorted R (take n l).
Proof.
  intros Hs. rewrite <- (take_drop n l) in Hs.
  apply StronglySorted_app in Hs as (_ & Hs & _). exact Hs.
Qed.

(** X9.  Saving into a board in descending order returns the first ten
    entries of the board with the new entry put after every entry that
    scores at least as much, and writes the text of that list under the
    leaderboard's key, where it reads back as that list.  On a full board,
    a score that does not beat the tenth leaves the board as it is: the
    list returned and held by the store is the one held before, and a store
    that held the program's own text of it is left as it was; a score that
    beats the tenth drops the tenth entry. *)
Theorem save_into_sorted_board (sc : Z) (clk : Clock) (st : Storage)
        (lb : list Entry) :
  holds st lb ->
  StronglySorted descending lb ->
  let newEntry := mkEntry sc (today clk) (now clk) in
  let updated := take 10 (placeAfterTies newEntry lb) in
  let st' := <[KEY := JSON_stringify updated]> st in
  saveScore sc clk st = Returns (updated, st') /\
  (Z.abs sc <= MAX_SAFE_INTEGER -> Z.abs (now clk) <= MAX_SAFE_INTEGER ->
   holds st' updated) /\
  (forall front tenth,
     lb = front ++ [tenth] -> length front = 9%nat ->
     if sc <=? Leaderboard.score tenth
     then updated = lb /\ holds st' lb /\
          (st !! KEY = Some (JSON_stringify lb) -> st' = st)
     else updated = placeAfterTies newEntry front).
Proof.
  intros Hholds Hsorted newEntry updated st'.
  assert (Hupdated : take 10 (Array_sort byScoreDesc (lb ++ [newEntry])) = updated).
  { rewrite Array_sort_app_one, (Array_sort_sorted lb Hsorted). reflexivity. }
  split; [|split].
  - pose proof (saveScore_holds sc clk st lb Hholds) as Hsave. cbv zeta in Hsave.
    fold newEntry in Hsave. rewrite Hupdated in Hsave. exact Hsave.
  - intros Hsc Hnow. apply stored_holds. rewrite <- Hupdated.
    apply Forall_take. rewrite Array_sort_perm. apply Forall_app.
    split; [eapply holds_storable, Hholds|].
    apply Forall_singleton. split; [exact Hsc|exact Hnow].
  - intros front tenth Hlb Hlen.
    destruct (sc <=? Leaderboard.score tenth) eqn:E.
    + apply Z.leb_le in E.
      assert (Hsame : updated = lb).
      { subst updated lb. rewrite placeAfterTies_all_ge.
        - replace 10%nat with (length (front ++ [tenth]))
            by (rewrite length_app, Hlen; reflexivity).
          apply take_app_length.
        - apply StronglySorted_app in Hsorted as (Hcross & _ & _).
          apply Forall_app. split; [|repeat constructor; exact E].
          apply Forall_forall. intros h Hh.
          specialize (Hcross h tenth Hh
                        ltac:(apply list_elem_of_singleton; reflexivity)).
          unfold descending in Hcross. simpl. lia. }
      split; [exact Hsame|]. subst st'. rewrite Hsame.
      split; [apply stored_holds; eapply holds_storable, Hholds|].
      intros Hheld. apply insert_id. exact Hheld.
    + apply Z.leb_gt in E. subst updated lb.
      rewrite (placeAfterTies_snoc_lt newEntry tenth front) by exact E.
      replace 10%nat with (length (placeAfterTies newEntry front))
        by (rewrite placeAfterTies_length, Hlen; reflexivity).
      apply take_app_length.
Qed.

Lemma save_into_sorted_board_witness :
  let lb := [mkEntry 7 "d" 1; mkEntry 5 "d" 2] in
  let st : Storage := <[KEY := JSON_stringify lb]> ∅ in
  let updated := [mkEntry 7 "d" 1; mkEntry 5 "d" 2; mkEntry 5 "e" 3] in
  saveScore 5 (mkClock "e" 3) st =
    Returns (updated, <[KEY := JSON_stringify updated]> st) /\
  holds (<[KEY := JSON_stringify updated]> st) updated.
Proof.
  intros lb st updated.
  destruct (save_into_sorted_board 5 (mkClock "e" 3) st lb) as (Hsave & Hheld & _).
  - apply stored_holds. repeat constructor; vm_compute; discriminate.
  - repeat constructor; unfold descending; simpl; lia.
  - split; [exact Hsave|]. apply Hheld; vm_compute; discriminate.
Defined.

(** The board after one more save, when the board before is the top ten of
    a list: the top ten of the list with the new entry. *)
Lemma top_ten_step (e : Entry) (l : list Entry) :
  take 10 (Array_sort byScoreDesc (take 10 (Array_sort byScoreDesc l) ++ [e])) =
  take 10 (Array_sort byScoreDesc (l ++ [e])).
Proof.
  rewrite !Array_sort_app_one.
  rewrite (Array_sort_sorted (take 10 (Array_sort byScoreDesc l))).
  - apply take_placeAfterTies.
  - apply StronglySorted_take, Array_sort_descending.
Qed.

Lemma take_sort_storable (n : nat) (l : list Entry) :
  Forall storable l -> Forall storable (take n (Array_sort byScoreDesc l)).
Proof.
  intros Hl. apply Forall_take. rewrite Array_sort_perm. exact Hl.
Qed.

Lemma saveScore_step (sc : Z) (clk : Clock) (st : Storage) (lb : list Entry) :
  holds st lb -> storable (entryOf (sc, clk)) ->
  let updated := take 10 (Array_sort byScoreDesc (lb ++ [entryOf (sc, clk)])) in
  saveScore sc clk st = Returns (updated, <[KEY := JSON_stringify updated]> st) /\
  holds (<[KEY := JSON_stringify updated]> st) updated.
Proof.
  intros Hholds Hnew updated. split; [apply saveScore_holds, Hholds|].
  apply stored_holds, take_sort_storable, Forall_app.
  split; [eapply holds_storable, Hholds|apply Forall_singleton; exact Hnew].
Qed.

Lemma saveAll_top_ten (saves : list (Z * Clock)) (st : Storage) (l : list Entry) :
  holds st (take 10 (Array_sort byScoreDesc l)) ->
  Forall (fun save => storable (entryOf save)) saves ->
  exists st',
    saveAll saves st = Returns st' /\
    holds st' (take 10 (Array_sort byScoreDesc (l ++ map entryOf saves))) /\
    forall k, k <> KEY -> st' !! k = st !! k.
Proof.
  revert st l. induction saves as [|[sc clk] saves IH]; intros st l Hholds Hsaves.
  - exists st. rewrite app_nil_r. repeat split. exact Hholds.
  - apply Forall_cons in Hsaves as [Hnew Hsaves].
    destruct (saveScore_step sc clk st _ Hholds Hnew) as [Hsave Hnext].
    rewrite top_ten_step in Hsave, Hnext.
    destruct (IH _ (l ++ [entryOf (sc, clk)]) Hnext Hsaves) as (st' & Hrun & Hst' & Hkeys).
    exists st'. split; [|split].
    + cbn [saveAll]. rewrite Hsave. exact Hrun.
    + rewrite <- app_assoc in Hst'. exact Hst'.
    + intros k Hk. rewrite (Hkeys k Hk). apply lookup_insert_ne. congruence.
Qed.

(** X10.  After any series of saves the store holds the ten best of all
    the entries, those it held before and those saved since, in descending
    order of score and, among equal scores, in order of arrival; the saves
    return, and change the store under the leaderboard's key only. *)
Theorem board_is_top_ten_of_all_saves
        (saves : list (Z * Clock)) (st : Storage) (lb : list Entry) :
  holds st lb ->
  Forall (fun save => Z.abs save.1 <= MAX_SAFE_INTEGER /\
                      Z.abs (now save.2) <= MAX_SAFE_INTEGER) saves ->
  saves <> [] ->
  exists st',
    saveAll saves st = Returns st' /\
    holds st' (take 10 (Array_sort byScoreDesc (lb ++ map entryOf saves))) /\
    forall k, k <> KEY -> st' !! k = st !! k.
Proof.
  intros Hholds Hsaves Hne.
  destruct saves as [|[sc clk] saves]; [congruence|].
  apply Forall_cons in Hsaves as [Hnew Hsaves].
  destruct (saveScore_step sc clk st lb Hholds Hnew) as [Hsave Hnext].
  destruct (saveAll_top_ten saves _ (lb ++ [entryOf (sc, clk)]) Hnext Hsaves)
    as (st' & Hrun & Hst' & Hkeys).
  exists st'. split; [|split].
  - cbn [saveAll]. rewrite Hsave. exact Hrun.
  - rewrite <- app_assoc in Hst'. exact Hst'.
  - intros k Hk. rewrite (Hkeys k Hk). apply lookup_insert_ne. congruence.
Qed.

Lemma board_is_top_ten_of_all_saves_witness :
  exists st',
    saveAll [(3, mkClock "a" 1); (9, mkClock "b" 2); (3, mkClock "c" 3)] ∅ = Returns st' /\
    holds st' [mkEntry 9 "b" 2; mkEntry 3 "a" 1; mkEntry 3 "c" 3].
Proof.
  destruct (board_is_top_ten_of_all_saves
              [(3, mkClock "a" 1); (9, mkClock "b" 2); (3, mkClock "c" 3)] ∅ [])
    as (st' & Hrun & Hst' & _).
  - exists (JArr []). split; reflexivity.
  - repeat constructor; vm_compute; discriminate.
  - discriminate.
  - exists st'. split; [exact Hrun|exact Hst'].
Defined.

(** ** Sessions *)

Lemma wellKept_mount (st : Storage) (lb : list Entry) :
  holds st lb ->
  exists loaded,
    getLeaderboard st = Returns loaded /\
    Session.shown loaded = Returns lb /\
    Session.topScore loaded =
      Returns (match lb with [] => 0 | e :: _ => Leaderboard.score e end).
Proof.
  intros (parsed & Hget & Hspread). exists parsed. split; [exact Hget|].
  unfold spread in Hspread.
  destruct parsed as [| | |[|u us]|items|members]; try discriminate.
  - injection Hspread as <-. split; reflexivity.
  - simpl. destruct (entries_of_json items) as [l|] eqn:E; [|discriminate].
    injection Hspread as ->. split; [reflexivity|].
    destruct items as [|first items]; simpl in E.
    + injection E as <-. reflexivity.
    + destruct (entry_of_json first) as [e|]; [|discriminate].
      destruct (entries_of_json items); [|discriminate].
      injection E as <-. reflexivity.
Qed.

Lemma score_bounded_apply (e : Event) (a : App) :
  0 <= score a <= scoreRef a -> 0 <= score (apply e a) <= scoreRef (apply e a).
Proof.
  intros Hs. destruct e as [rnd| |w]; simpl.
  - unfold tick, gameLoop; simpl. destruct (gameState a); try exact Hs.
    destruct (playingFrame_scores rnd a) as [-> ->].
    rewrite updatePipes_scoreRef, updatePipes_score. cbn [fst snd].
    pose proof (count_nonneg creditDue
      (spawnPipe (dimensions a) rnd (frameCountRef a + 1) (pipesRef a))) as Hc.
    fold (creditable (spawnPipe (dimensions a) rnd (frameCountRef a + 1) (pipesRef a))) in Hc.
    destruct (creditable _ =? 0); lia.
  - unfold jump. destruct (gameState a); exact Hs.
  - unfold resize, canvasEffect, handleResize; simpl.
    destruct (gameState a); exact Hs.
Qed.

Lemma bounded_apply (n : Z) (e : Event) (a : App) :
  Session.bounded n a -> Session.bounded (n + 1) (apply e a).
Proof.
  intros (Hacc & Hs & Hf). split; [apply accounted_apply, Hacc|].
  split; [apply score_bounded_apply, Hs|].
  pose proof (frameCountRef_run [e] a) as Hrun. simpl in Hrun.
  assert (frameCount [e] <= 1).
  { unfold frameCount. destruct e; simpl; lia. }
  lia.
Qed.

Lemma bounded_score (n : Z) (a : App) : Session.bounded n a -> 0 <= score a <= n.
Proof.
  intros ([Hf Hacc] & Hs & Hn).
  pose proof (count_nonneg (fun p => negb (passed p)) (pipesRef a)) as Hu.
  fold (unpassed (pipesRef a)) in Hu.
  assert (frameCountRef a / 100 <= frameCountRef a)
    by (Z.to_euclidean_division_equations; lia).
  lia.
Qed.

Lemma bounded_leaveGame (n : Z) (canvas : bool) (s : Session.State) :
  Session.bounded n (Session.app s) ->
  Session.bounded n (Session.app (Session.leaveGame canvas s)).
Proof.
  intros ([Hf Hacc] & Hs & Hn).
  unfold Session.leaveGame, canvasEffect, Session.bounded, accounted.
  destruct canvas; simpl; repeat split; lia.
Qed.

Lemma wellKept_save (sc : Z) (clk : Clock) (st : Storage) :
  Session.wellKept st ->
  Z.abs sc <= MAX_SAFE_INTEGER -> Z.abs (now clk) <= MAX_SAFE_INTEGER ->
  exists updated st',
    saveScore sc clk st = Returns (updated, st') /\
    Session.wellKept st' /\
    forall k, k <> KEY -> st' !! k = st !! k.
Proof.
  intros (lb & Hholds & Hsorted & Hlen) Hsc Hnow.
  destruct (saveScore_step sc clk st lb Hholds (conj Hsc Hnow)) as [Hsave Hnext].
  eexists _, _. split; [exact Hsave|]. split.
  - eexists. split; [exact Hnext|]. split.
    + apply StronglySorted_take, Array_sort_descending.
    + rewrite length_take. lia.
  - intros k Hk. apply lookup_insert_ne. congruence.
Qed.

Lemma carriesOn_app (n : Z) (s : Session.State) (a : App) :
  Session.wellKept (Session.storage s) -> Session.bounded n a ->
  Session.carriesOn n s (Session.set_app a s).
Proof. intros Hkept Ha. split; [exact Hkept|]. split; [exact Ha|]. split; reflexivity. Qed.

Lemma carriesOn_view (n : Z) (s : Session.State) (v : Session.View) :
  Session.wellKept (Session.storage s) -> Session.bounded n (Session.app s) ->
  Session.carriesOn n s (Session.set_currentView v s).
Proof. intros Hkept Ha. split; [exact Hkept|]. split; [exact Ha|]. split; reflexivity. Qed.

Lemma carriesOn_refl (n : Z) (s : Session.State) :
  Session.wellKept (Session.storage s) -> Session.bounded n (Session.app s) ->
  Session.carriesOn n s s.
Proof. intros Hkept Ha. split; [exact Hkept|]. split; [exact Ha|]. split; reflexivity. Qed.

Lemma carriesOn_leaveGame (n : Z) (canvas : bool) (s s1 : Session.State) :
  Session.carriesOn n s s1 -> Session.carriesOn n s (Session.leaveGame canvas s1).
Proof.
  intros (Hkept & Hb & Hhigh & Hkeys).
  split; [exact Hkept|]. split; [apply bounded_leaveGame, Hb|].
  split; [exact Hhigh|exact Hkeys].
Qed.

Lemma bounded_up (n : Z) (a : App) : Session.bounded n a -> Session.bounded (n + 1) a.
Proof. intros (Hacc & Hs & Hf). split; [exact Hacc|]. split; [exact Hs|lia]. Qed.

Lemma carriesOn_playAgain (n : Z) (clk : Clock) (s : Session.State) :
  Session.wellKept (Session.storage s) -> Session.bounded n (Session.app s) ->
  n <= MAX_SAFE_INTEGER -> Z.abs (now clk) <= MAX_SAFE_INTEGER ->
  exists s', Session.playAgain clk s = Returns s' /\ Session.carriesOn (n + 1) s s'.
Proof.
  intros Hkept Hb Hn Hnow. pose proof (bounded_score n _ Hb) as Hscore.
  assert (Hfresh : forall l d, Session.bounded (n + 1)
            (mkApp d ready 0 l (mkBird (inject_Z (height d) / 2) 0 0) [] 0 0)).
  { intros l d. destruct Hb as ([Hf _] & _ & Hfn).
    unfold Session.bounded, accounted. simpl. repeat split; lia. }
  unfold Session.playAgain, resetGame.
  destruct (0 <? score (Session.app s)) eqn:Epos.
  - destruct (wellKept_save (score (Session.app s)) clk (Session.storage s) Hkept)
      as (updated & st' & Hsave & Hkept' & Hkeys); [lia|exact Hnow|].
    rewrite Hsave. eexists. split; [reflexivity|].
    split; [exact Hkept'|]. split; [apply Hfresh|]. split; [reflexivity|exact Hkeys].
  - eexists. split; [reflexivity|].
    split; [exact Hkept|]. split; [apply Hfresh|]. split; reflexivity.
Qed.

(** One action of a session. *)
Lemma step_carriesOn (n : Z) (act : Session.Action) (s : Session.State) :
  Session.wellKept (Session.storage s) -> Session.bounded n (Session.app s) ->
  n <= MAX_SAFE_INTEGER ->
  (forall clk, Session.clockOf act = Some clk -> Z.abs (now clk) <= MAX_SAFE_INTEGER) ->
  exists s', Session.step act s = Returns s' /\ Session.carriesOn (n + 1) s s'.
Proof.
  intros Hkept Hb Hn Hclk. pose proof (bounded_up n _ Hb) as Hup.
  destruct act as [rnd|w|clk canvas e| |clk|canvas| | | | |]; simpl.
  - destruct (Session.currentView s); eexists; (split; [reflexivity|]);
      try (apply carriesOn_refl; assumption).
    apply carriesOn_app; [exact Hkept|]. apply (bounded_apply n (Frame rnd)), Hb.
  - eexists. split; [reflexivity|].
    apply carriesOn_app; [exact Hkept|]. apply (bounded_apply n (Resize w)), Hb.
  - unfold Session.handleKeyDown.
    destruct (Session.currentView s);
      try (eexists; split; [reflexivity|]; apply carriesOn_refl; assumption).
    assert (Hfirst : exists s1,
      (if (String.eqb (Session.code e) "Space" || String.eqb (Session.code e) "ArrowUp"
           || String.eqb (Session.key e) " ")%bool
       then match gameState (Session.app s) with
            | gameover => Session.playAgain clk s
            | ready | playing => mret (Session.set_app (jump (Session.app s)) s)
            end
       else mret s) = Returns s1 /\ Session.carriesOn (n + 1) s s1).
    { destruct (_ || _)%bool.
      - destruct (gameState (Session.app s)) eqn:Eg.
        + eexists. split; [reflexivity|]. apply carriesOn_app; [exact Hkept|].
          apply (bounded_apply n Flap), Hb.
        + eexists. split; [reflexivity|]. apply carriesOn_app; [exact Hkept|].
          apply (bounded_apply n Flap), Hb.
        + apply (carriesOn_playAgain n clk s Hkept Hb Hn). apply Hclk. reflexivity.
      - eexists. split; [reflexivity|]. apply carriesOn_refl; assumption. }
    destruct Hfirst as (s1 & -> & Hs1). simpl.
    destruct (String.eqb (Session.code e) "Escape"); eexists; (split; [reflexivity|]).
    + apply carriesOn_leaveGame, Hs1.
    + exact Hs1.
  - eexists. split; [reflexivity|].
    apply carriesOn_app; [exact Hkept|]. apply (bounded_apply n Flap), Hb.
  - apply (carriesOn_playAgain n clk s Hkept Hb Hn). apply Hclk. reflexivity.
  - eexists. split; [reflexivity|]. apply carriesOn_leaveGame, carriesOn_refl; assumption.
  - eexists. split; [reflexivity|]. apply carriesOn_view; assumption.
  - eexists. split; [reflexivity|]. apply carriesOn_view; assumption.
  - unfold Session.openLeaderboard. destruct Hkept as (lb & Hholds & Hsorted & Hlen).
    destruct (wellKept_mount _ _ Hholds) as (loaded & -> & Hshown & _). simpl.
    rewrite Hshown. eexists. split; [reflexivity|].
    split; [exists lb; repeat split; assumption|]. split; [exact Hup|].
    split; reflexivity.
  - eexists. split; [reflexivity|]. apply carriesOn_view; assumption.
  - eexists. split; [reflexivity|]. split; [|split; [exact Hup|split; [reflexivity|]]].
    + exists []. split; [|split; [constructor|simpl; lia]].
      exists (JArr []). split; [|reflexivity].
      unfold getLeaderboard. simpl. rewrite lookup_delete_eq. reflexivity.
    + intros k Hk. simpl. apply lookup_delete_ne. congruence.
Qed.

Lemma session_carriesOn (acts : list Session.Action) (n : Z) (s : Session.State) :
  Session.wellKept (Session.storage s) -> Session.bounded n (Session.app s) ->
  n + Z.of_nat (length acts) <= MAX_SAFE_INTEGER + 1 ->
  Session.clocksOk acts ->
  exists s', Session.session acts s = Returns s' /\
             Session.carriesOn (n + Z.of_nat (length acts)) s s'.
Proof.
  revert n s. induction acts as [|act acts IH]; intros n s Hkept Hb Hn Hclk.
  - exists s. split; [reflexivity|]. simpl. rewrite Z.add_0_r.
    apply carriesOn_refl; assumption.
  - apply Forall_cons in Hclk as [Hact Hclk].
    change (length (act :: acts)) with (S (length acts)) in *.
    destruct (step_carriesOn n act s Hkept Hb ltac:(lia) Hact)
      as (s1 & Hstep & Hkept1 & Hb1 & Hhigh1 & Hkeys1).
    destruct (IH (n + 1) s1 Hkept1 Hb1 ltac:(lia) Hclk)
      as (s' & Hrun & Hkept' & Hb' & Hhigh' & Hkeys').
    exists s'. split; [cbn [Session.session]; rewrite Hstep; exact Hrun|].
    split; [exact Hkept'|].
    split; [replace (n + Z.of_nat (S (length acts))) with (n + 1 + Z.of_nat (length acts)) by lia; exact Hb'|].
    split; [congruence|].
    intros k Hk. rewrite (Hkeys' k Hk). apply Hkeys1, Hk.
Qed.

Lemma mount_carriesOn (innerWidth : Z) (st : Storage) (lb : list Entry) :
  holds st lb ->
  Session.mount innerWidth st =
    Returns (Session.mkState Session.menu
               (match lb with [] => 0 | e :: _ => Leaderboard.score e end)
               (Session.set_leaderboard lb (initial innerWidth)) st).
Proof.
  intros Hholds. destruct (wellKept_mount st lb Hholds) as (loaded & Hget & Hshown & Htop).
  unfold Session.mount. rewrite Hget. simpl. rewrite Htop. simpl. rewrite Hshown.
  reflexivity.
Qed.

Lemma bounded_initial (innerWidth : Z) (l : list Entry) :
  Session.bounded 0 (Session.set_leaderboard l (initial innerWidth)).
Proof. unfold Session.bounded, accounted. simpl. repeat split; lia. Qed.

(** X11.  From a store the program left, no session throws or spoils the
    store: whatever the player, the window and the frame clock do (fewer
    than 2^53 actions, the clock within the range of exact doubles), the
    page mounts, every handler returns, the store holds a leaderboard of at
    most ten entries in descending order, no key but the leaderboard's has
    changed, and the score on screen is at most the number of actions. *)
Theorem session_keeps_the_store (innerWidth : Z) (st : Storage)
        (acts : list Session.Action) :
  Session.wellKept st ->
  Session.clocksOk acts ->
  Z.of_nat (length acts) <= MAX_SAFE_INTEGER ->
  exists s0 s,
    Session.mount innerWidth st = Returns s0 /\
    Session.session acts s0 = Returns s /\
    Session.wellKept (Session.storage s) /\
    (forall k, k <> KEY -> Session.storage s !! k = st !! k) /\
    0 <= score (Session.app s) <= Z.of_nat (length acts).
Proof.
  intros Hkept Hclk Hlen. pose proof Hkept as (lb & Hholds & _).
  eexists. 
  destruct (session_carriesOn acts 0
              (Session.mkState Session.menu
                 (match lb with [] => 0 | e :: _ => Leaderboard.score e end)
                 (Session.set_leaderboard lb (initial innerWidth)) st))
    as (s & Hrun & Hkept' & Hb & _ & Hkeys);
    [exact Hkept|apply bounded_initial|lia|exact Hclk|].
  exists s. split; [apply mount_carriesOn, Hholds|]. split; [exact Hrun|].
  split; [exact Hkept'|]. split; [exact Hkeys|].
  apply bounded_score in Hb. lia.
Qed.

Lemma bind_Returns {A B : Type} (m : outcome A) (k : A -> outcome B) (b : B) :
  (m ≫= k) = Returns b -> exists a, m = Returns a /\ k a = Returns b.
Proof.
  destruct m as [a| |]; try discriminate. intros Hk. exists a. split; [reflexivity|exact Hk].
Qed.

Lemma playAgain_highScore (clk : Clock) (s s' : Session.State) :
  Session.playAgain clk s = Returns s' -> Session.highScore s' = Session.highScore s.
Proof.
  unfold Session.playAgain. intros H.
  apply bind_Returns in H as (r & _ & [= <-]). reflexivity.
Qed.

Lemma step_highScore (act : Session.Action) (s s' : Session.State) :
  Session.step act s = Returns s' -> Session.highScore s' = Session.highScore s.
Proof.
  destruct act as [rnd|w|clk canvas e| |clk|canvas| | | | |]; simpl;
    try (intros [= <-]; reflexivity).
  - destruct (Session.currentView s); intros [= <-]; reflexivity.
  - unfold Session.handleKeyDown.
    destruct (Session.currentView s); try (intros [= <-]; reflexivity).
    intros H. apply bind_Returns in H as (s1 & Hfirst & Hsecond).
    assert (Hs1 : Session.highScore s1 = Session.highScore s).
    { destruct (_ || _)%bool; [|injection Hfirst as <-; reflexivity].
      destruct (gameState (Session.app s));
        try (injection Hfirst as <-; reflexivity).
      apply (playAgain_highScore clk), Hfirst. }
    destruct (String.eqb (Session.code e) "Escape");
      injection Hsecond as <-; exact Hs1.
  - apply playAgain_highScore.
  - unfold Session.openLeaderboard. intros H.
    apply bind_Returns in H as (loaded & _ & H).
    apply bind_Returns in H as (l & _ & [= <-]). reflexivity.
Qed.

Lemma session_highScore (acts : list Session.Action) (s s' : Session.State) :
  Session.session acts s = Returns s' -> Session.highScore s' = Session.highScore s.
Proof.
  revert s. induction acts as [|act acts IH]; intros s; simpl.
  - intros [= <-]. reflexivity.
  - intros H. apply bind_Returns in H as (s1 & Hstep & Hrest).
    rewrite (IH s1 Hrest). apply (step_highScore act), Hstep.
Qed.

(** X12.  The high score of the header is the best score of the store as
    it was when the page loaded, and stays so for the whole session, also
    after better scores were saved. *)
Theorem high_score_is_the_one_at_load (innerWidth : Z) (st : Storage)
        (lb : list Entry) (acts : list Session.Action) (s0 s : Session.State) :
  holds st lb -> StronglySorted descending lb ->
  Session.mount innerWidth st = Returns s0 ->
  Session.session acts s0 = Returns s ->
  Session.highScore s = match lb with [] => 0 | e :: _ => Leaderboard.score e end /\
  Forall (fun e => Leaderboard.score e <= Session.highScore s) lb.
Proof.
  intros Hholds Hsorted Hmount Hrun.
  rewrite (mount_carriesOn innerWidth st lb Hholds) in Hmount. injection Hmount as <-.
  rewrite (session_highScore acts _ s Hrun). simpl. split; [reflexivity|].
  destruct lb as [|e lb]; [constructor|].
  apply StronglySorted_cons in Hsorted as [Hall _].
  constructor; [lia|]. exact Hall.
Qed.

Lemma high_score_is_the_one_at_load_witness :
  let st : Storage := <[KEY := JSON_stringify [mkEntry 1 "d" 1]]> ∅ in
  let acts := Session.ClickPlay :: map Session.actionOf (hoverRun 330)
              ++ [Session.ClickPlayAgain (mkClock "e" 2)] in
  exists s0 s,
    Session.mount 375 st = Returns s0 /\
    Session.session acts s0 = Returns s /\
    holds (Session.storage s) [mkEntry 2 "e" 2; mkEntry 1 "d" 1] /\
    Session.highScore s = 1.
Proof.
  intros st acts.
  destruct (Session.mount 375 st) as [s0| |] eqn:Hmount; try (vm_compute in Hmount; discriminate).
  destruct (Session.session acts s0) as [s| |] eqn:Hrun;
    try (vm_compute in Hmount; injection Hmount as <-; vm_compute in Hrun; discriminate).
  exists s0, s. split; [reflexivity|]. split; [exact Hrun|].
  split.
  - vm_compute in Hmount. injection Hmount as <-. vm_compute in Hrun.
    injection Hrun as <-. eexists. split; [vm_compute; reflexivity|vm_compute; reflexivity].
  - apply (high_score_is_the_one_at_load 375 st [mkEntry 1 "d" 1] acts s0 s).
    + apply stored_holds. repeat constructor; vm_compute; discriminate.
    + repeat constructor.
    + exact Hmount.
    + exact Hrun.
Defined.

Lemma session_keeps_the_store_witness :
  let acts := [Session.ClickPlay; Session.ClickCanvas; Session.AnimationFrame (1 # 2);
               Session.KeyDown (mkClock "e" 2) true (Session.mkKeyboardEvent "Escape" "Escape");
               Session.ClickLeaderboard; Session.ClickClear] in
  exists s0 s,
    Session.mount 375 ∅ = Returns s0 /\
    Session.session acts s0 = Returns s /\
    Session.wellKept (Session.storage s) /\
    (forall k, k <> KEY -> Session.storage s !! k = (∅ : Storage) !! k) /\
    0 <= score (Session.app s) <= 6.
Proof.
  intros acts. apply (session_keeps_the_store 375 ∅ acts).
  - exists []. split; [exists (JArr []); split; reflexivity|]. split; [constructor|simpl; lia].
  - repeat constructor; intros clk [= <-]; vm_compute; discriminate.
  - vm_compute. discriminate.
Defined.



(** ** The pipes on screen, and gravity *)

Lemma updatePipes_length (pipes : list Pipe) (sc : Z * Z) :
  (length (updatePipes pipes sc).1 <= length pipes)%nat.
Proof.
  revert sc. induction pipes as [|p pipes IH]; intros sc; [simpl; lia|].
  rewrite updatePipes_cons. cbv zeta. cbn [fst].
  specialize (IH (if creditDue p then (sc.1 + 1, sc.1 + 1) else sc)).
  destruct (_ <? _); simpl; lia.
Qed.

Lemma updatePipes_spaced (r : Z) (pipes : list Pipe) (sc : Z * Z) :
  spaced r pipes -> spaced (r + 1) (updatePipes pipes sc).1.
Proof.
  revert sc. induction pipes as [|p pipes IH]; intros sc Hs; [exact I|].
  destruct Hs as [Hp Hrest]. rewrite updatePipes_cons. cbv zeta. cbn [fst].
  specialize (IH (if creditDue p then (sc.1 + 1, sc.1 + 1) else sc) Hrest).
  destruct (_ <? _); [|exact IH].
  split; [|exact IH]. cbn [x].
  pose proof (updatePipes_length pipes
                (if creditDue p then (sc.1 + 1, sc.1 + 1) else sc)).
  unfold PIPE_SPEED. lia.
Qed.

Lemma spaced_snoc (r : Z) (pipes : list Pipe) (p : Pipe) :
  spaced (r + 100) pipes -> x p <= 800 - 3 * r -> spaced r (pipes ++ [p]).
Proof.
  intros Hs Hp. induction pipes as [|q pipes IH]; simpl.
  - split; [lia|exact I].
  - destruct Hs as [Hq Hrest]. split; [|apply IH, Hrest].
    rewrite length_app. simpl. lia.
Qed.

Lemma spaced_apply (e : Event) (a : App) :
  0 <= frameCountRef a -> width (dimensions a) <= 800 ->
  spaced (Z.rem (frameCountRef a) 100 + 1) (pipesRef a) ->
  let a' := apply e a in
  0 <= frameCountRef a' /\ width (dimensions a') <= 800 /\
  spaced (Z.rem (frameCountRef a') 100 + 1) (pipesRef a').
Proof.
  intros Hf Hw Hs. destruct e as [rnd| |w]; simpl.
  - unfold tick, gameLoop; simpl. destruct (gameState a); try (repeat split; assumption).
    rewrite playingFrame_frameCountRef, playingFrame_pipes, playingFrame_dimensions.
    split; [lia|]. split; [exact Hw|].
    apply updatePipes_spaced. unfold spawnPipe.
    rewrite !Z.rem_mod_nonneg in * by lia.
    destruct ((frameCountRef a + 1) mod 100 =? 0) eqn:E.
    + apply Z.eqb_eq in E. rewrite E.
      apply spaced_snoc; [|simpl; lia].
      replace (0 + 100) with (frameCountRef a mod 100 + 1); [exact Hs|].
      Z.to_euclidean_division_equations; lia.
    + apply Z.eqb_neq in E.
      replace ((frameCountRef a + 1) mod 100) with (frameCountRef a mod 100 + 1);
        [exact Hs|].
      Z.to_euclidean_division_equations; lia.
  - unfold jump. destruct (gameState a); repeat split; assumption.
  - unfold resize, canvasEffect, handleResize; simpl.
    assert (width (getGameDimensions w) <= 800).
    { unfold getGameDimensions. repeat destruct (_ <=? _); simpl; lia. }
    destruct (gameState a); simpl; repeat split; assumption.
Qed.

Lemma spaced_run (events : list Event) (a : App) :
  0 <= frameCountRef a -> width (dimensions a) <= 800 ->
  spaced (Z.rem (frameCountRef a) 100 + 1) (pipesRef a) ->
  let a' := run events a in
  0 <= frameCountRef a' /\
  spaced (Z.rem (frameCountRef a') 100 + 1) (pipesRef a').
Proof.
  revert a. induction events as [|e events IH]; intros a Hf Hw Hs; simpl.
  - split; assumption.
  - destruct (spaced_apply e a Hf Hw Hs) as (Hf' & Hw' & Hs').
    apply IH; assumption.
Qed.

(** X14.  At most three pipes are on the list at any time of a run that
    starts without pipes on a playfield at most 800 wide, whatever the
    resizes: pipes are spawned a hundred frames apart, move three pixels a
    frame and leave the list once off screen. *)
Theorem at_most_three_pipes (events : list Event) (a : App) :
  pipesRef a = [] -> 0 <= frameCountRef a -> width (dimensions a) <= 800 ->
  (length (pipesRef (run events a)) <= 3)%nat.
Proof.
  intros Hp Hf Hw.
  destruct (spaced_run events a Hf Hw) as [Hf' Hs]; [rewrite Hp; exact I|].
  pose proof (pipeConsistent_run events a) as Hc.
  rewrite Hp in Hc. specialize (Hc (List.Forall_nil _)).
  destruct (pipesRef (run events a)) as [|p rest]; [simpl; lia|].
  destruct Hs as [Hx _]. apply Forall_cons in Hc as [[_ Hleft] _].
  rewrite Z.rem_mod_nonneg in Hx by lia.
  pose proof (Z.mod_pos_bound (frameCountRef (run events a)) 100 ltac:(lia)).
  unfold PIPE_WIDTH in Hleft. simpl length. lia.
Qed.

Lemma at_most_three_pipes_witness :
  (length (pipesRef (run (hoverRun 320) (initial 1440))) <= 3)%nat /\
  length (pipesRef (run (hoverRun 320) (initial 1440))) = 3%nat.
Proof.
  split.
  - apply (at_most_three_pipes (hoverRun 320) (initial 1440)).
    + reflexivity.
    + simpl. lia.
    + simpl. lia.
  - vm_compute. reflexivity.
Defined.

Lemma gameover_ticks (rnds : list Q) (a : App) :
  gameState a = gameover -> gameState (ticks rnds a) = gameover.
Proof.
  revert a. unfold ticks. induction rnds as [|rnd rnds IH]; intros a Hover; [exact Hover|].
  simpl. apply IH. unfold tick, gameLoop. rewrite Hover. exact Hover.
Qed.

Lemma tick_gameState (rnd : Q) (a : App) :
  gameState a = playing ->
  gameState (tick rnd a) = playing \/ gameState (tick rnd a) = gameover.
Proof.
  intros Hplay. rewrite (tick_playing rnd a Hplay), playingFrame_gameState.
  destruct (_ || _); [right|left]; reflexivity.
Qed.

(** A run of frames that ends playing found the game playing at every
    frame. *)
Lemma playing_everyFramePlayed (rnds : list Q) (a : App) :
  gameState a = playing -> gameState (ticks rnds a) = playing ->
  everyFramePlayed (map Frame rnds) a = true.
Proof.
  revert a. induction rnds as [|rnd rnds IH]; intros a Hplay Hend; [reflexivity|].
  simpl. unfold isPlaying. rewrite Hplay. simpl.
  destruct (tick_gameState rnd a Hplay) as [Hnext|Hnext].
  - apply IH; [exact Hnext|exact Hend].
  - pose proof (gameover_ticks rnds (tick rnd a) Hnext) as Hover.
    unfold ticks in *. simpl in Hend. congruence.
Qed.

Lemma ticks_dimensions (rnds : list Q) (a : App) :
  dimensions (ticks rnds a) = dimensions a.
Proof.
  revert a. unfold ticks. induction rnds as [|rnd rnds IH]; intros a; [reflexivity|].
  simpl. rewrite IH. unfold tick, gameLoop. simpl.
  destruct (gameState a); try reflexivity. apply playingFrame_dimensions.
Qed.

(** X15.  Gravity ends every game: when the player stops flapping, the
    game is over after [n] frames at the latest, for any [n >= 1] that is
    at least [3 - 4 v] and at least the distance from the bird's lower edge
    to the ground strip, [v] being the velocity now. *)
Theorem gravity_ends_the_game (rnds : list Q) (a : App) :
  gameState a = playing ->
  let n := inject_Z (Z.of_nat (length rnds)) in
  (0 < n)%Q ->
  (3 - 4 * velocity (birdRef a) <= n)%Q ->
  (inject_Z (height (dimensions a)) - 37 - y (birdRef a) <= n)%Q ->
  gameState (ticks rnds a) = gameover.
Proof.
  intros Hplay n Hpos Hv Hy.
  destruct rnds as [|rnd rnds _] using rev_ind.
  { subst n. simpl in Hpos. apply Qlt_irrefl in Hpos. contradiction. }
  unfold ticks. rewrite map_app, run_app. simpl. fold (ticks rnds a).
  destruct (gameState (ticks rnds a)) eqn:Eg.
  - exfalso. clear - Hplay Eg. revert a Hplay Eg. unfold ticks.
    induction rnds as [|r rnds IH]; intros a Hplay Eg; simpl in Eg; [congruence|].
    destruct (tick_gameState r a Hplay) as [Hnext|Hnext].
    + apply (IH _ Hnext Eg).
    + pose proof (gameover_ticks rnds _ Hnext) as Hover. unfold ticks in Hover.
      congruence.
  - pose proof (playing_everyFramePlayed rnds a Hplay Eg) as Hplayed.
    destruct (ticks_flight rnds a Hplayed) as [Hvel Hpos'].
    rewrite (tick_playing rnd _ Eg), playingFrame_gameState.
    replace (groundCollision _ _) with true; [reflexivity|].
    symmetry. apply groundCollision_spec.
    rewrite ticks_dimensions.
    unfold updateBird. cbn [y]. rewrite Hvel, Hpos'. unfold GRAVITY.
    subst n. rewrite length_app in Hpos, Hv, Hy. simpl length in *.
    rewrite Nat2Z.inj_add, inject_Z_plus in Hpos, Hv, Hy.
    change (inject_Z (Z.of_nat 1)) with 1%Q in *.
    assert (Hm : (0 <= inject_Z (Z.of_nat (length rnds)))%Q).
    { change 0%Q with (inject_Z 0). rewrite <- Zle_Qle. lia. }
    revert Hm Hv Hy.
    generalize (inject_Z (Z.of_nat (length rnds))) (velocity (birdRef a))
               (y (birdRef a)) (inject_Z (height (dimensions a))).
    intros m v0 y0 h Hm Hv Hy.
    unfold Qdiv. change (/ 2)%Q with (1 # 2)%Q. nra.
  - unfold tick, gameLoop. rewrite Eg. exact Eg.
Qed.

Lemma gravity_ends_the_game_witness :
  gameState (ticks (repeat (1 # 2) 300) (jump (initial 375))) = gameover.
Proof.
  apply (gravity_ends_the_game (repeat (1 # 2) 300) (jump (initial 375)));
    vm_compute; first [reflexivity | discriminate].
Defined.

(** ** The ground *)

Lemma centred_aboveGround (h : Z) (yb : Q) :
  600 <= h -> (yb == inject_Z h / 2)%Q -> (yb + 17 < inject_Z h - 20)%Q.
Proof.
  intros Hh Hy. rewrite Hy.
  assert (Hq : (600 <= inject_Z h)%Q).
  { change 600%Q with (inject_Z 600). rewrite <- Zle_Qle. exact Hh. }
  revert Hq. generalize (inject_Z h). intros q Hq.
  unfold Qdiv. change (/ 2)%Q with (1 # 2)%Q. lra.
Qed.

Lemma aboveGround_apply (e : Event) (a : App) :
  600 <= height (dimensions a) ->
  (gameState a <> gameover -> aboveGround a) ->
  let a' := apply e a in
  600 <= height (dimensions a') /\ (gameState a' <> gameover -> aboveGround a').
Proof.
  intros Hh Ha. destruct e as [rnd| |w]; simpl.
  - destruct (gameState a) eqn:Eg;
      try (unfold tick, gameLoop; rewrite Eg; simpl; split; [exact Hh|rewrite Eg; exact Ha]).
    rewrite (tick_playing rnd a Eg), playingFrame_dimensions. split; [exact Hh|].
    rewrite playingFrame_gameState. unfold aboveGround.
    rewrite playingFrame_dimensions, playingFrame_birdRef.
    destruct (groundCollision _ _) eqn:Ec; [simpl; intros H; contradiction H; reflexivity|].
    intros _.
    apply Qnot_le_lt. intros Hle. apply groundCollision_spec in Hle. congruence.
  - unfold jump. destruct (gameState a) eqn:Eg; simpl; (split; [exact Hh|]);
      try (intros _; apply Ha; discriminate).
    rewrite Eg. exact Ha.
  - assert (Hw : 600 <= height (getGameDimensions w))
      by (pose proof (getGameDimensions_height w) as Hw; simpl in Hw; lia).
    unfold resize, canvasEffect, handleResize.
    revert Hw. generalize (getGameDimensions w). intros nd Hw.
    simpl. destruct (gameState a); simpl; (split; [exact Hw|]); intros _;
      (apply centred_aboveGround; [exact Hw|reflexivity]).
Qed.

(** X16.  As long as a game that started from the first render is not
    over, the bird's lower edge is above the ground strip, after every
    frame, flap and resize. *)
Theorem bird_in_play_is_above_the_ground (innerWidth : Z) (events : list Event) :
  let a := run events (initial innerWidth) in
  gameState a <> gameover ->
  (y (birdRef a) + 17 < inject_Z (height (dimensions a)) - 20)%Q.
Proof.
  intros a.
  assert (Hinv : forall evs b, 600 <= height (dimensions b) ->
            (gameState b <> gameover -> aboveGround b) ->
            gameState (run evs b) <> gameover -> aboveGround (run evs b)).
  { clear. induction evs as [|e evs IH]; intros b Hh Hb; simpl; [exact Hb|].
    destruct (aboveGround_apply e b Hh Hb) as [Hh' Hb']. apply IH; assumption. }
  apply Hinv.
  - pose proof (getGameDimensions_height innerWidth) as Hw. simpl in Hw.
    change (dimensions (initial innerWidth)) with (getGameDimensions innerWidth). lia.
  - intros _. apply centred_aboveGround; [|reflexivity].
    pose proof (getGameDimensions_height innerWidth) as Hw. simpl in Hw.
    change (dimensions (initial innerWidth)) with (getGameDimensions innerWidth). lia.
Qed.

Lemma bird_in_play_is_above_the_ground_witness :
  let a := run (hoverRun 230) (initial 375) in
  gameState a = playing /\ (y (birdRef a) + 17 < 580)%Q.
Proof.
  intros a. assert (Hg : gameState a = playing) by (vm_compute; reflexivity).
  split; [exact Hg|].
  apply (bird_in_play_is_above_the_ground 375 (hoverRun 230)).
  fold a. rewrite Hg. discriminate.
Defined.

(** ** The fixed playfield *)

Lemma fixed_playingFrame (rnd : Q) (a : App) :
  dimensions a = mkDimensions Fixed.GAME_WIDTH Fixed.GAME_HEIGHT ->
  Fixed.playingFrame rnd (Fixed.ofResponsive a) = Fixed.ofResponsive (playingFrame rnd a).
Proof.
  intros Hd. unfold Fixed.playingFrame, playingFrame, Fixed.ofResponsive.
  cbn [Fixed.birdRef Fixed.frameCountRef Fixed.pipesRef Fixed.scoreRef Fixed.score
       Fixed.leaderboard].
  rewrite Hd.
  change (spawnPipe (mkDimensions Fixed.GAME_WIDTH Fixed.GAME_HEIGHT) rnd)
    with (Fixed.spawnPipe rnd).
  destruct (updatePipes _ _) as [pipes [sref sc]]. reflexivity.
Qed.

Lemma fixed_apply (e : Fixed.Event) (a : App) :
  dimensions a = mkDimensions Fixed.GAME_WIDTH Fixed.GAME_HEIGHT ->
  Fixed.apply e (Fixed.ofResponsive a) = Fixed.ofResponsive (apply (Fixed.toResponsive e) a) /\
  dimensions (apply (Fixed.toResponsive e) a) = mkDimensions Fixed.GAME_WIDTH Fixed.GAME_HEIGHT.
Proof.
  intros Hd. destruct e as [rnd|]; simpl.
  - unfold Fixed.tick, Fixed.gameLoop, tick, gameLoop. simpl.
    destruct (gameState a) eqn:Eg; simpl; try (split; [reflexivity|exact Hd]).
    split; [apply fixed_playingFrame, Hd|]. rewrite playingFrame_dimensions. exact Hd.
  - unfold Fixed.jump, jump. simpl.
    destruct (gameState a) eqn:Eg; simpl; (split; [|exact Hd]).
    + reflexivity.
    + unfold Fixed.ofResponsive. simpl. rewrite Eg. reflexivity.
    + unfold Fixed.ofResponsive. rewrite Eg. reflexivity.
Qed.

Lemma fixed_run (events : list Fixed.Event) (a : App) :
  dimensions a = mkDimensions Fixed.GAME_WIDTH Fixed.GAME_HEIGHT ->
  Fixed.run events (Fixed.ofResponsive a) =
  Fixed.ofResponsive (run (map Fixed.toResponsive events) a).
Proof.
  revert a. induction events as [|e events IH]; intros a Hd; [reflexivity|].
  destruct (fixed_apply e a Hd) as [Hstep Hd'].
  simpl. rewrite Hstep. apply IH, Hd'.
Qed.

(** X17.  The component of [src/App.jsx], on its fixed playfield, is the
    responsive component in a window narrower than 1024 pixels that is not
    resized: after the same frames and flaps from the first render the two
    are in the same state, dimensions apart, and a reset then saves the same
    score to the same store and leaves them in the same state again. *)
Theorem fixed_playfield_is_the_narrow_window (innerWidth : Z)
        (events : list Fixed.Event) (clk : Clock) (st : Storage) :
  innerWidth < 1024 ->
  let a := run (map Fixed.toResponsive events) (initial innerWidth) in
  Fixed.run events Fixed.initial = Fixed.ofResponsive a /\
  Fixed.resetGame clk st (Fixed.run events Fixed.initial) =
    (r ← resetGame clk st a; mret (r.1, Fixed.ofResponsive r.2)).
Proof.
  intros Hw a.
  assert (Hg : getGameDimensions innerWidth =
               mkDimensions Fixed.GAME_WIDTH Fixed.GAME_HEIGHT).
  { unfold getGameDimensions.
    destruct (Z.leb_spec 1440 innerWidth); [lia|].
    destruct (Z.leb_spec 1024 innerWidth); [lia|]. reflexivity. }
  assert (Hd : dimensions (initial innerWidth) =
               mkDimensions Fixed.GAME_WIDTH Fixed.GAME_HEIGHT) by exact Hg.
  assert (Hrun : Fixed.run events Fixed.initial = Fixed.ofResponsive a).
  { subst a. rewrite <- (fixed_run events (initial innerWidth) Hd).
    unfold initial. rewrite Hg. reflexivity. }
  split; [exact Hrun|]. rewrite Hrun.
  assert (Hda : dimensions a = mkDimensions Fixed.GAME_WIDTH Fixed.GAME_HEIGHT).
  { subst a. clear Hrun. revert Hd. generalize (initial innerWidth).
    induction events as [|e events IH]; intros b Hb; [exact Hb|].
    simpl. apply IH. apply (fixed_apply e b Hb). }
  unfold Fixed.resetGame, resetGame. cbn [Fixed.score Fixed.ofResponsive Fixed.leaderboard].
  rewrite Hda.
  destruct (0 <? score a); [|reflexivity].
  destruct (saveScore (score a) clk st) as [[lb st']| |]; reflexivity.
Qed.

Lemma fixed_playfield_is_the_narrow_window_witness :
  let events := [Fixed.Flap; Fixed.Frame (1 # 2); Fixed.Frame (1 # 2)] in
  Fixed.run events Fixed.initial =
  Fixed.ofResponsive (run (map Fixed.toResponsive events) (initial 375)).
Proof.
  intros events.
  apply (fixed_playfield_is_the_narrow_window 375 events (mkClock "d" 1) ∅).
  lia.
Defined.

(** ** The rotation of the bird *)

Lemma Qmin_spec (a b : Q) : ((a <= b)%Q /\ Qmin a b = a) \/ ((b < a)%Q /\ Qmin a b = b).
Proof.
  unfold Qmin. destruct (Qle_bool a b) eqn:E.
  - left. split; [apply Qle_bool_iff, E|reflexivity].
  - right. split; [|reflexivity]. apply Qnot_le_lt. intros H.
    apply Qle_bool_iff in H. congruence.
Qed.

Lemma Qmax_spec (a b : Q) : ((a <= b)%Q /\ Qmax a b = b) \/ ((b < a)%Q /\ Qmax a b = a).
Proof.
  unfold Qmax. destruct (Qle_bool a b) eqn:E.
  - left. split; [apply Qle_bool_iff, E|reflexivity].
  - right. split; [|reflexivity]. apply Qnot_le_lt. intros H.
    apply Qle_bool_iff in H. congruence.
Qed.

Lemma steady_updateBird (b : Bird) :
  (JUMP_STRENGTH <= velocity b)%Q ->
  steady (updateBird b) /\
  Qmax ((velocity b + GRAVITY) * 3) (- (30)) = ((velocity b + GRAVITY) * 3)%Q.
Proof.
  unfold steady, updateBird, JUMP_STRENGTH, GRAVITY. cbn [velocity rotation].
  intros Hv.
  destruct (Qmax_spec ((velocity b + (1 # 2)) * 3) (- (30))) as [[H1 E1]|[H1 E1]];
    [exfalso; lra|].
  rewrite E1. split; [|reflexivity].
  destruct (Qmin_spec ((velocity b + (1 # 2)) * 3) 90) as [[H2 E2]|[H2 E2]];
    rewrite E2; repeat split; lra.
Qed.

Lemma steady_apply (e : Event) (a : App) :
  steady (birdRef a) -> steady (birdRef (apply e a)).
Proof.
  intros Hs. destruct e as [rnd| |w]; simpl.
  - destruct (gameState a) eqn:Eg;
      try (unfold tick, gameLoop; rewrite Eg; exact Hs).
    rewrite (tick_playing rnd a Eg), playingFrame_birdRef.
    apply steady_updateBird, Hs.
  - destruct Hs as (Hv & Hr). unfold jump, steady.
    destruct (gameState a); simpl; (split; [|exact Hr]);
      first [apply Qle_refl | exact Hv].
  - unfold resize, canvasEffect, handleResize. simpl.
    destruct (gameState a); exact Hs.
Qed.

(** X18.  In a run from the first render the bird never rises faster than
    9 pixels a frame, and its rotation stays between -25.5 and 90 degrees:
    the lower bound -30 of the clamp that computes the rotation is never
    reached, the frame's [Math.max(velocity * 3, -30)] is always
    [velocity * 3]. *)
Theorem lower_rotation_clamp_is_dead (innerWidth : Z) (events : list Event) :
  let a := run events (initial innerWidth) in
  let v := (velocity (birdRef a) + GRAVITY)%Q in
  (- (9) <= velocity (birdRef a))%Q /\
  (- (51 # 2) <= rotation (birdRef a))%Q /\ (rotation (birdRef a) <= 90)%Q /\
  Qmax (v * 3) (- (30)) = (v * 3)%Q.
Proof.
  intros a v.
  assert (Hs : steady (birdRef a)).
  { subst a. 
    assert (H0 : steady (birdRef (initial innerWidth))).
    { unfold steady, JUMP_STRENGTH, GRAVITY. simpl. repeat split; lra. }
    revert H0. generalize (initial innerWidth).
    induction events as [|e events IH]; intros b Hb; [exact Hb|].
    simpl. apply IH, steady_apply, Hb. }
  destruct (steady_updateBird (birdRef a) (proj1 Hs)) as [_ Hmax].
  destruct Hs as (Hv & Hlo & Hhi). unfold JUMP_STRENGTH, GRAVITY in *.
  split; [exact Hv|]. split; [lra|]. split; [exact Hhi|exact Hmax].
Qed.
